(** * Charon routing engine: a shallow embedding and its checked properties

    The development follows the two Python modules that make up the routing
    core of the tracker:

    - [eve_sde_loader.py]: the static pathfinder [find_path], a Dijkstra
      search over gate edges (cost 1.0) and jumpbridge edges (cost 0.3);
    - [drifter_tracker.py]: the spawn-time backdating
      [calculate_spawn_time], the connection graph builder
      [build_connection_graph], the hybrid route composer
      [find_hybrid_routes] and the two scoring functions.

    Around this core it also covers the validators and sanitizers of
    [security_utils.py], the loaders [_load_systems_processed] and
    [load_jumpbridges], and the operations of the tracker on its scan list
    (entering, cleaning up and marking scans, region-to-region routing).

    Python values are modelled as follows.  Integers are [Z].  Floats are
    Rocq's primitive binary64 floats, which is the format of a Python
    [float].  A Python [str] is a [string] read as its sequence of code
    points, one [ascii] per code point: the model covers the strings whose
    code points lie below U+0100, and on these the character classes and
    the string methods are those of Python.  A [datetime] is the number of
    microseconds since a fixed origin, and a [timedelta] a number of
    microseconds.  Dictionaries whose iteration order is observable are
    association lists in insertion order; dictionaries that are only looked
    up are [gmap]s. *)

From Stdlib Require Import ZArith Floats String Ascii List Lia.
From Stdlib Require QArith.
From Stdlib Require Import Sorted Permutation.
From stdpp Require Import gmap strings list.

Local Open Scope string_scope.
Local Open Scope Z_scope.

(** ** Python helpers shared by both modules *)

(** [needle in hay] on strings: substring containment. *)
Fixpoint str_contains (needle hay : string) : bool :=
  String.prefix needle hay ||
  match hay with
  | EmptyString => false
  | String _ rest => str_contains needle rest
  end.

(** [len(l)] as a Python integer. *)
Definition len {A} (l : list A) : Z := Z.of_nat (length l).

(** [enumerate(l)]. *)
Definition enumerate {A} (l : list A) : list (nat * A) :=
  combine (seq 0 (length l)) l.

(** ** Insertion-ordered dictionaries with string keys

    [connections] in [build_connection_graph] is a Python [dict]; the
    composer iterates over its keys, so the order of first insertion is
    kept. *)
Module OrderedDict.

Definition t (V : Type) : Type := list (string * V).

Fixpoint get {V} (k : string) (d : t V) : option V :=
  match d with
  | [] => None
  | (k', v) :: rest => if String.eqb k k' then Some v else get k rest
  end.

(** [k in d] *)
Definition mem {V} (k : string) (d : t V) : bool :=
  match get k d with Some _ => true | None => false end.

(** [list(d.keys())] *)
Definition keys {V} (d : t V) : list string := map fst d.

(** [if k not in d: d[k] = v] *)
Fixpoint setdefault {V} (k : string) (v : V) (d : t V) : t V :=
  match d with
  | [] => [(k, v)]
  | (k', v') :: rest =>
      if String.eqb k k' then (k', v') :: rest
      else (k', v') :: setdefault k v rest
  end.

(** [d[k] = f(d[k])] for a key that is present; a missing key leaves the
    dictionary as it is (the callers below only update present keys). *)
Fixpoint update {V} (k : string) (f : V -> V) (d : t V) : t V :=
  match d with
  | [] => []
  | (k', v') :: rest =>
      if String.eqb k k' then (k', f v') :: rest
      else (k', v') :: update k f rest
  end.

End OrderedDict.

(** ** Outcomes of a Python call

    A call either returns a value, raises [KeyError] (a dictionary
    subscript on a missing key), or, in the model only, runs out of the
    fuel that bounds the [while] loop of the pathfinder. *)
Inductive outcome (A : Type) : Type :=
| Return (a : A)
| KeyError
| Timeout.

Arguments Return {A} a.
Arguments KeyError {A}.
Arguments Timeout {A}.

#[global] Instance outcome_ret : MRet outcome := fun A a => Return a.

#[global] Instance outcome_bind : MBind outcome := fun A B k c =>
  match c with
  | Return a => k a
  | KeyError => KeyError
  | Timeout => Timeout
  end.

(** A [for] loop whose body may raise: the accumulator is threaded from
    left to right and the first failure ends the loop. *)
Fixpoint for_loop {A S} (body : S -> A -> outcome S) (l : list A) (s : S)
    : outcome S :=
  match l with
  | [] => Return s
  | x :: rest => s' ← body s x; for_loop body rest s'
  end.

(** [[d[k] for k in l]] *)
Fixpoint for_each {A B} (f : A -> outcome B) (l : list A) : outcome (list B) :=
  match l with
  | [] => Return []
  | x :: rest => y ← f x; ys ← for_each f rest; Return (y :: ys)
  end.

(** ** security_utils.py *)
Module SecurityValidator.

Definition MAX_SYSTEM_NAME_LENGTH : Z := 100.

(** Characters matched by [\s] and removed by [str.strip()].  Both use
    Python's Unicode white space test, which below U+0100 holds of the
    code points 9 to 13, 28 to 32, U+0085 and U+00A0. *)
Definition is_space (c : ascii) : bool :=
  let n := nat_of_ascii c in
  ((9 <=? n) && (n <=? 13) || (28 <=? n) && (n <=? 32)
   || (n =? 133) || (n =? 160))%nat.

Definition is_alnum (c : ascii) : bool :=
  let n := nat_of_ascii c in
  ((48 <=? n) && (n <=? 57) || (65 <=? n) && (n <=? 90)
   || (97 <=? n) && (n <=? 122))%nat.

(** One character of the class [[A-Za-z0-9\s\-]]. *)
Definition name_char (c : ascii) : bool :=
  is_alnum c || is_space c || Ascii.eqb c "-"%char.

Fixpoint lstrip (l : list ascii) : list ascii :=
  match l with
  | [] => []
  | c :: rest => if is_space c then lstrip rest else l
  end.

Definition strip (s : string) : string :=
  string_of_list_ascii
    (rev (lstrip (rev (lstrip (list_ascii_of_string s))))).

Definition validate_system_name (system_name : string) : option string :=
  if String.eqb system_name ""
     || (MAX_SYSTEM_NAME_LENGTH <? Z.of_nat (String.length system_name))
  then None
  else if negb (forallb name_char (list_ascii_of_string system_name))
  then None
  else Some (strip system_name).

(** [validate_integer(str(n), min_val, max_val)] for an integer [n]:
    parsing the decimal rendering of [n] gives [n] back. *)
Definition validate_integer (int_val : Z) (min_val max_val : option Z)
    : option Z :=
  if match min_val with Some m => int_val <? m | None => false end then None
  else if match max_val with Some m => m <? int_val | None => false end
  then None
  else Some int_val.

(** *** Sanitizers *)

Definition MAX_FILENAME_LENGTH : Z := 255.

Definition slash : ascii := ascii_of_nat 47.
Definition backslash : ascii := ascii_of_nat 92.
Definition double_quote : ascii := ascii_of_nat 34.

(** [s.replace(c, '')] for a single character [c]. *)
Definition remove_char (c : ascii) (l : list ascii) : list ascii :=
  List.filter (fun x => negb (Ascii.eqb x c)) l.

(** [s.replace('..', '')]: the occurrences are found from the left and do
    not overlap. *)
Fixpoint remove_dotdot (l : list ascii) : list ascii :=
  match l with
  | [] => []
  | c :: rest =>
      match rest with
      | c' :: rest' =>
          if Ascii.eqb c "." && Ascii.eqb c' "." then remove_dotdot rest'
          else c :: remove_dotdot rest
      | [] => [c]
      end
  end.

(** One character of the class given to [re.sub]: less-than,
    greater-than, colon, double quote, bar, question mark, star and the
    control characters 0x00 to 0x1f. *)
Definition forbidden_char (c : ascii) : bool :=
  Ascii.eqb c "<" || Ascii.eqb c ">" || Ascii.eqb c ":"
  || Ascii.eqb c double_quote || Ascii.eqb c "|" || Ascii.eqb c "?"
  || Ascii.eqb c "*" || (nat_of_ascii c <=? 31)%nat.

Definition sanitize_filename (filename : string) : option string :=
  if String.eqb filename ""
     || (MAX_FILENAME_LENGTH <? Z.of_nat (String.length filename))
  then None
  else
    let l := list_ascii_of_string filename in
    let l := remove_dotdot (remove_char backslash (remove_char slash l)) in
    let l := List.filter (fun c => negb (forbidden_char c)) l in
    let filename := string_of_list_ascii l in
    if String.eqb filename "" || String.eqb filename "."
       || String.eqb filename ".."
    then None
    else Some filename.

(** *** validate_discord_role_id

    A role id is given by its code points, without bound: [\d] matches the
    decimal digits of every script, not only the ten ASCII ones.  This
    class (the Unicode category Nd) is the variable [decimal]. *)
Section Snowflake.
Variable decimal : Z -> bool.

Definition newline : Z := 10.

(** The digits at the front of a string and what follows them. *)
Fixpoint leading_digits (l : list Z) : list Z * list Z :=
  match l with
  | [] => ([], [])
  | c :: rest =>
      if decimal c then
        let '(ds, tl) := leading_digits rest in (c :: ds, tl)
      else ([], l)
  end.

(** [re.match(r'^\d{17,20}$', role_id)]: 17 to 20 digits, then the end of
    the string; [$] also matches just before a newline that ends the
    string.  With more than 20 digits no shorter run can be followed by
    [$]. *)
Definition is_snowflake (role_id : list Z) : bool :=
  let '(ds, tl) := leading_digits role_id in
  (17 <=? length ds)%nat && (length ds <=? 20)%nat
  && match tl with
     | [] => true
     | [c] => c =? newline
     | _ => false
     end.

Definition validate_discord_role_id (role_id : list Z) : list Z :=
  match role_id with
  | [] => []
  | _ => if negb (is_snowflake role_id) then [] else role_id
  end.

End Snowflake.

(** [text.replace(c, '\\' + c)] for a single character [c]. *)
Definition escape_char (c : ascii) (l : list ascii) : list ascii :=
  flat_map (fun x => if Ascii.eqb x c then [backslash; x] else [x]) l.

Definition sanitize_discord_markdown (text : string) : string :=
  if String.eqb text "" then text
  else
    let text := escape_char "*" (list_ascii_of_string text) in
    let text := escape_char "_" text in
    let text := escape_char "~" text in
    let text := escape_char "`" text in
    let text := escape_char "|" text in
    let text := escape_char ">" text in
    string_of_list_ascii text.

End SecurityValidator.

(** ** eve_sde_loader.py *)
Module Loader.

(** The fields of [EVESDELoader] read by [find_path]. *)
Record EVESDELoader : Type := mkLoader {
  system_name_to_id : gmap string Z;
  system_id_to_name : gmap Z string;
  system_jumps : gmap Z (list Z);
  jumpbridges : gmap Z (list Z)
}.

(** An element of the priority queue: [(cost, current_id, path)]. *)
Definition entry : Type := float * Z * list Z.

(** Python's [<] on lists of integers. *)
Fixpoint list_lt (a b : list Z) : bool :=
  match a, b with
  | [], [] => false
  | [], _ :: _ => true
  | _ :: _, [] => false
  | x :: a', y :: b' => if x =? y then list_lt a' b' else x <? y
  end.

(** Python's [<] on the queue's tuples: the first position where the two
    tuples differ decides. *)
Definition entry_lt (a b : entry) : bool :=
  let '(c1, i1, p1) := a in
  let '(c2, i2, p2) := b in
  if PrimFloat.eqb c1 c2 then
    if i1 =? i2 then list_lt p1 p2 else i1 <? i2
  else PrimFloat.ltb c1 c2.

(** The heap is kept as the list of its elements.  [heappop] returns a
    least element for [entry_lt]; two elements neither of which is below
    the other are equal tuples, so the choice among them is not
    observable. *)
Definition heappush (pq : list entry) (e : entry) : list entry := e :: pq.

Fixpoint extract_min (e : entry) (rest : list entry) : entry * list entry :=
  match rest with
  | [] => (e, [])
  | x :: xs =>
      if entry_lt x e then
        let '(m, r) := extract_min x xs in (m, e :: r)
      else
        let '(m, r) := extract_min e xs in (m, x :: r)
  end.

Definition heappop (pq : list entry) : option (entry * list entry) :=
  match pq with
  | [] => None
  | e :: rest => Some (extract_min e rest)
  end.

Definition GATE_COST : float := 1.0%float.
Definition JUMPBRIDGE_COST : float := 0x1.3333333333333p-2%float.

(** One of the two [for next_id in ...] loops. *)
Definition explore (step_cost : float) (cost : float) (path : list Z)
    (visited : gmap Z float) (neighbours : list Z) (pq : list entry)
    : list entry :=
  fold_left
    (fun pq next_id =>
       let new_cost := (cost + step_cost)%float in
       if match visited !! next_id with
          | None => true
          | Some seen => PrimFloat.ltb new_cost seen
          end
       then heappush pq (new_cost, next_id, (path ++ [next_id])%list)
       else pq)
    neighbours pq.

(** The [while pq:] loop; [fuel] bounds the number of iterations. *)
Fixpoint search (fuel : nat) (self : EVESDELoader) (end_id max_jumps : Z)
    (use_jumpbridges : bool) (pq : list entry) (visited : gmap Z float)
    : outcome (option (list Z)) :=
  match fuel with
  | O => Timeout
  | S fuel =>
      match heappop pq with
      | None => Return None
      | Some ((cost, current_id, path), pq) =>
          if match visited !! current_id with
             | Some seen => PrimFloat.leb seen cost
             | None => false
             end
          then search fuel self end_id max_jumps use_jumpbridges pq visited
          else
            let visited := <[current_id := cost]> visited in
            if current_id =? end_id then Return (Some path)
            else if max_jumps * 2 <? len path then
              search fuel self end_id max_jumps use_jumpbridges pq visited
            else
              let pq :=
                match system_jumps self !! current_id with
                | Some ns => explore GATE_COST cost path visited ns pq
                | None => pq
                end in
              let pq :=
                if use_jumpbridges then
                  match jumpbridges self !! current_id with
                  | Some ns => explore JUMPBRIDGE_COST cost path visited ns pq
                  | None => pq
                  end
                else pq in
              search fuel self end_id max_jumps use_jumpbridges pq visited
      end
  end.

(** [self.system_id_to_name[sid]] *)
Definition name_of (self : EVESDELoader) (sid : Z) : outcome string :=
  match system_id_to_name self !! sid with
  | Some n => Return n
  | None => KeyError
  end.

(** Python truthiness of an optional integer: [None] and [0] are false. *)
Definition truthy_id (i : option Z) : option Z :=
  match i with
  | Some 0 => None
  | other => other
  end.

Definition find_path (fuel : nat) (self : EVESDELoader)
    (start_system end_system : string) (max_jumps : Z)
    (use_jumpbridges : bool) : outcome (option (list string)) :=
  match SecurityValidator.validate_system_name start_system,
        SecurityValidator.validate_system_name end_system,
        SecurityValidator.validate_integer max_jumps (Some 1) (Some 100) with
  | Some start_system, Some end_system, Some max_jumps =>
      if String.eqb start_system "" || String.eqb end_system ""
      then Return None
      else
        match truthy_id (system_name_to_id self !! start_system),
              truthy_id (system_name_to_id self !! end_system) with
        | Some start_id, Some end_id =>
            if start_id =? end_id then Return (Some [start_system])
            else
              r ← search fuel self end_id max_jumps use_jumpbridges
                     [(0%float, start_id, [start_id])] ∅;
              match r with
              | Some path =>
                  names ← for_each (name_of self) path; Return (Some names)
              | None => Return None
              end
        | _, _ => Return None
        end
  | _, _, _ => Return None
  end.

(** *** Loading the processed systems file *)

(** A row of [systems.csv] as [csv.DictReader] yields it; the subscript
    [row[...]] raises [KeyError] when the file has no such column, and the
    [except] clause then skips the row.  An integer column holds the value
    [int()] reads from its text, [None] when the column is missing or
    [int()] raises, which makes [validate_integer] return [None].  The
    name column holds its text, [None] when the column is missing or the
    row ends before it.  Of the security column only its presence
    matters: [validate_float] turns any value that is no number within
    bounds into [None], which the source replaces by [0.0]. *)
Record SystemRow : Type := mkSystemRow {
  row_system_id : option Z;
  row_system_name : option string;
  row_region_id : option Z;
  row_has_security : bool
}.

(** The body of [for row in reader]; [continue] leaves the loader as it
    is.  The dict [self.systems], which the path search does not read, is
    not part of [EVESDELoader]. *)
Definition load_system_row (self : EVESDELoader) (row : SystemRow)
    : EVESDELoader :=
  match truthy_id
          (n ← row_system_id row;
           SecurityValidator.validate_integer n (Some 30000000)
             (Some 33000000)) with
  | None => self
  | Some system_id =>
      match name ← row_system_name row;
            SecurityValidator.validate_system_name name with
      | None => self
      | Some system_name =>
          if String.eqb system_name "" then self
          else
            match truthy_id
                    (n ← row_region_id row;
                     SecurityValidator.validate_integer n (Some 10000000)
                       (Some 11000000)) with
            | None => self
            | Some region_id =>
                if negb (row_has_security row) then self
                else
                  mkLoader
                    (<[system_name := system_id]> (system_name_to_id self))
                    (<[system_id := system_name]> (system_id_to_name self))
                    (system_jumps self) (jumpbridges self)
            end
      end
  end.

Definition _load_systems_processed (self : EVESDELoader)
    (reader : list SystemRow) : EVESDELoader :=
  fold_left load_system_row reader self.

(** *** Loading the jumpbridge network *)

(** [self.jumpbridges[k]] *)
Definition getitem (jbs : gmap Z (list Z)) (k : Z) : outcome (list Z) :=
  match jbs !! k with
  | Some l => Return l
  | None => KeyError
  end.

(** [x in l] for a list of ids. *)
Definition mem_id (x : Z) (l : list Z) : bool := existsb (Z.eqb x) l.

(** [if k not in self.jumpbridges: self.jumpbridges[k] = []] *)
Definition ensure_key (k : Z) (jbs : gmap Z (list Z)) : gmap Z (list Z) :=
  match jbs !! k with
  | Some _ => jbs
  | None => <[k := []]> jbs
  end.

(** [if v not in self.jumpbridges[k]: self.jumpbridges[k].append(v)] *)
Definition append_new (k v : Z) (jbs : gmap Z (list Z))
    : outcome (gmap Z (list Z)) :=
  l ← getitem jbs k;
  Return (if mem_id v l then jbs else <[k := (l ++ [v])%list]> jbs).

(** One pass of [for system1, system2, alliance in JUMPBRIDGES]; the state
    is the dict [self.jumpbridges] with the counters [jb_count] and
    [skipped]. *)
Definition add_jumpbridge (name_to_id : gmap string Z)
    (state : gmap Z (list Z) * Z * Z) (jb : string * string * string)
    : outcome (gmap Z (list Z) * Z * Z) :=
  let '(jbs, jb_count, skipped) := state in
  let '(system1, system2, alliance) := jb in
  match truthy_id (name_to_id !! system1),
        truthy_id (name_to_id !! system2) with
  | Some sys1_id, Some sys2_id =>
      let jbs := ensure_key sys1_id jbs in
      let jbs := ensure_key sys2_id jbs in
      jbs ← append_new sys1_id sys2_id jbs;
      jbs ← append_new sys2_id sys1_id jbs;
      Return (jbs, jb_count + 1, skipped)
  | _, _ => Return (jbs, jb_count, skipped + 1)
  end.

(** [load_jumpbridges]: the table [JUMPBRIDGES] imported from
    jumpbridges.py is an argument, so that what is proved holds for every
    table; [None] stands for a failed import.  The result is the loader
    after the call and the returned flag. *)
Definition load_jumpbridges (self : EVESDELoader)
    (JUMPBRIDGES : option (list (string * string * string)))
    : outcome (EVESDELoader * bool) :=
  match JUMPBRIDGES with
  | None => Return (self, false)
  | Some JUMPBRIDGES =>
      '(jbs, jb_count, skipped) ←
        for_loop (add_jumpbridge (system_name_to_id self)) JUMPBRIDGES
          (jumpbridges self, 0, 0);
      Return (mkLoader (system_name_to_id self) (system_id_to_name self)
                (system_jumps self) jbs,
              0 <? jb_count)
  end.

End Loader.

(** ** drifter_tracker.py *)
Module Tracker.

(** *** Time *)

Definition datetime : Type := Z.
Definition timedelta : Type := Z.

Definition MICROSECONDS_PER_HOUR : Z := 3600000000.

(** [timedelta(hours=h)] for a rational number of hours.  The values used
    by the program (24, 4 and 0.25) are whole numbers of microseconds. *)
Definition timedelta_hours (h : QArith_base.Q) : timedelta :=
  (QArith_base.Qnum h * MICROSECONDS_PER_HOUR) / Z.pos (QArith_base.Qden h).

Definition hours (n : Z) : timedelta := n * MICROSECONDS_PER_HOUR.
Definition minutes (n : Z) : timedelta := n * 60000000.
Definition seconds (n : Z) : timedelta := n * 1000000.

(** *** Scan records

    A scan is a dictionary with string keys.  [scannedAt] is stored as an
    ISO string; the model keeps the result of [datetime.fromisoformat] on
    it followed by the subtraction from [now]: [None] stands for a string
    on which the [try] block of the expiry check raises. *)
Record Scan : Type := mkScan {
  scan_id : Z;
  region : string;
  system : string;
  holeType : string;
  lifeStatus : string;
  massStatus : string;
  scannedAt : option datetime
}.

(** *** calculate_spawn_time *)
Definition calculate_spawn_time (now : datetime) (life_status : string)
    (scan_time : option datetime) : datetime :=
  let scan_time := match scan_time with None => now | Some t => t end in
  if String.eqb life_status "Fresh" then scan_time
  else if String.eqb life_status "Destabilizing" then
    scan_time - timedelta_hours (QArith_base.Qmake 4 1)
  else if String.eqb life_status "Critical" then
    scan_time - timedelta_hours (QArith_base.Qmake 24 1)
  else scan_time.

(** *** build_connection_graph: the expiry filter *)

(** [LIFETIME_HOURS.get(status, 24)] *)
Definition LIFETIME_HOURS (status : string) : option QArith_base.Q :=
  if String.eqb status "Fresh" then Some (QArith_base.Qmake 24 1)
  else if String.eqb status "Destabilizing" then Some (QArith_base.Qmake 4 1)
  else if String.eqb status "Critical" then Some (QArith_base.Qmake 1 4)
  else None.

Definition lifetime_of (status : string) : QArith_base.Q :=
  match LIFETIME_HOURS status with
  | Some h => h
  | None => QArith_base.Qmake 24 1
  end.

(** The body of the [try] block: [True] when the scan is skipped as
    expired.  A scan whose timestamp cannot be read falls through the bare
    [except] and is kept. *)
Definition expired (now : datetime) (scan : Scan) : bool :=
  match scannedAt scan with
  | None => false
  | Some scanned_time =>
      let lifetime := lifetime_of (lifeStatus scan) in
      let age := now - scanned_time in
      timedelta_hours lifetime <? age
  end.

(** The first loop: [active_wormholes]. *)
Definition keep_scan (now : datetime) (scan : Scan) : bool :=
  if String.eqb (holeType scan) "None" then false
  else negb (expired now scan).

Definition active_wormholes (now : datetime) (scans : list Scan) : list Scan :=
  List.filter (keep_scan now) scans.

(** *** build_connection_graph: the pairing loops *)

Definition Connections : Type := OrderedDict.t (list (string * Scan)).

(** The inner loop for the scan at index [i]. *)
Definition connect_one (active : list Scan) (i : nat) (scan : Scan)
    (connections : Connections) : Connections :=
  fold_left
    (fun conn '(j, other_scan) =>
       if Nat.eqb i j then conn
       else if String.eqb (holeType scan) (holeType other_scan) then
         OrderedDict.update (system scan)
           (fun l => (l ++ [(system other_scan, other_scan)])%list) conn
       else conn)
    (enumerate active) connections.

Definition connect_all (active : list Scan) : Connections :=
  fold_left
    (fun conn '(i, scan) =>
       connect_one active i scan (OrderedDict.setdefault (system scan) [] conn))
    (enumerate active) [].

Definition build_connection_graph (now : datetime) (scans : list Scan)
    : Connections :=
  connect_all (active_wormholes now scans).

(** *** Route scoring *)

Definition calculate_route_score_single (entry_gates exit_gates : Z)
    (wh_data : Scan) : Z :=
  let score := 0 in
  let total_gates := entry_gates + exit_gates in
  let score := score + total_gates in
  let score :=
    if String.eqb (lifeStatus wh_data) "Critical" then score + 60 else score in
  let score :=
    if str_contains "< 10%" (massStatus wh_data) then score + 50 else score in
  let score :=
    if String.eqb (lifeStatus wh_data) "Destabilizing" then score + 25
    else score in
  let score :=
    if str_contains "50% > 10%" (massStatus wh_data) then score + 20
    else score in
  let score := if 15 <? total_gates then score + 10 else score in
  let score :=
    if (total_gates <? 10)
       && String.eqb (lifeStatus wh_data) "Fresh"
       && str_contains "100% > 50%" (massStatus wh_data)
    then score - 5 else score in
  score.

Definition BURN_TIME_PENALTY : Z := 15.
Definition NPC_DANGER_PENALTY : Z := 10.
Definition COMPLEXITY_PENALTY : Z := 5.

(** The body of [for wh_data in [wh_data_1, wh_data_2]]. *)
Definition hole_penalty (score : Z) (wh_data : Scan) : Z :=
  let score :=
    if String.eqb (lifeStatus wh_data) "Critical" then score + 50
    else if String.eqb (lifeStatus wh_data) "Destabilizing" then score + 20
    else score in
  let score :=
    if str_contains "< 10%" (massStatus wh_data) then score + 45
    else if str_contains "50% > 10%" (massStatus wh_data) then score + 18
    else score in
  score.

Definition calculate_route_score_multihop (entry_gates exit_gates : Z)
    (wh_data_1 wh_data_2 : Scan) : Z :=
  let score := 0 in
  let total_gates := entry_gates + exit_gates in
  let score := score + total_gates in
  let score :=
    score + (BURN_TIME_PENALTY + NPC_DANGER_PENALTY + COMPLEXITY_PENALTY) in
  let score := fold_left hole_penalty [wh_data_1; wh_data_2] score in
  let score :=
    if forallb
         (fun wh => String.eqb (lifeStatus wh) "Fresh"
                    && str_contains "100% > 50%" (massStatus wh))
         [wh_data_1; wh_data_2]
    then score - 5 else score in
  score.

(** *** Route candidates *)

Record Hop : Type := mkHop {
  entry_system : string;
  exit_system : string;
  wormhole : Scan
}.

Record Route : Type := mkRoute {
  origin : string;
  destination : string;
  entry_path : list string;
  hops : list Hop;
  exit_path : list string;
  entry_gates : Z;
  exit_gates : Z;
  total_gates : Z;
  wormhole_count : Z;
  score : Z
}.

(** [routes.sort(key=lambda r: r['score'])]: a stable sort, here by
    insertion from the left. *)
Fixpoint insert_by_score (r : Route) (sorted : list Route) : list Route :=
  match sorted with
  | [] => [r]
  | x :: rest =>
      if score r <? score x then r :: x :: rest
      else x :: insert_by_score r rest
  end.

Definition sort_by_score (routes : list Route) : list Route :=
  fold_left (fun sorted r => insert_by_score r sorted) routes [].

(** *** find_hybrid_routes (the later definition, which is the one bound
    to the class) *)

(** [self.sde_loader.find_path(a, b, max_jumps=n)] *)
Definition pathfinder : Type :=
  string -> string -> Z -> outcome (option (list string)).

(** Python truthiness of a path result: [None] and the empty list are
    false. *)
Definition truthy_path (p : option (list string)) : option (list string) :=
  match p with
  | Some [] => None
  | other => other
  end.

(** [connections[k]] *)
Definition subscript (connections : Connections) (k : string)
    : outcome (list (string * Scan)) :=
  match OrderedDict.get k connections with
  | Some l => Return l
  | None => KeyError
  end.

(** The single-hop loop. *)
Definition single_hop_loop (find_path : pathfinder)
    (origin destination : string) (connections : Connections)
    (max_gates_per_leg : Z) (wormhole_systems : list string)
    (routes : list Route) : outcome (list Route) :=
  for_loop
    (fun routes entry_system =>
       entry_path ← find_path origin entry_system max_gates_per_leg;
       match truthy_path entry_path with
       | None => Return routes
       | Some entry_path =>
           let entry_gates := len entry_path - 1 in
           exits ← subscript connections entry_system;
           for_loop
             (fun routes '(exit_system, wh_data) =>
                exit_path ← find_path exit_system destination max_gates_per_leg;
                match truthy_path exit_path with
                | None => Return routes
                | Some exit_path =>
                    let exit_gates := len exit_path - 1 in
                    let total_gates := entry_gates + exit_gates in
                    let score :=
                      calculate_route_score_single entry_gates exit_gates
                        wh_data in
                    Return (routes ++ [
                      {| origin := origin;
                         destination := destination;
                         entry_path := entry_path;
                         hops := [mkHop entry_system exit_system wh_data];
                         exit_path := exit_path;
                         entry_gates := entry_gates;
                         exit_gates := exit_gates;
                         total_gates := total_gates;
                         wormhole_count := 1;
                         score := score |}])%list
                end)
             exits routes
       end)
    wormhole_systems routes.

(** The innermost loop of the two-hop enumeration: the second jump out of
    [mid_system]. *)
Definition second_hop_loop (find_path : pathfinder)
    (origin destination : string) (max_gates_per_leg : Z)
    (entry_system : string) (entry_path : list string) (entry_gates : Z)
    (mid_system : string) (wh_data_1 : Scan)
    (exits : list (string * Scan)) (routes : list Route)
    : outcome (list Route) :=
  for_loop
    (fun routes '(exit_system, wh_data_2) =>
       if String.eqb exit_system entry_system then Return routes
       else if String.eqb (holeType wh_data_1) (holeType wh_data_2)
       then Return routes
       else
         exit_path ← find_path exit_system destination max_gates_per_leg;
         match truthy_path exit_path with
         | None => Return routes
         | Some exit_path =>
             let exit_gates := len exit_path - 1 in
             let total_gates := entry_gates + exit_gates in
             direct_route_1 ←
               find_path mid_system destination max_gates_per_leg;
             let direct_route_1_gates :=
               entry_gates +
               match truthy_path direct_route_1 with
               | Some d => len d - 1
               | None => 999
               end in
             if direct_route_1_gates + 10 <? total_gates then Return routes
             else
               let score :=
                 calculate_route_score_multihop entry_gates exit_gates
                   wh_data_1 wh_data_2 in
               Return (routes ++ [
                 {| origin := origin;
                    destination := destination;
                    entry_path := entry_path;
                    hops := [mkHop entry_system mid_system wh_data_1;
                             mkHop mid_system exit_system wh_data_2];
                    exit_path := exit_path;
                    entry_gates := entry_gates;
                    exit_gates := exit_gates;
                    total_gates := total_gates;
                    wormhole_count := 2;
                    score := score |}])%list
         end)
    exits routes.

(** The two-hop loop. *)
Definition multi_hop_loop (find_path : pathfinder)
    (origin destination : string) (connections : Connections)
    (max_gates_per_leg : Z) (wormhole_systems : list string)
    (routes : list Route) : outcome (list Route) :=
  for_loop
    (fun routes entry_system =>
       entry_path ← find_path origin entry_system max_gates_per_leg;
       match truthy_path entry_path with
       | None => Return routes
       | Some entry_path =>
           let entry_gates := len entry_path - 1 in
           mids ← subscript connections entry_system;
           for_loop
             (fun routes '(mid_system, wh_data_1) =>
                if negb (OrderedDict.mem mid_system connections)
                then Return routes
                else
                  mid_path ← find_path mid_system mid_system 0;
                  exits ← subscript connections mid_system;
                  second_hop_loop find_path origin destination
                    max_gates_per_leg entry_system entry_path entry_gates
                    mid_system wh_data_1 exits routes)
             mids routes
       end)
    wormhole_systems routes.

Definition find_hybrid_routes (find_path : pathfinder)
    (origin destination : string) (connections : Connections)
    (max_gates_per_leg : Z) : outcome (list Route) :=
  let routes := [] in
  let wormhole_systems := OrderedDict.keys connections in
  let allow_multihop := true in
  routes ← single_hop_loop find_path origin destination connections
             max_gates_per_leg wormhole_systems routes;
  routes ←
    (if allow_multihop then
       multi_hop_loop find_path origin destination connections
         max_gates_per_leg wormhole_systems routes
     else Return routes);
  Return (sort_by_score routes).

(** *** count_jumpbridges_in_path *)

(** The test made for one hop of the path: both names resolve to a truthy
    id and the second id is in the jumpbridge list of the first. *)
Definition hop_uses_jumpbridge (sde_loader : Loader.EVESDELoader)
    (current next_sys : string) : bool :=
  match Loader.truthy_id (Loader.system_name_to_id sde_loader !! current),
        Loader.truthy_id (Loader.system_name_to_id sde_loader !! next_sys) with
  | Some current_id, Some next_id =>
      match Loader.jumpbridges sde_loader !! current_id with
      | Some l => existsb (Z.eqb next_id) l
      | None => false
      end
  | _, _ => false
  end.

(** The loop [for i in range(len(path) - 1)]. *)
Fixpoint count_jumpbridge_hops (sde_loader : Loader.EVESDELoader)
    (path : list string) : Z :=
  match path with
  | current :: (next_sys :: _) as rest =>
      (if hop_uses_jumpbridge sde_loader current next_sys then 1 else 0)
      + count_jumpbridge_hops sde_loader rest
  | _ => 0
  end.

Definition count_jumpbridges_in_path (sde_loader : option Loader.EVESDELoader)
    (path : list string) : Z :=
  match sde_loader with
  | None => 0
  | Some loader =>
      if len path <? 2 then 0 else count_jumpbridge_hops loader path
  end.

(** *** display_hybrid_route: the quality band of a score *)
Definition quality (score : Z) : string :=
  if score <? 20 then "[OK]"
  else if score <? 40 then "[CAUTION]"
  else "[WARNING]".

(** *** cleanup_expired_wormholes

    The same lifetime rule as in the graph builder, applied to the stored
    list; "No Hole" entries are kept.  A scan has the keys [system],
    [region], [holeType] and [lifeStatus], as every record the program
    writes has.  The [except] clause of this function
    names [ValueError] and [KeyError] only, where the graph builder catches
    every exception.  So when reading the stamp raises, that is when
    [scannedAt = None], it matters which exception is raised:
    [datetime.fromisoformat] raises [ValueError] on a string that is no
    ISO date and the subscript raises [KeyError] on a scan without stamp;
    a stamp that is no string, or one that carries a UTC offset (at the
    subtraction from the naive [now]), raises [TypeError]. *)
Inductive stamp_error : Type :=
| BadFormat
| BadType.

(** The loop with its accumulator [new_scans]; [None] when the [try]
    block raises [TypeError], which leaves the function. *)
Fixpoint cleanup_loop (error_of : Scan -> stamp_error) (now : datetime)
    (scans new_scans : list Scan) : option (list Scan) :=
  match scans with
  | [] => Some new_scans
  | scan :: rest =>
      if String.eqb (holeType scan) "None"
      then cleanup_loop error_of now rest (new_scans ++ [scan])
      else
        match scannedAt scan with
        | Some scanned_time =>
            let lifetime_hours := lifetime_of (lifeStatus scan) in
            let age := now - scanned_time in
            let max_age := timedelta_hours lifetime_hours in
            if age <=? max_age
            then cleanup_loop error_of now rest (new_scans ++ [scan])
            else cleanup_loop error_of now rest new_scans
        | None =>
            match error_of scan with
            | BadFormat => cleanup_loop error_of now rest (new_scans ++ [scan])
            | BadType => None
            end
        end
  end.

(** The value of [self.scans] after the call, [None] when the call
    raises; the list is assigned only after the loop. *)
Definition cleanup_expired_wormholes (error_of : Scan -> stamp_error)
    (now : datetime) (scans : list Scan) : option (list Scan) :=
  let original_count := len scans in
  new_scans ← cleanup_loop error_of now scans [];
  Some (if len new_scans <? original_count then new_scans else scans).

(** *** manual_cleanup_expired

    The count shown before confirmation; its [try] block has a bare
    [except], so a scan whose stamp cannot be read is not counted. *)
Definition counts_as_expired (now : datetime) (scan : Scan) : bool :=
  if String.eqb (holeType scan) "None" then false
  else
    match scannedAt scan with
    | None => false
    | Some scanned_time =>
        let lifetime_hours := lifetime_of (lifeStatus scan) in
        let age := now - scanned_time in
        let max_age := timedelta_hours lifetime_hours in
        max_age <? age
    end.

Definition expired_count (now : datetime) (scans : list Scan) : Z :=
  fold_left
    (fun expired_count scan =>
       if counts_as_expired now scan then expired_count + 1
       else expired_count)
    scans 0.

(** [manual_cleanup_expired]: the clock is read twice, at [now] for the
    count and at [later] by the clean-up, after the question has been
    answered with [confirmed].  The result is the list afterwards and the
    number named in the closing message, when one is shown; [None] when
    the clean-up raises. *)
Definition manual_cleanup_expired (error_of : Scan -> stamp_error)
    (now later : datetime) (confirmed : bool) (scans : list Scan)
    : option (list Scan * option Z) :=
  let expired_count := expired_count now scans in
  if expired_count =? 0 then Some (scans, None)
  else if confirmed then
    scans' ← cleanup_expired_wormholes error_of later scans;
    Some (scans', Some expired_count)
  else Some (scans, None).

(** *** update_routing_dropdown: the regions that get a marker *)
Definition regions_with_holes (now : datetime) (scans : list Scan)
    : gset string :=
  fold_left
    (fun regions scan =>
       if String.eqb (holeType scan) "None" then regions
       else
         match scannedAt scan with
         | None => {[region scan]} ∪ regions
         | Some scanned_time =>
             let lifetime := lifetime_of (lifeStatus scan) in
             let age := now - scanned_time in
             if age <=? timedelta_hours lifetime
             then {[region scan]} ∪ regions
             else regions
         end)
    scans ∅.

(** *** Region-to-region routing: find_routes and count_risky_holes

    [JOVE_SYSTEMS], the table of the surveyed systems of each region,
    comes from a module that is not part of the sources at hand; it is a
    parameter here, a dictionary from region names to lists of system
    names. *)

(** [wh_data['lifeStatus'] in ['Critical', 'Destabilizing']] *)
Definition is_risky (wh_data : Scan) : bool :=
  String.eqb (lifeStatus wh_data) "Critical"
  || String.eqb (lifeStatus wh_data) "Destabilizing".

Fixpoint count_risky_holes (route : list string) (connections : Connections)
    : Z :=
  match route with
  | system :: (next_system :: _) as rest =>
      match OrderedDict.get system connections with
      | Some exits =>
          fold_left
            (fun count '(neighbor, wh_data) =>
               if String.eqb neighbor next_system then
                 if is_risky wh_data then count + 1 else count
               else count)
            exits 0
      | None => 0
      end
      + count_risky_holes rest connections
  | _ => 0
  end.

(** The loop that looks a neighbour up in the table: the first region
    whose systems hold it. *)
Fixpoint neighbor_region (JOVE_SYSTEMS : OrderedDict.t (list string))
    (neighbor : string) : option string :=
  match JOVE_SYSTEMS with
  | [] => None
  | (reg, systems) :: rest =>
      if existsb (String.eqb neighbor) systems then Some reg
      else neighbor_region rest neighbor
  end.

(** Python's stable [list.sort(key=...)], by insertion from the left. *)
Fixpoint insert_by_key {A K} (lt : K -> K -> bool) (key : A -> K) (r : A)
    (sorted : list A) : list A :=
  match sorted with
  | [] => [r]
  | x :: rest =>
      if lt (key r) (key x) then r :: x :: rest
      else x :: insert_by_key lt key r rest
  end.

Definition sort_by_key {A K} (lt : K -> K -> bool) (key : A -> K)
    (l : list A) : list A :=
  fold_left (fun sorted r => insert_by_key lt key r sorted) l [].

(** Python's [<] on pairs of integers. *)
Definition pair_lt (a b : Z * Z) : bool :=
  if fst a =? fst b then snd a <? snd b else fst a <? fst b.

Definition find_routes (safest_mode : bool)
    (JOVE_SYSTEMS : OrderedDict.t (list string))
    (start_region end_region : string) (connections : Connections)
    : list (list string) :=
  let start_systems := default [] (OrderedDict.get start_region JOVE_SYSTEMS) in
  let end_systems := default [] (OrderedDict.get end_region JOVE_SYSTEMS) in
  match start_systems, end_systems with
  | [], _ => []
  | _, [] => []
  | _, _ =>
      let routes :=
        fold_left
          (fun routes start_sys =>
             match OrderedDict.get start_sys connections with
             | None => routes
             | Some exits =>
                 fold_left
                   (fun routes '(neighbor, wh_data) =>
                      match neighbor_region JOVE_SYSTEMS neighbor with
                      | Some reg =>
                          if String.eqb reg end_region
                          then (routes ++ [[start_sys; neighbor]])%list
                          else routes
                      | None => routes
                      end)
                   exits routes
             end)
          start_systems [] in
      if safest_mode then
        sort_by_key pair_lt
          (fun r => (len r, count_risky_holes r connections)) routes
      else sort_by_key Z.ltb (fun r : list string => len r) routes
  end.

(** *** Entering scans *)

(** [str.lower()] on one code point below U+0100: the letters A to Z and
    the capital letters U+00C0 to U+00DE, the multiplication sign U+00D7
    apart, move up by 32. *)
Definition lower_char (c : ascii) : ascii :=
  let n := nat_of_ascii c in
  if ((65 <=? n) && (n <=? 90)
      || (192 <=? n) && (n <=? 222) && negb (n =? 215))%nat
  then ascii_of_nat (n + 32) else c.

Fixpoint lower (s : string) : string :=
  match s with
  | EmptyString => EmptyString
  | String c rest => String (lower_char c) (lower rest)
  end.

Definition parse_wormhole_info (text : string) : string * string * string :=
  let text_lower := lower text in
  let has (needle : string) := str_contains needle text_lower in
  let hole_type :=
    if has "vidette" then "Vidette"
    else if has "redoubt" then "Redoubt"
    else if has "sentinel" then "Sentinel"
    else if has "barbican" then "Barbican"
    else if has "conflux" then "Conflux"
    else if has "k162" || has "unidentified" then "Unidentified"
    else "Unknown" in
  let life_status :=
    if has "not yet" && has "stability" && has "disrupted" then "Fresh"
    else if has "beginning of" && has "natural lifetime" then "Fresh"
    else if has "stability" && has "reduced" && has "not yet"
            && has "critical"
    then "Destabilizing"
    else if has "verge of dissipating"
            || (has "reaching" && has "end" && has "natural lifetime")
    then "Critical"
    else "Fresh" in
  let mass_status :=
    if has "not yet" && has "mass" && has "significantly disrupted"
    then "100% > 50%"
    else if has "mass" && has "reduced" && has "not yet" && has "critical"
    then "50% > 10%"
    else if has "verge of collapse" || (has "mass" && has "critical")
    then "< 10%"
    else "100% > 50%" in
  (hole_type, life_status, mass_status).

(** Python truthiness of an attribute that holds [None] or a string. *)
Definition truthy_str (s : option string) : option string :=
  match s with
  | Some "" => None
  | other => other
  end.

(** [add_scan_from_paste]: the new value of [self.scans].  The widgets
    are read into arguments: [wh_info] is the text of the paste box as the
    function holds it, that is after [.strip()]; [now] is the clock read
    by [calculate_spawn_time], [new_id] the id computed from the clock.
    The fields [roleId] and [rawInfo], read by no modelled function, are
    not part of [Scan].  [isoformat] followed by [fromisoformat] gives the
    timestamp back. *)
Definition add_scan_from_paste (now : datetime) (new_id : Z)
    (current_region current_system current_hole_type : option string)
    (wh_info : string) (scans : list Scan) : list Scan :=
  match truthy_str current_region, truthy_str current_system with
  | Some the_region, Some the_system =>
      match truthy_str current_hole_type with
      | None => scans
      | Some selected_type =>
          if String.eqb wh_info "" then scans
          else
            let '(_, life_status, mass_status) :=
              parse_wormhole_info wh_info in
            let spawn_time := calculate_spawn_time now life_status None in
            mkScan new_id the_region the_system selected_type life_status
              mass_status (Some spawn_time) :: scans
      end
  | _, _ => scans
  end.

(** [add_no_hole_scan]: the new value of [self.scans]; [confirmed] is the
    answer given to the question asked when the system has wormholes
    logged. *)
Definition add_no_hole_scan (now : datetime) (new_id : Z)
    (current_region current_system : option string) (confirmed : bool)
    (scans : list Scan) : list Scan :=
  match truthy_str current_region, truthy_str current_system with
  | Some the_region, Some the_system =>
      let existing_holes :=
        List.filter
          (fun s => String.eqb (system s) the_system
                    && negb (String.eqb (holeType s) "None"))
          scans in
      if match existing_holes with [] => false | _ => negb confirmed end
      then scans
      else
        let scans :=
          List.filter (fun s => negb (String.eqb (system s) the_system))
            scans in
        mkScan new_id the_region the_system "None" "N/A" "N/A" (Some now)
        :: scans
  | _, _ => scans
  end.

(** *** mark_connection_status *)



End Tracker.

(** ** Notions used to state the properties *)

(** *** Walks in the static graph *)
Module Graph.

(** The systems reached from [i] by one edge traversal, gates first. *)
Definition neighbours (self : Loader.EVESDELoader) (use_jumpbridges : bool)
    (i : Z) : list Z :=
  (default [] (Loader.system_jumps self !! i) ++
   (if use_jumpbridges then default [] (Loader.jumpbridges self !! i)
    else []))%list.

(** [path] follows an edge of the graph at every step. *)
Fixpoint is_walk (self : Loader.EVESDELoader) (use_jumpbridges : bool)
    (path : list Z) : Prop :=
  match path with
  | a :: (b :: _) as rest =>
      b ∈ neighbours self use_jumpbridges a
      ∧ is_walk self use_jumpbridges rest
  | _ => True
  end.

(** A walk that uses gate edges only. *)
Fixpoint is_gate_walk (self : Loader.EVESDELoader) (path : list Z) : Prop :=
  match path with
  | a :: (b :: _) as rest =>
      b ∈ default [] (Loader.system_jumps self !! a)
      ∧ is_gate_walk self rest
  | _ => True
  end.

(** Number of edge traversals of a path given by its systems. *)
Definition edges {A} (path : list A) : Z := len path - 1.

(** A walk from [a] to [b]. *)
Definition walk_from_to (self : Loader.EVESDELoader) (use_jumpbridges : bool)
    (a b : Z) (path : list Z) : Prop :=
  head path = Some a /\ last path = Some b
  /\ is_walk self use_jumpbridges path.

(** *** A measure for the search loop

    No system has more than [degree_bound] outgoing edges.  A queued path
    of [n] systems weighs [(degree_bound + 1) ^ (limit - n)], where [limit]
    is the longest path the loop can queue; one iteration removes a path
    and queues at most [degree_bound] paths that are one system longer, so
    the total weight of the queue goes down. *)
Definition max_degree (adj : gmap Z (list Z)) : nat :=
  list_max (map (fun kv => length (snd kv)) (map_to_list adj)).

Definition degree_bound (self : Loader.EVESDELoader) : nat :=
  (max_degree (Loader.system_jumps self)
   + max_degree (Loader.jumpbridges self))%nat.

Definition limit (max_jumps : Z) : nat := S (Z.to_nat (max_jumps * 2)).

Definition weight (self : Loader.EVESDELoader) (max_jumps : Z)
    (n : nat) : nat :=
  (S (degree_bound self) ^ (limit max_jumps - n))%nat.

Definition queue_weight (self : Loader.EVESDELoader) (max_jumps : Z)
    (pq : list Loader.entry) : nat :=
  list_sum (map (fun e => weight self max_jumps (length (snd e))) pq).

End Graph.

(** *** The connection graph *)
Module ConnectionGraph.

(** Number of directed edges: the entries of all adjacency lists. *)
Definition edge_count (g : Tracker.Connections) : nat :=
  list_sum (map (fun kv => length (snd kv)) g).

(** The ordered pairs of distinct positions of [active] whose scans have
    the same hole type. *)
Definition same_type_pairs (active : list Tracker.Scan) : list (nat * nat) :=
  flat_map
    (fun '(i, a) =>
       flat_map
         (fun '(j, b) =>
            if Nat.eqb i j then []
            else if String.eqb (Tracker.holeType a) (Tracker.holeType b)
            then [(i, j)] else [])
         (enumerate active))
    (enumerate active).

(** The entries appended for the scan at position [i] by the inner loop
    running over the enumerated scans [L]. *)
Definition partners (i : nat) (scan : Tracker.Scan)
    (L : list (nat * Tracker.Scan)) : list (string * Tracker.Scan) :=
  flat_map
    (fun '(j, other) =>
       if Nat.eqb i j then []
       else if String.eqb (Tracker.holeType scan) (Tracker.holeType other)
       then [(Tracker.system other, other)] else [])
    L.

(** The adjacency list of system [k], read off the list of active scans. *)
Definition adjacency (active : list Tracker.Scan) (k : string)
    (L : list (nat * Tracker.Scan)) : list (string * Tracker.Scan) :=
  flat_map
    (fun '(i, a) =>
       if String.eqb k (Tracker.system a)
       then partners i a (enumerate active) else [])
    L.

(** The outer loop, started from any dictionary and run over any part of
    the enumerated scans. *)
Definition connect_from (active : list Tracker.Scan)
    (L : list (nat * Tracker.Scan)) (conn : Tracker.Connections)
    : Tracker.Connections :=
  fold_left
    (fun conn '(i, scan) =>
       Tracker.connect_one active i scan
         (OrderedDict.setdefault (Tracker.system scan) [] conn))
    L conn.

End ConnectionGraph.

(** *** Scans that differ in one field *)


Definition with_lifeStatus (life : string) (s : Tracker.Scan) : Tracker.Scan :=
  Tracker.mkScan (Tracker.scan_id s) (Tracker.region s) (Tracker.system s)
    (Tracker.holeType s) life (Tracker.massStatus s) (Tracker.scannedAt s).

Definition with_scannedAt (t : option Tracker.datetime) (s : Tracker.Scan)
    : Tracker.Scan :=
  Tracker.mkScan (Tracker.scan_id s) (Tracker.region s) (Tracker.system s)
    (Tracker.holeType s) (Tracker.lifeStatus s) (Tracker.massStatus s) t.

(** *** Route candidates *)
Module Candidate.

(** A two-hop candidate chains two wormholes of different types and does
    not come back to the system where it entered the network. *)
Definition two_hop_ok (r : Tracker.Route) : Prop :=
  exists h1 h2,
    Tracker.hops r = [h1; h2]
    /\ Tracker.exit_system h1 = Tracker.entry_system h2
    /\ Tracker.holeType (Tracker.wormhole h1)
       <> Tracker.holeType (Tracker.wormhole h2)
    /\ Tracker.exit_system h2 <> Tracker.entry_system h1.

(** What the composer emits: one-hop candidates, and two-hop candidates
    that satisfy [two_hop_ok]. *)
Definition ok (r : Tracker.Route) : Prop :=
  (Tracker.wormhole_count r = 1 /\ exists h, Tracker.hops r = [h])
  \/ (Tracker.wormhole_count r = 2 /\ two_hop_ok r).

(** A candidate is backed by the connection graph and by the pathfinder:
    each hop is an entry of the adjacency list of the system it leaves, the
    first leg is what the pathfinder returns from the origin to the first
    hop, the last leg what it returns from the last hop to the
    destination, and the gate counts are the lengths of the legs. *)
Definition hop_in_graph (connections : Tracker.Connections)
    (h : Tracker.Hop) : Prop :=
  exists l,
    OrderedDict.get (Tracker.entry_system h) connections = Some l
    /\ In (Tracker.exit_system h, Tracker.wormhole h) l.

Definition backed (find_path : Tracker.pathfinder)
    (origin destination : string) (connections : Tracker.Connections)
    (max_gates_per_leg : Z) (r : Tracker.Route) : Prop :=
  Tracker.origin r = origin
  /\ Tracker.destination r = destination
  /\ Forall (hop_in_graph connections) (Tracker.hops r)
  /\ (exists h, head (Tracker.hops r) = Some h
        /\ find_path origin (Tracker.entry_system h) max_gates_per_leg
           = Return (Some (Tracker.entry_path r)))
  /\ (exists h, last (Tracker.hops r) = Some h
        /\ find_path (Tracker.exit_system h) destination max_gates_per_leg
           = Return (Some (Tracker.exit_path r)))
  /\ Tracker.entry_path r <> [] /\ Tracker.exit_path r <> []
  /\ Tracker.entry_gates r = len (Tracker.entry_path r) - 1
  /\ Tracker.exit_gates r = len (Tracker.exit_path r) - 1
  /\ Tracker.total_gates r = Tracker.entry_gates r + Tracker.exit_gates r
  /\ Tracker.wormhole_count r = len (Tracker.hops r).

(** The candidate appended by the one-hop loop, and the one appended by
    the two-hop loop. *)
Definition one_hop (origin destination : string)
    (entry_system exit_system : string) (wh_data : Tracker.Scan)
    (entry_path exit_path : list string) : Tracker.Route :=
  {| Tracker.origin := origin;
     Tracker.destination := destination;
     Tracker.entry_path := entry_path;
     Tracker.hops := [Tracker.mkHop entry_system exit_system wh_data];
     Tracker.exit_path := exit_path;
     Tracker.entry_gates := len entry_path - 1;
     Tracker.exit_gates := len exit_path - 1;
     Tracker.total_gates := len entry_path - 1 + (len exit_path - 1);
     Tracker.wormhole_count := 1;
     Tracker.score :=
       Tracker.calculate_route_score_single (len entry_path - 1)
         (len exit_path - 1) wh_data |}.

Definition two_hop (origin destination : string)
    (entry_system mid_system exit_system : string)
    (wh_data_1 wh_data_2 : Tracker.Scan)
    (entry_path exit_path : list string) : Tracker.Route :=
  {| Tracker.origin := origin;
     Tracker.destination := destination;
     Tracker.entry_path := entry_path;
     Tracker.hops := [Tracker.mkHop entry_system mid_system wh_data_1;
                      Tracker.mkHop mid_system exit_system wh_data_2];
     Tracker.exit_path := exit_path;
     Tracker.entry_gates := len entry_path - 1;
     Tracker.exit_gates := len exit_path - 1;
     Tracker.total_gates := len entry_path - 1 + (len exit_path - 1);
     Tracker.wormhole_count := 2;
     Tracker.score :=
       Tracker.calculate_route_score_multihop (len entry_path - 1)
         (len exit_path - 1) wh_data_1 wh_data_2 |}.

(** The order in which the composer returns its candidates. *)
Definition score_le (a b : Tracker.Route) : Prop :=
  Tracker.score a <= Tracker.score b.

End Candidate.

(** *** Region-to-region routes *)
Module Regions.

(** [a] does not come after [b] in the order of the sort key. *)
Definition key_le {A K} (lt : K -> K -> bool) (key : A -> K) (a b : A)
    : Prop :=
  lt (key b) (key a) = false.

(** The candidate routes of [find_routes] before sorting. *)
Definition candidates (JOVE_SYSTEMS : OrderedDict.t (list string))
    (end_region : string) (connections : Tracker.Connections)
    (start_systems : list string) : list (list string) :=
  flat_map
    (fun start_sys =>
       match OrderedDict.get start_sys connections with
       | None => []
       | Some exits =>
           flat_map
             (fun '(neighbor, _) =>
                match Tracker.neighbor_region JOVE_SYSTEMS neighbor with
                | Some reg =>
                    if String.eqb reg end_region then [[start_sys; neighbor]]
                    else []
                | None => []
                end)
             exits
       end)
    start_systems.

End Regions.

(** *** The clean-up of the stored list *)
Module Cleanup.

(** The scan is appended to the new list by a pass of the loop that does
    not raise. *)
Definition kept (now : Tracker.datetime) (scan : Tracker.Scan) : bool :=
  String.eqb (Tracker.holeType scan) "None"
  || negb (Tracker.expired now scan).

(** The pass of the loop for this scan raises [TypeError]. *)
Definition raises (error_of : Tracker.Scan -> Tracker.stamp_error)
    (scan : Tracker.Scan) : bool :=
  negb (String.eqb (Tracker.holeType scan) "None")
  && match Tracker.scannedAt scan, error_of scan with
     | None, Tracker.BadType => true
     | _, _ => false
     end.

End Cleanup.

(** *** Characters with a meaning *)
Module Chars.

(** The ten ASCII digits, as code points. *)
Definition ascii_digit (c : Z) : bool := (48 <=? c) && (c <=? 57).

(** The characters Discord reads as markdown and the sanitizer escapes. *)
Definition markdown (c : ascii) : bool :=
  Ascii.eqb c "*" || Ascii.eqb c "_" || Ascii.eqb c "~" || Ascii.eqb c "`"
  || Ascii.eqb c "|" || Ascii.eqb c ">".

(** A character that may not appear in a sanitized file name. *)
Definition unsafe_in_filename (c : ascii) : bool :=
  Ascii.eqb c SecurityValidator.slash
  || Ascii.eqb c SecurityValidator.backslash
  || SecurityValidator.forbidden_char c.

End Chars.

(** *** Stored system names *)
Module Names.

(** Every stored name is one that validation returns unchanged, and its
    id is not zero. *)
Definition canonical (self : Loader.EVESDELoader) : Prop :=
  forall n i,
    Loader.system_name_to_id self !! n = Some i ->
    SecurityValidator.validate_system_name n = Some n /\ n <> "" /\ i <> 0.

(** The row has its four columns and passes the three checks, with id
    [i] and stripped name [n]. *)
Definition accepted (row : Loader.SystemRow) (i : Z) (n : string) : Prop :=
  Loader.row_system_id row = Some i
  /\ 30000000 <= i <= 33000000
  /\ (exists name, Loader.row_system_name row = Some name
                   /\ SecurityValidator.validate_system_name name = Some n)
  /\ n <> ""
  /\ (exists g, Loader.row_region_id row = Some g
                /\ 10000000 <= g <= 11000000)
  /\ Loader.row_has_security row = true.

End Names.

(** *** Jumpbridge links *)
Module Bridges.

(** [b] is listed under [a] in the jumpbridge dict. *)
Definition edge (jbs : gmap Z (list Z)) (a b : Z) : Prop :=
  exists l, jbs !! a = Some l /\ In b l.

(** The table has a row whose two names resolve to the ids [a] and [b]. *)
Definition resolved (name_to_id : gmap string Z)
    (JUMPBRIDGES : list (string * string * string)) (a b : Z) : Prop :=
  exists system1 system2 alliance,
    In (system1, system2, alliance) JUMPBRIDGES
    /\ Loader.truthy_id (name_to_id !! system1) = Some a
    /\ Loader.truthy_id (name_to_id !! system2) = Some b.

(** No adjacency list names a system twice. *)
Definition duplicate_free (jbs : gmap Z (list Z)) : Prop :=
  forall k l, jbs !! k = Some l -> List.NoDup l.

Definition symmetric (jbs : gmap Z (list Z)) : Prop :=
  forall a b, edge jbs a b -> edge jbs b a.

End Bridges.

(** *** The rules as the specification words them *)
Module Spec.

(** Lifetime budget counted from the spawn timestamp: Fresh 24 h,
    Destabilizing 4 h, Critical 15 min. *)
Definition lifetime (lifeStatus : string) : option Tracker.timedelta :=
  if String.eqb lifeStatus "Fresh" then Some (Tracker.hours 24)
  else if String.eqb lifeStatus "Destabilizing" then Some (Tracker.hours 4)
  else if String.eqb lifeStatus "Critical" then Some (Tracker.minutes 15)
  else None.

(** The mass bands of the data model. *)
Definition MASS_STATUSES : list string :=
  ["100% > 50%"; "50% > 10%"; "< 10%"; "N/A"].

Definition criticalPenalty (lifeStatus : string) : Z :=
  if String.eqb lifeStatus "Critical" then 60
  else if String.eqb lifeStatus "Destabilizing" then 25
  else 0.

Definition massPenalty (massStatus : string) : Z :=
  if String.eqb massStatus "< 10%" then 50
  else if String.eqb massStatus "50% > 10%" then 20
  else 0.

Definition lengthPenalty (totalGates : Z) : Z :=
  if 15 <? totalGates then 10 else 0.

Definition bonus (totalGates : Z) (lifeStatus massStatus : string) : Z :=
  if (totalGates <? 10) && String.eqb lifeStatus "Fresh"
     && String.eqb massStatus "100% > 50%"
  then 5 else 0.

Definition single_hop_score (totalGates : Z) (wh : Tracker.Scan) : Z :=
  totalGates + criticalPenalty (Tracker.lifeStatus wh)
  + massPenalty (Tracker.massStatus wh) + lengthPenalty totalGates
  - bonus totalGates (Tracker.lifeStatus wh) (Tracker.massStatus wh).

Definition fixedOverhead : Z := 30.

Definition perHolePenalty (wh : Tracker.Scan) : Z :=
  (if String.eqb (Tracker.lifeStatus wh) "Critical" then 50
   else if String.eqb (Tracker.lifeStatus wh) "Destabilizing" then 20
   else 0)
  + (if String.eqb (Tracker.massStatus wh) "< 10%" then 45
     else if String.eqb (Tracker.massStatus wh) "50% > 10%" then 18
     else 0).

Definition perfect (wh : Tracker.Scan) : bool :=
  String.eqb (Tracker.lifeStatus wh) "Fresh"
  && String.eqb (Tracker.massStatus wh) "100% > 50%".

Definition two_hop_score (totalGates : Z) (wh1 wh2 : Tracker.Scan) : Z :=
  totalGates + fixedOverhead + (perHolePenalty wh1 + perHolePenalty wh2)
  - (if perfect wh1 && perfect wh2 then 5 else 0).

End Spec.

(** * Example data *)
Module Examples.

Definition scan (id : Z) (sys type life mass : string)
    (at_ : option Tracker.datetime) : Tracker.Scan :=
  Tracker.mkScan id "Region" sys type life mass at_.

(** A fresh, healthy Barbican hole and a critical Conflux hole. *)
Definition fresh_barbican : Tracker.Scan :=
  scan 1 "X" "Barbican" "Fresh" "100% > 50%" (Some 0).
Definition critical_conflux : Tracker.Scan :=
  scan 2 "Y" "Conflux" "Critical" "< 10%" (Some 0).


(** Three Barbican holes in three systems, read at time 0. *)
Definition barbican_X : Tracker.Scan :=
  scan 11 "X" "Barbican" "Fresh" "100% > 50%" (Some 0).
Definition barbican_Y : Tracker.Scan :=
  scan 12 "Y" "Barbican" "Destabilizing" "50% > 10%" (Some 0).
Definition barbican_Z : Tracker.Scan :=
  scan 13 "Z" "Barbican" "Fresh" "< 10%" None.


(** A one-way chain of [n] gates, [1 -> 2 -> ... -> n + 1], without
    jumpbridges.  The first system is named [S], the last one [E]. *)
Fixpoint chain_jumps (n : nat) : gmap Z (list Z) :=
  match n with
  | O => ∅
  | S m => <[Z.of_nat n := [Z.of_nat n + 1]]> (chain_jumps m)
  end.

Definition chain_name (last i : Z) : string :=
  if i =? 1 then "S" else if i =? last then "E" else "M".

Fixpoint chain_id_to_name (last : Z) (k : nat) : gmap Z string :=
  match k with
  | O => ∅
  | S m => <[Z.of_nat k := chain_name last (Z.of_nat k)]>
             (chain_id_to_name last m)
  end.

Definition chain_loader (n : nat) : Loader.EVESDELoader :=
  {| Loader.system_name_to_id :=
       <["S" := 1]> (<["E" := Z.of_nat n + 1]> ∅);
     Loader.system_id_to_name := chain_id_to_name (Z.of_nat n + 1) (S n);
     Loader.system_jumps := chain_jumps n;
     Loader.jumpbridges := ∅ |}.

(** The systems [1, ..., k] in order. *)
Definition chain_ids (k : nat) : list Z := map Z.of_nat (seq 1 k).


(** The universe on which the pathfinder misses a route: six jumpbridges
    [S - J1 - ... - J5 - B], the gates [S - G - B] and the gate [B - E]. *)
Definition bug_names : list (string * Z) :=
  [("S", 1); ("J1", 2); ("J2", 3); ("J3", 4); ("J4", 5); ("J5", 6);
   ("B", 7); ("G", 8); ("E", 9)].

Definition bug_loader : Loader.EVESDELoader :=
  {| Loader.system_name_to_id := list_to_map bug_names;
     Loader.system_id_to_name :=
       list_to_map (map (fun '(n, i) => (i, n)) bug_names);
     Loader.system_jumps :=
       list_to_map [(1, [8]); (8, [1; 7]); (7, [8; 9]); (9, [7])];
     Loader.jumpbridges :=
       list_to_map [(1, [2]); (2, [1; 3]); (3, [2; 4]); (4, [3; 5]);
                    (5, [4; 6]); (6, [5; 7]); (7, [6])] |}.

(** The universe on which the pathfinder returns a dearer route: four
    jumpbridges [S - J1 - J2 - J3 - B], the gates [S - G - B - E] and the
    gates [S - A1 - A2 - A3 - E]. *)
Definition detour_names : list (string * Z) :=
  [("S", 1); ("J1", 2); ("J2", 3); ("J3", 4); ("B", 5); ("G", 6); ("E", 7);
   ("A1", 8); ("A2", 9); ("A3", 10)].

Definition detour_loader : Loader.EVESDELoader :=
  {| Loader.system_name_to_id := list_to_map detour_names;
     Loader.system_id_to_name :=
       list_to_map (map (fun '(n, i) => (i, n)) detour_names);
     Loader.system_jumps :=
       list_to_map [(1, [6; 8]); (6, [1; 5]); (5, [6; 7]); (7, [5; 10]);
                    (8, [1; 9]); (9, [8; 10]); (10, [9; 7])];
     Loader.jumpbridges :=
       list_to_map [(1, [2]); (2, [1; 3]); (3, [2; 4]); (4, [3; 5]);
                    (5, [4])] |}.

(** A universe for the composer: gates [O - X] and [Z - D]; [Y] has no
    gate. *)
Definition hop_names : list (string * Z) :=
  [("O", 1); ("X", 2); ("Y", 3); ("Z", 4); ("D", 5)].

Definition hop_loader : Loader.EVESDELoader :=
  {| Loader.system_name_to_id := list_to_map hop_names;
     Loader.system_id_to_name :=
       list_to_map (map (fun '(n, i) => (i, n)) hop_names);
     Loader.system_jumps :=
       list_to_map [(1, [2]); (2, [1]); (4, [5]); (5, [4])];
     Loader.jumpbridges := ∅ |}.

Definition hop_pathfinder : Tracker.pathfinder :=
  fun a b max_jumps => Loader.find_path 64 hop_loader a b max_jumps true.

(** Barbican holes in [X] and [Y], Conflux holes in [Y] and [Z]. *)
Definition hop_scans : list Tracker.Scan :=
  [scan 21 "X" "Barbican" "Fresh" "100% > 50%" (Some 0);
   scan 22 "Y" "Barbican" "Fresh" "100% > 50%" (Some 0);
   scan 23 "Y" "Conflux" "Fresh" "100% > 50%" (Some 0);
   scan 24 "Z" "Conflux" "Fresh" "100% > 50%" (Some 0)].

(** A universe [O - X - D] and two Barbican holes logged in [X]. *)
Definition loop_names : list (string * Z) := [("O", 1); ("X", 2); ("D", 3)].

Definition loop_loader : Loader.EVESDELoader :=
  {| Loader.system_name_to_id := list_to_map loop_names;
     Loader.system_id_to_name :=
       list_to_map (map (fun '(n, i) => (i, n)) loop_names);
     Loader.system_jumps := list_to_map [(1, [2]); (2, [1; 3]); (3, [2])];
     Loader.jumpbridges := ∅ |}.

Definition loop_pathfinder : Tracker.pathfinder :=
  fun a b max_jumps => Loader.find_path 64 loop_loader a b max_jumps true.

Definition loop_scan_1 : Tracker.Scan :=
  scan 31 "X" "Barbican" "Fresh" "100% > 50%" (Some 0).
Definition loop_scan_2 : Tracker.Scan :=
  scan 32 "X" "Barbican" "Destabilizing" "50% > 10%" (Some 0).

End Examples.

(** * Properties *)

(** ** Scoring *)

Lemma mass_status_cases (m : string) :
  In m Spec.MASS_STATUSES ->
  m = "100% > 50%" \/ m = "50% > 10%" \/ m = "< 10%" \/ m = "N/A".
Proof.
  unfold Spec.MASS_STATUSES. simpl. intuition congruence.
Qed.

Ltac case_life s :=
  destruct (String.eqb_spec s "Critical") as [->|?];
  [ | destruct (String.eqb_spec s "Destabilizing") as [->|?];
      [ | destruct (String.eqb_spec s "Fresh") as [->|?] ] ].

Ltac case_ltb :=
  repeat match goal with
  | |- context [?a <? ?b] => destruct (Z.ltb_spec a b)
  end.

Lemma single_score_refines (entry_gates exit_gates : Z) (wh : Tracker.Scan) :
  In (Tracker.massStatus wh) Spec.MASS_STATUSES ->
  Tracker.calculate_route_score_single entry_gates exit_gates wh
  = Spec.single_hop_score (entry_gates + exit_gates) wh.
Proof.
  intros Hm. apply mass_status_cases in Hm.
  unfold Tracker.calculate_route_score_single, Spec.single_hop_score,
    Spec.criticalPenalty, Spec.massPenalty, Spec.lengthPenalty, Spec.bonus.
  destruct wh as [i r s t life mass at_]; simpl in *.
  destruct Hm as [-> | [-> | [-> | ->]]]; case_life life; simpl;
    case_ltb; simpl; lia.
Qed.

Lemma hole_penalty_refines (score : Z) (wh : Tracker.Scan) :
  In (Tracker.massStatus wh) Spec.MASS_STATUSES ->
  Tracker.hole_penalty score wh = score + Spec.perHolePenalty wh.
Proof.
  intros Hm. apply mass_status_cases in Hm.
  unfold Tracker.hole_penalty, Spec.perHolePenalty.
  destruct wh as [i r s t life mass at_]; simpl in *.
  destruct Hm as [-> | [-> | [-> | ->]]]; case_life life; simpl; lia.
Qed.

Lemma perfect_refines (wh : Tracker.Scan) :
  In (Tracker.massStatus wh) Spec.MASS_STATUSES ->
  (String.eqb (Tracker.lifeStatus wh) "Fresh"
   && str_contains "100% > 50%" (Tracker.massStatus wh))
  = Spec.perfect wh.
Proof.
  intros Hm. apply mass_status_cases in Hm. unfold Spec.perfect.
  destruct Hm as [-> | [-> | [-> | ->]]]; reflexivity.
Qed.

(** C7. For every candidate whose mass status is one of the bands of the
    data model, the single-hop score computed by the code is
    [totalGates + criticalPenalty + massPenalty + lengthPenalty - bonus]
    with the constants 60/25, 50/20, 10 and 5, and the two-hop score is
    [totalGates + 30 + perHolePenalty(wh1) + perHolePenalty(wh2) - bonus]
    with the constants 50/20, 45/18 and a bonus of 5 only when both holes
    are Fresh at "100% > 50%". *)
Theorem route_scores_match_formulas
    (entry_gates exit_gates : Z) (wh wh1 wh2 : Tracker.Scan) :
  In (Tracker.massStatus wh) Spec.MASS_STATUSES ->
  In (Tracker.massStatus wh1) Spec.MASS_STATUSES ->
  In (Tracker.massStatus wh2) Spec.MASS_STATUSES ->
  Tracker.calculate_route_score_single entry_gates exit_gates wh
  = Spec.single_hop_score (entry_gates + exit_gates) wh
  /\ Tracker.calculate_route_score_multihop entry_gates exit_gates wh1 wh2
     = Spec.two_hop_score (entry_gates + exit_gates) wh1 wh2.
Proof.
  intros H H1 H2. split.
  - apply single_score_refines; assumption.
  - unfold Tracker.calculate_route_score_multihop, Spec.two_hop_score.
    simpl fold_left. simpl forallb.
    rewrite !hole_penalty_refines by assumption.
    rewrite !perfect_refines by assumption.
    rewrite andb_true_r.
    unfold Tracker.BURN_TIME_PENALTY, Tracker.NPC_DANGER_PENALTY,
      Tracker.COMPLEXITY_PENALTY, Spec.fixedOverhead.
    destruct (Spec.perfect wh1 && Spec.perfect wh2); lia.
Qed.

Lemma route_scores_match_formulas_witness :
  Tracker.calculate_route_score_single 2 3 Examples.fresh_barbican = 0
  /\ Tracker.calculate_route_score_multihop 2 3 Examples.fresh_barbican
       Examples.critical_conflux = 130.
Proof.
  pose proof (route_scores_match_formulas 2 3 Examples.fresh_barbican
                Examples.fresh_barbican Examples.critical_conflux) as H.
  destruct H as [Hs Hm].
  - vm_compute. tauto.
  - vm_compute. tauto.
  - vm_compute. tauto.
  - split.
    + rewrite Hs. reflexivity.
    + rewrite Hm. reflexivity.
Defined.

(** ** Spawn time and expiry *)

Ltac time_lia :=
  unfold Tracker.hours, Tracker.minutes, Tracker.seconds,
    Tracker.MICROSECONDS_PER_HOUR in *; lia.

Lemma timedelta_24h : Tracker.timedelta_hours (QArith_base.Qmake 24 1) = Tracker.hours 24.
Proof. reflexivity. Qed.

Lemma timedelta_4h : Tracker.timedelta_hours (QArith_base.Qmake 4 1) = Tracker.hours 4.
Proof. reflexivity. Qed.

Lemma timedelta_15min : Tracker.timedelta_hours (QArith_base.Qmake 1 4) = Tracker.minutes 15.
Proof. reflexivity. Qed.

(** The budget the code applies is the budget of the specification
    wherever the latter is defined. *)
Lemma lifetime_of_spec (status : string) (L : Tracker.timedelta) :
  Spec.lifetime status = Some L ->
  Tracker.timedelta_hours (Tracker.lifetime_of status) = L.
Proof.
  unfold Spec.lifetime, Tracker.lifetime_of, Tracker.LIFETIME_HOURS.
  case_life status; simpl; intros H; inversion H; reflexivity.
Qed.

Lemma keep_scan_dated (now t : Tracker.datetime) (scan : Tracker.Scan) :
  Tracker.holeType scan <> "None" ->
  Tracker.scannedAt scan = Some t ->
  Tracker.keep_scan now scan = true
  <-> now - t <= Tracker.timedelta_hours (Tracker.lifetime_of (Tracker.lifeStatus scan)).
Proof.
  intros Hty Hat. unfold Tracker.keep_scan, Tracker.expired. rewrite Hat.
  destruct (String.eqb_spec (Tracker.holeType scan) "None") as [E|_];
    [contradiction|].
  rewrite negb_true_iff, Z.ltb_ge. reflexivity.
Qed.

Lemma active_wormholes_In (now : Tracker.datetime) (scans : list Tracker.Scan)
    (scan : Tracker.Scan) :
  In scan (Tracker.active_wormholes now scans)
  <-> In scan scans /\ Tracker.keep_scan now scan = true.
Proof. unfold Tracker.active_wormholes. apply filter_In. Qed.

(** C4. A holed scan whose timestamp reads as [t] is kept by the
    connection-graph builder exactly when [now - t] does not exceed the
    lifetime of its life status (Fresh 24 h, Destabilizing 4 h, Critical
    15 min).  In particular a Fresh scan spawned at [t] is kept at every
    moment up to [t + 24h] included, and dropped at [t + 24h + 1s]. *)
Theorem active_iff_within_lifetime
    (now t : Tracker.datetime) (scans : list Tracker.Scan)
    (scan : Tracker.Scan) (L : Tracker.timedelta) :
  In scan scans ->
  Tracker.holeType scan <> "None" ->
  Tracker.scannedAt scan = Some t ->
  Spec.lifetime (Tracker.lifeStatus scan) = Some L ->
  (In scan (Tracker.active_wormholes now scans) <-> now - t <= L)
  /\ (Tracker.lifeStatus scan = "Fresh" ->
      (forall d, 0 <= d <= Tracker.hours 24 ->
                 In scan (Tracker.active_wormholes (t + d) scans))
      /\ In scan (Tracker.active_wormholes (t + Tracker.hours 24) scans)
      /\ ~ In scan (Tracker.active_wormholes
                      (t + Tracker.hours 24 + Tracker.seconds 1) scans)).
Proof.
  intros Hin Hty Hat HL.
  assert (Hkeep : forall n, In scan (Tracker.active_wormholes n scans)
                            <-> n - t <= L).
  { intros n. rewrite active_wormholes_In, (keep_scan_dated n t scan Hty Hat).
    rewrite (lifetime_of_spec _ _ HL). tauto. }
  split; [apply Hkeep|].
  intros Hfresh. rewrite Hfresh in HL. simpl in HL. inversion HL; subst L.
  repeat split.
  - intros d Hd. apply Hkeep. lia.
  - apply Hkeep. lia.
  - rewrite Hkeep. unfold Tracker.seconds. lia.
Qed.

Lemma active_iff_within_lifetime_witness :
  let s := Examples.fresh_barbican in
  In s (Tracker.active_wormholes (0 + Tracker.hours 24) [s])
  /\ ~ In s (Tracker.active_wormholes
               (0 + Tracker.hours 24 + Tracker.seconds 1) [s]).
Proof.
  intros s.
  destruct (active_iff_within_lifetime 0 0 [s] s (Tracker.hours 24))
    as [_ H].
  - simpl. tauto.
  - vm_compute. discriminate.
  - reflexivity.
  - reflexivity.
  - destruct (H eq_refl) as (_ & H1 & H2). split; assumption.
Defined.

(** The window of a Critical scan closes 23 h 45 min before the scan
    moment, so the scan is already dropped at the moment it is recorded. *)
Lemma critical_scan_dropped_at_scan_time
    (T : Tracker.datetime) (scan : Tracker.Scan) :
  Tracker.lifeStatus scan = "Critical" ->
  Tracker.scannedAt scan
  = Some (Tracker.calculate_spawn_time T "Critical" (Some T)) ->
  Tracker.keep_scan T scan = false.
Proof.
  intros Hlife Hat. unfold Tracker.keep_scan, Tracker.expired.
  rewrite Hat, Hlife.
  destruct (String.eqb (Tracker.holeType scan) "None"); [reflexivity|].
  change (Tracker.calculate_spawn_time T "Critical" (Some T))
    with (T - Tracker.hours 24).
  rewrite negb_false_iff. apply Z.ltb_lt.
  change (Tracker.timedelta_hours (Tracker.lifetime_of "Critical"))
    with (Tracker.minutes 15).
  time_lia.
Qed.

Lemma critical_scan_kept_until (t now : Tracker.datetime)
    (scan : Tracker.Scan) :
  Tracker.holeType scan <> "None" ->
  Tracker.lifeStatus scan = "Critical" ->
  Tracker.scannedAt scan = Some t ->
  Tracker.keep_scan now scan = true <-> now - t <= Tracker.minutes 15.
Proof.
  intros H1 H2 H3. rewrite (keep_scan_dated now t scan H1 H3), H2.
  reflexivity.
Qed.

(** C3. A Critical scan recorded at scan time [T] is stored with the
    spawn timestamp [T - 24h], and the expiry rule keeps it exactly until
    [T - 24h + 15min].  The 15-minute budget is counted from the backdated
    timestamp, so this moment lies 23 h 45 min before [T]: the scan is
    dropped at the scan moment and at every later moment, and no list
    holds it as an active wormhole then.  A hole seen alive at [T] never
    reaches the routing, so its remaining lifetime is under-estimated; a
    list of Critical scans, each stamped at a scan time that is not in the
    future, gives the empty connection graph. *)
Theorem critical_scan_expired_when_recorded
    (T now : Tracker.datetime) (scan : Tracker.Scan) :
  Tracker.holeType scan <> "None" ->
  Tracker.lifeStatus scan = "Critical" ->
  Tracker.scannedAt scan
  = Some (Tracker.calculate_spawn_time T "Critical" None) ->
  Tracker.calculate_spawn_time T "Critical" None = T - Tracker.hours 24
  /\ Tracker.calculate_spawn_time T "Critical" (Some T)
     = T - Tracker.hours 24
  /\ (Tracker.keep_scan now scan = true
      <-> now <= T - Tracker.hours 24 + Tracker.minutes 15)
  /\ (T - Tracker.hours 24 + Tracker.minutes 15 < T)
  /\ (T <= now -> Tracker.keep_scan now scan = false)
  /\ (T <= now ->
      forall scans, ~ In scan (Tracker.active_wormholes now scans))
  /\ (forall scans,
        (forall s, In s scans ->
           Tracker.lifeStatus s = "Critical"
           /\ exists T', T' <= now
                /\ Tracker.scannedAt s
                   = Some (Tracker.calculate_spawn_time T' "Critical" None)) ->
        Tracker.build_connection_graph now scans = []).
Proof.
  intros Hty Hlife Hat.
  assert (Hspawn : forall T', Tracker.calculate_spawn_time T' "Critical" None
                              = T' - Tracker.hours 24) by reflexivity.
  rewrite Hspawn in Hat.
  pose proof (critical_scan_kept_until _ now scan Hty Hlife Hat) as Hscan.
  assert (Hdrop : T <= now -> Tracker.keep_scan now scan = false).
  { intros Hle. apply not_true_iff_false. intros H. apply Hscan in H.
    time_lia. }
  split; [reflexivity|]. split; [reflexivity|]. split.
  { rewrite Hscan. split; intros H; lia. }
  split; [time_lia|]. split; [exact Hdrop|]. split.
  { intros Hle scans Hin. apply active_wormholes_In in Hin.
    destruct Hin as [_ Hk]. rewrite (Hdrop Hle) in Hk. discriminate. }
  intros scans Hall. unfold Tracker.build_connection_graph.
  assert (E : Tracker.active_wormholes now scans = []); [|rewrite E; auto].
  unfold Tracker.active_wormholes.
  induction scans as [|s l IH]; [reflexivity|]. simpl.
  rewrite IH by (intros s' Hs'; apply Hall; right; exact Hs').
  destruct (Hall s (or_introl eq_refl)) as (Hl & T' & Hle & Hs).
  rewrite Hspawn in Hs.
  destruct (Tracker.keep_scan now s) eqn:Hk; [|reflexivity].
  exfalso.
  assert (Hn : Tracker.holeType s <> "None").
  { intros E. unfold Tracker.keep_scan in Hk. rewrite E in Hk.
    discriminate. }
  apply (critical_scan_kept_until _ now s Hn Hl Hs) in Hk. time_lia.
Qed.

Lemma critical_scan_expired_when_recorded_witness :
  Tracker.keep_scan 100
    (Examples.scan 3 "X" "Vidette" "Critical" "< 10%"
       (Some (100 - Tracker.hours 24))) = false
  /\ Tracker.build_connection_graph 100
       [Examples.scan 3 "X" "Vidette" "Critical" "< 10%"
          (Some (100 - Tracker.hours 24));
        Examples.scan 5 "Y" "Vidette" "Critical" "< 10%"
          (Some (100 - Tracker.hours 24))] = [].
Proof.
  destruct (critical_scan_expired_when_recorded 100 100
              (Examples.scan 3 "X" "Vidette" "Critical" "< 10%"
                 (Some (100 - Tracker.hours 24))))
    as (_ & _ & _ & _ & H5 & _ & H7).
  - vm_compute. discriminate.
  - reflexivity.
  - reflexivity.
  - split; [apply H5; lia|]. apply H7.
    intros s [<-|[<-|[]]]; (split; [reflexivity|]); exists 100;
      (split; [lia|reflexivity]).
Defined.

(** C10. For a life status other than Fresh, Destabilizing and Critical,
    the expiry check uses the default budget of 24 hours and the spawn-time
    backdating returns the scan time unchanged, so the scan is kept or
    dropped exactly as a Fresh scan with the same fields would be: a
    wormhole scan with such a status and a readable stamp [t] is kept by
    the expiry check, and is among the active wormholes of a list that
    holds it, exactly while [now - t <= 24h]; stamped by the backdating at
    scan time [T], exactly while [now - T <= 24h]. *)
Theorem unknown_status_treated_as_fresh
    (status : string) (now : Tracker.datetime)
    (scan_time : option Tracker.datetime) (scan : Tracker.Scan) :
  status <> "Fresh" -> status <> "Destabilizing" -> status <> "Critical" ->
  Tracker.lifeStatus scan = status ->
  Tracker.LIFETIME_HOURS status = None
  /\ Tracker.timedelta_hours (Tracker.lifetime_of status) = Tracker.hours 24
  /\ Tracker.calculate_spawn_time now status scan_time
     = default now scan_time
  /\ Tracker.calculate_spawn_time now status scan_time
     = Tracker.calculate_spawn_time now "Fresh" scan_time
  /\ Tracker.keep_scan now scan
     = Tracker.keep_scan now (with_lifeStatus "Fresh" scan)
  /\ (forall t,
        Tracker.holeType scan <> "None" ->
        Tracker.scannedAt scan = Some t ->
        (Tracker.keep_scan now scan = true <-> now - t <= Tracker.hours 24)
        /\ (Tracker.expired now scan = true <-> Tracker.hours 24 < now - t)
        /\ forall scans, In scan scans ->
             (In scan (Tracker.active_wormholes now scans)
              <-> now - t <= Tracker.hours 24))
  /\ (forall T,
        Tracker.holeType scan <> "None" ->
        Tracker.scannedAt scan
        = Some (Tracker.calculate_spawn_time T status None) ->
        Tracker.keep_scan now scan = true <-> now - T <= Tracker.hours 24).
Proof.
  intros HF HD HC Hlife.
  assert (HL : Tracker.LIFETIME_HOURS status = None).
  { unfold Tracker.LIFETIME_HOURS. case_life status; congruence. }
  assert (Hb : Tracker.lifetime_of status = Tracker.lifetime_of "Fresh").
  { unfold Tracker.lifetime_of. rewrite HL. reflexivity. }
  assert (H24 : Tracker.timedelta_hours (Tracker.lifetime_of status)
                = Tracker.hours 24) by (rewrite Hb; reflexivity).
  assert (Hspawn : forall n st, Tracker.calculate_spawn_time n status st
                                = default n st).
  { intros n st. unfold Tracker.calculate_spawn_time.
    case_life status; try congruence. destruct st; reflexivity. }
  assert (Hkeep : forall t, Tracker.holeType scan <> "None" ->
            Tracker.scannedAt scan = Some t ->
            (Tracker.keep_scan now scan = true
             <-> now - t <= Tracker.hours 24)).
  { intros t Hty Hat. rewrite (keep_scan_dated now t scan Hty Hat).
    rewrite Hlife, H24. reflexivity. }
  split; [exact HL|]. split; [exact H24|]. split; [apply Hspawn|].
  split.
  { rewrite Hspawn. destruct scan_time; reflexivity. }
  split.
  { unfold Tracker.keep_scan, Tracker.expired. simpl.
    rewrite Hlife, Hb. reflexivity. }
  split.
  - intros t Hty Hat. split; [apply Hkeep; assumption|]. split.
    + unfold Tracker.expired. rewrite Hat, Hlife, H24. apply Z.ltb_lt.
    + intros scans Hin. rewrite active_wormholes_In.
      rewrite (Hkeep t Hty Hat). tauto.
  - intros T Hty Hat. rewrite Hspawn in Hat. apply Hkeep; assumption.
Qed.

Lemma unknown_status_treated_as_fresh_witness :
  Tracker.timedelta_hours (Tracker.lifetime_of "N/A") = Tracker.hours 24
  /\ Tracker.calculate_spawn_time 7 "N/A" (Some 5) = 5
  /\ Tracker.keep_scan (5 + Tracker.hours 24)
       (Examples.scan 4 "X" "Sentinel" "N/A" "N/A" (Some 5)) = true
  /\ Tracker.keep_scan (5 + Tracker.hours 24 + 1)
       (Examples.scan 4 "X" "Sentinel" "N/A" "N/A" (Some 5)) = false.
Proof.
  assert (N1 : "N/A" <> "Fresh") by discriminate.
  assert (N2 : "N/A" <> "Destabilizing") by discriminate.
  assert (N3 : "N/A" <> "Critical") by discriminate.
  assert (Hty : Tracker.holeType
                  (Examples.scan 4 "X" "Sentinel" "N/A" "N/A" (Some 5))
                <> "None") by discriminate.
  destruct (unknown_status_treated_as_fresh "N/A" (5 + Tracker.hours 24)
              (Some 5)
              (Examples.scan 4 "X" "Sentinel" "N/A" "N/A" (Some 5))
              N1 N2 N3 eq_refl)
    as (_ & H2 & H3 & _ & _ & H6 & _).
  destruct (unknown_status_treated_as_fresh "N/A"
              (5 + Tracker.hours 24 + 1) (Some 5)
              (Examples.scan 4 "X" "Sentinel" "N/A" "N/A" (Some 5))
              N1 N2 N3 eq_refl)
    as (_ & _ & _ & _ & _ & H6' & _).
  split; [exact H2|]. split; [exact H3|]. split.
  - apply (H6 5 Hty eq_refl). lia.
  - apply not_true_iff_false. intros H.
    apply (H6' 5 Hty eq_refl) in H. lia.
Defined.

(** ** Insertion-ordered dictionaries *)
Section OrderedDictFacts.
Context {V : Type}.
Implicit Types (d : OrderedDict.t V) (k : string) (f : V -> V).

Ltac case_keys :=
  repeat match goal with
  | |- context [String.eqb ?a ?b] =>
      destruct (String.eqb_spec a b); subst; simpl; try congruence
  end.

Lemma od_get_update k k' f d :
  OrderedDict.get k' (OrderedDict.update k f d)
  = if String.eqb k' k then f <$> OrderedDict.get k' d
    else OrderedDict.get k' d.
Proof.
  induction d as [|[k0 v0] d IH]; simpl.
  - destruct (String.eqb k' k); reflexivity.
  - destruct (String.eqb_spec k k0) as [->|Hk]; simpl.
    + case_keys.
    + destruct (String.eqb_spec k' k0) as [->|Hk'].
      * case_keys.
      * exact IH.
Qed.

Lemma od_get_setdefault k k' (v : V) d :
  OrderedDict.get k' (OrderedDict.setdefault k v d)
  = match OrderedDict.get k' d with
    | Some x => Some x
    | None => if String.eqb k' k then Some v else None
    end.
Proof.
  induction d as [|[k0 v0] d IH]; simpl.
  - case_keys.
  - destruct (String.eqb_spec k k0) as [->|Hk]; simpl.
    + destruct (String.eqb_spec k' k0) as [->|Hk']; [reflexivity|].
      destruct (OrderedDict.get k' d); reflexivity.
    + destruct (String.eqb_spec k' k0) as [->|Hk']; [reflexivity|].
      exact IH.
Qed.

Lemma od_update_ext k f g d :
  (forall v, f v = g v) -> OrderedDict.update k f d = OrderedDict.update k g d.
Proof.
  intros Hfg. induction d as [|[k0 v0] d IH]; simpl; [reflexivity|].
  destruct (String.eqb k k0); [rewrite Hfg|rewrite IH]; reflexivity.
Qed.

Lemma od_update_id k f d :
  (forall v, f v = v) -> OrderedDict.update k f d = d.
Proof.
  intros Hf. induction d as [|[k0 v0] d IH]; simpl; [reflexivity|].
  destruct (String.eqb k k0); [rewrite Hf|rewrite IH]; reflexivity.
Qed.

Lemma od_update_update k f g d :
  OrderedDict.update k f (OrderedDict.update k g d)
  = OrderedDict.update k (fun v => f (g v)) d.
Proof.
  induction d as [|[k0 v0] d IH]; simpl; [reflexivity|].
  destruct (String.eqb k k0) eqn:E; simpl; rewrite E; [reflexivity|].
  rewrite IH. reflexivity.
Qed.

Lemma od_mem_get k d :
  OrderedDict.mem k d = true <-> exists v, OrderedDict.get k d = Some v.
Proof.
  unfold OrderedDict.mem. destruct (OrderedDict.get k d).
  - split; eauto.
  - split; [discriminate|]. intros [v Hv]. discriminate.
Qed.

Lemma od_get_keys k d :
  (exists v, OrderedDict.get k d = Some v) <-> In k (OrderedDict.keys d).
Proof.
  induction d as [|[k0 v0] d IH]; simpl.
  - split; [intros [v Hv]; discriminate | tauto].
  - destruct (String.eqb_spec k k0) as [->|Hk].
    + split; eauto.
    + rewrite IH. split; [tauto|]. intros [E|H]; [congruence|exact H].
Qed.

End OrderedDictFacts.

(** ** The connection graph builder *)

Lemma enumerate_from_In {A} (l : list A) (s i : nat) (a : A) :
  In (i, a) (combine (seq s (length l)) l)
  <-> (s <= i)%nat /\ l !! (i - s)%nat = Some a.
Proof.
  revert s. induction l as [|x l IH]; intros s; simpl.
  - split; [tauto|]. intros [_ H]. discriminate.
  - rewrite IH. split.
    + intros [E|[Hle Hl]].
      * inversion E; subst. rewrite Nat.sub_diag. split; [lia|reflexivity].
      * split; [lia|]. replace (i - s)%nat with (S (i - S s)) by lia.
        exact Hl.
    + intros [Hle Hl]. destruct (i - s)%nat as [|n] eqn:E.
      * left. inversion Hl. f_equal. lia.
      * right. split; [lia|]. replace (i - S s)%nat with n by lia. exact Hl.
Qed.

Lemma enumerate_In {A} (l : list A) (i : nat) (a : A) :
  In (i, a) (enumerate l) <-> l !! i = Some a.
Proof.
  unfold enumerate. rewrite enumerate_from_In, Nat.sub_0_r.
  split; [tauto|]. split; [lia|assumption].
Qed.

Lemma connect_one_spec (active : list Tracker.Scan) (i : nat)
    (scan : Tracker.Scan) (conn : Tracker.Connections) :
  Tracker.connect_one active i scan conn
  = OrderedDict.update (Tracker.system scan)
      (fun l => (l ++ ConnectionGraph.partners i scan (enumerate active))%list)
      conn.
Proof.
  unfold Tracker.connect_one. generalize (enumerate active) as L.
  intros L. revert conn. induction L as [|[j other] L IH]; intros conn.
  - simpl. symmetry. apply od_update_id. intros v. apply app_nil_r.
  - simpl fold_left. rewrite IH. simpl ConnectionGraph.partners.
    destruct (Nat.eqb i j); [reflexivity|].
    destruct (String.eqb (Tracker.holeType scan) (Tracker.holeType other)).
    + rewrite od_update_update. apply od_update_ext. intros v.
      rewrite <- app_assoc. reflexivity.
    + reflexivity.
Qed.

Lemma connect_from_get (active : list Tracker.Scan) (k : string)
    (L : list (nat * Tracker.Scan)) (conn : Tracker.Connections) :
  OrderedDict.get k (ConnectionGraph.connect_from active L conn)
  = match OrderedDict.get k conn with
    | Some l => Some (l ++ ConnectionGraph.adjacency active k L)%list
    | None =>
        if existsb (fun '(_, a) => String.eqb k (Tracker.system a)) L
        then Some (ConnectionGraph.adjacency active k L) else None
    end.
Proof.
  revert conn. induction L as [|[i a] L IH]; intros conn.
  - simpl. destruct (OrderedDict.get k conn); [|reflexivity].
    rewrite app_nil_r. reflexivity.
  - unfold ConnectionGraph.connect_from in *. simpl fold_left. rewrite IH.
    rewrite connect_one_spec, od_get_update, od_get_setdefault.
    simpl. destruct (String.eqb k (Tracker.system a)); simpl.
    + destruct (OrderedDict.get k conn); simpl.
      * rewrite <- app_assoc. reflexivity.
      * reflexivity.
    + destruct (OrderedDict.get k conn); reflexivity.
Qed.

Lemma connect_all_get (active : list Tracker.Scan) (k : string) :
  OrderedDict.get k (Tracker.connect_all active)
  = if existsb (fun '(_, a) => String.eqb k (Tracker.system a))
         (enumerate active)
    then Some (ConnectionGraph.adjacency active k (enumerate active))
    else None.
Proof.
  change (Tracker.connect_all active)
    with (ConnectionGraph.connect_from active (enumerate active) []).
  rewrite connect_from_get. reflexivity.
Qed.

Lemma partners_In (i : nat) (a : Tracker.Scan)
    (L : list (nat * Tracker.Scan)) (x : string) (b : Tracker.Scan) :
  In (x, b) (ConnectionGraph.partners i a L)
  <-> exists j, In (j, b) L /\ i <> j
                /\ Tracker.holeType a = Tracker.holeType b
                /\ x = Tracker.system b.
Proof.
  unfold ConnectionGraph.partners. rewrite in_flat_map. split.
  - intros [[j o] [Hin Hx]].
    destruct (Nat.eqb_spec i j) as [->|Hij]; [destruct Hx|].
    destruct (String.eqb_spec (Tracker.holeType a) (Tracker.holeType o))
      as [Ht|Ht]; [|destruct Hx].
    destruct Hx as [E|[]]. inversion E; subst. exists j. auto.
  - intros (j & Hin & Hij & Ht & ->). exists (j, b). split; [exact Hin|].
    destruct (Nat.eqb_spec i j); [contradiction|].
    rewrite Ht, String.eqb_refl. left. reflexivity.
Qed.

Lemma adjacency_In (active : list Tracker.Scan) (k : string)
    (L : list (nat * Tracker.Scan)) (x : string) (b : Tracker.Scan) :
  In (x, b) (ConnectionGraph.adjacency active k L)
  <-> exists i a, In (i, a) L /\ k = Tracker.system a
        /\ In (x, b) (ConnectionGraph.partners i a (enumerate active)).
Proof.
  unfold ConnectionGraph.adjacency. rewrite in_flat_map. split.
  - intros [[i a] [Hin Hx]].
    destruct (String.eqb_spec k (Tracker.system a)) as [->|]; [|destruct Hx].
    exists i, a. auto.
  - intros (i & a & Hin & -> & Hx). exists (i, a). split; [exact Hin|].
    rewrite String.eqb_refl. exact Hx.
Qed.

Lemma existsb_system (k : string) (L : list (nat * Tracker.Scan)) :
  existsb (fun '(_, a) => String.eqb k (Tracker.system a)) L = true
  <-> exists i a, In (i, a) L /\ k = Tracker.system a.
Proof.
  rewrite existsb_exists. split.
  - intros [[i a] [Hin Hk]]. apply String.eqb_eq in Hk. eauto.
  - intros (i & a & Hin & ->). exists (i, a).
    rewrite String.eqb_refl. auto.
Qed.

(** Every pair of distinct positions with equal hole type yields an entry
    in the adjacency list of the first scan's system. *)
Lemma connect_all_edge (active : list Tracker.Scan) (i j : nat)
    (a b : Tracker.Scan) :
  active !! i = Some a -> active !! j = Some b -> i <> j ->
  Tracker.holeType a = Tracker.holeType b ->
  exists l, OrderedDict.get (Tracker.system a) (Tracker.connect_all active)
            = Some l
            /\ In (Tracker.system b, b) l.
Proof.
  intros Ha Hb Hij Ht. rewrite connect_all_get.
  apply enumerate_In in Ha. apply enumerate_In in Hb.
  destruct (existsb _ _) eqn:E.
  - eexists. split; [reflexivity|]. apply adjacency_In.
    exists i, a. split; [exact Ha|]. split; [reflexivity|].
    apply partners_In. exists j. auto.
  - exfalso. apply not_true_iff_false in E. apply E.
    apply existsb_system. eauto.
Qed.

(** Conversely every entry comes from such a pair. *)
Lemma connect_all_edge_inv (active : list Tracker.Scan) (k x : string)
    (l : list (string * Tracker.Scan)) (b : Tracker.Scan) :
  OrderedDict.get k (Tracker.connect_all active) = Some l ->
  In (x, b) l ->
  exists i j a, i <> j /\ active !! i = Some a /\ active !! j = Some b
    /\ Tracker.system a = k /\ Tracker.system b = x
    /\ Tracker.holeType a = Tracker.holeType b.
Proof.
  rewrite connect_all_get. destruct (existsb _ _); [|discriminate].
  intros E Hin. inversion E; subst l. clear E.
  apply adjacency_In in Hin. destruct Hin as (i & a & Hia & -> & Hp).
  apply partners_In in Hp. destruct Hp as (j & Hjb & Hij & Ht & ->).
  exists i, j, a. rewrite <- !enumerate_In. repeat split; auto.
Qed.

Lemma connect_all_keys (active : list Tracker.Scan) (k : string) :
  In k (OrderedDict.keys (Tracker.connect_all active))
  <-> exists a, In a active /\ Tracker.system a = k.
Proof.
  rewrite <- od_get_keys, connect_all_get. split.
  - intros [v Hv]. destruct (existsb _ _) eqn:E; [|discriminate].
    apply existsb_system in E. destruct E as (i & a & Hin & ->).
    exists a. split; [|reflexivity].
    apply enumerate_In in Hin. apply list_elem_of_In.
    apply list_elem_of_lookup. eauto.
  - intros (a & Hin & <-). apply list_elem_of_In in Hin.
    apply list_elem_of_lookup in Hin. destruct Hin as [i Hi].
    apply enumerate_In in Hi.
    assert (E : existsb (fun '(_, a0) =>
                  String.eqb (Tracker.system a) (Tracker.system a0))
                  (enumerate active) = true)
      by (apply existsb_system; eauto).
    rewrite E. eauto.
Qed.

(** *** Counting the edges *)

Lemma edge_count_update (k : string) (ps : list (string * Tracker.Scan))
    (d : Tracker.Connections) :
  OrderedDict.mem k d = true ->
  ConnectionGraph.edge_count
    (OrderedDict.update k (fun l => (l ++ ps)%list) d)
  = (ConnectionGraph.edge_count d + length ps)%nat.
Proof.
  unfold ConnectionGraph.edge_count, OrderedDict.mem.
  induction d as [|[k0 v0] d IH]; simpl; [discriminate|].
  destruct (String.eqb k k0); simpl.
  - intros _. rewrite length_app. lia.
  - intros H. rewrite IH by exact H. lia.
Qed.

Lemma edge_count_setdefault (k : string) (d : Tracker.Connections) :
  ConnectionGraph.edge_count (OrderedDict.setdefault k [] d)
  = ConnectionGraph.edge_count d.
Proof.
  unfold ConnectionGraph.edge_count.
  induction d as [|[k0 v0] d IH]; simpl; [reflexivity|].
  destruct (String.eqb k k0); simpl; [reflexivity|]. rewrite IH. reflexivity.
Qed.

Lemma mem_setdefault (k : string) (v : list (string * Tracker.Scan))
    (d : Tracker.Connections) :
  OrderedDict.mem k (OrderedDict.setdefault k v d) = true.
Proof.
  unfold OrderedDict.mem. rewrite od_get_setdefault, String.eqb_refl.
  destruct (OrderedDict.get k d); reflexivity.
Qed.

Lemma connect_from_edge_count (active : list Tracker.Scan)
    (L : list (nat * Tracker.Scan)) (conn : Tracker.Connections) :
  ConnectionGraph.edge_count (ConnectionGraph.connect_from active L conn)
  = (ConnectionGraph.edge_count conn
     + length (flat_map
         (fun '(i, a) => ConnectionGraph.partners i a (enumerate active)) L))%nat.
Proof.
  revert conn. induction L as [|[i a] L IH]; intros conn.
  - simpl. lia.
  - unfold ConnectionGraph.connect_from in *. simpl fold_left. rewrite IH.
    rewrite connect_one_spec, edge_count_update by apply mem_setdefault.
    rewrite edge_count_setdefault. simpl. rewrite length_app. lia.
Qed.

Lemma flat_map_length_ext {A B C} (f : A -> list B) (g : A -> list C)
    (l : list A) :
  (forall x, length (f x) = length (g x)) ->
  length (flat_map f l) = length (flat_map g l).
Proof.
  intros H. induction l as [|x l IH]; simpl; [reflexivity|].
  rewrite !length_app, H, IH. reflexivity.
Qed.

Lemma connect_all_edge_count (active : list Tracker.Scan) :
  ConnectionGraph.edge_count (Tracker.connect_all active)
  = length (ConnectionGraph.same_type_pairs active).
Proof.
  change (Tracker.connect_all active)
    with (ConnectionGraph.connect_from active (enumerate active) []).
  rewrite connect_from_edge_count. simpl.
  unfold ConnectionGraph.same_type_pairs.
  apply flat_map_length_ext. intros [i a].
  unfold ConnectionGraph.partners. apply flat_map_length_ext. intros [j b].
  destruct (Nat.eqb i j); [reflexivity|].
  destruct (String.eqb _ _); reflexivity.
Qed.

(** C2. The connection graph built from any scan list at any time holds,
    for every two distinct positions of the surviving scans with equal
    hole type, an entry in the adjacency list of each of the two systems;
    every entry of every adjacency list comes from two distinct positions
    with equal hole type, so that the number of directed edges is the
    number of such ordered pairs (no scan is paired with itself, no two
    hole types are mixed); and when exactly three scans survive, all of one
    type and in three distinct systems, the graph has exactly 6 directed
    edges, two out of each system. *)
Theorem connection_graph_is_typed_clique
    (now : Tracker.datetime) (scans : list Tracker.Scan) :
  (forall i j a b,
     Tracker.active_wormholes now scans !! i = Some a ->
     Tracker.active_wormholes now scans !! j = Some b ->
     i <> j -> Tracker.holeType a = Tracker.holeType b ->
     exists la lb,
       OrderedDict.get (Tracker.system a)
         (Tracker.build_connection_graph now scans) = Some la
       /\ In (Tracker.system b, b) la
       /\ OrderedDict.get (Tracker.system b)
            (Tracker.build_connection_graph now scans) = Some lb
       /\ In (Tracker.system a, a) lb)
  /\ (forall k l x b,
        OrderedDict.get k (Tracker.build_connection_graph now scans) = Some l ->
        In (x, b) l ->
        exists i j a,
          i <> j
          /\ Tracker.active_wormholes now scans !! i = Some a
          /\ Tracker.active_wormholes now scans !! j = Some b
          /\ Tracker.system a = k /\ Tracker.system b = x
          /\ Tracker.holeType a = Tracker.holeType b)
  /\ ConnectionGraph.edge_count (Tracker.build_connection_graph now scans)
     = length (ConnectionGraph.same_type_pairs
                 (Tracker.active_wormholes now scans))
  /\ (forall s1 s2 s3,
        Tracker.active_wormholes now scans = [s1; s2; s3] ->
        Tracker.holeType s1 = Tracker.holeType s2 ->
        Tracker.holeType s2 = Tracker.holeType s3 ->
        Tracker.system s1 <> Tracker.system s2 ->
        Tracker.system s1 <> Tracker.system s3 ->
        Tracker.system s2 <> Tracker.system s3 ->
        ConnectionGraph.edge_count (Tracker.build_connection_graph now scans)
        = 6%nat
        /\ Tracker.build_connection_graph now scans
           = [(Tracker.system s1,
                 [(Tracker.system s2, s2); (Tracker.system s3, s3)]);
              (Tracker.system s2,
                 [(Tracker.system s1, s1); (Tracker.system s3, s3)]);
              (Tracker.system s3,
                 [(Tracker.system s1, s1); (Tracker.system s2, s2)])]).
Proof.
  unfold Tracker.build_connection_graph.
  generalize (Tracker.active_wormholes now scans) as active. intros active.
  split; [|split; [|split]].
  - intros i j a b Ha Hb Hij Ht.
    destruct (connect_all_edge active i j a b Ha Hb Hij Ht) as (la & Hla & Hina).
    destruct (connect_all_edge active j i b a Hb Ha (not_eq_sym Hij)
                (eq_sym Ht)) as (lb & Hlb & Hinb).
    exists la, lb. auto.
  - intros k l x b Hget Hin. eapply connect_all_edge_inv; eassumption.
  - apply connect_all_edge_count.
  - intros s1 s2 s3 -> Ht12 Ht23 H12 H13 H23.
    assert (Ht : forall a b, In a [s1; s2; s3] -> In b [s1; s2; s3] ->
                 String.eqb (Tracker.holeType a) (Tracker.holeType b) = true).
    { intros a b Ha Hb. apply String.eqb_eq. simpl in Ha, Hb.
      intuition (subst; congruence). }
    assert (E12 := proj2 (String.eqb_neq _ _) H12).
    assert (E13 := proj2 (String.eqb_neq _ _) H13).
    assert (E23 := proj2 (String.eqb_neq _ _) H23).
    assert (E21 := proj2 (String.eqb_neq _ _) (not_eq_sym H12)).
    assert (E31 := proj2 (String.eqb_neq _ _) (not_eq_sym H13)).
    assert (E32 := proj2 (String.eqb_neq _ _) (not_eq_sym H23)).
    split.
    + rewrite connect_all_edge_count.
      unfold ConnectionGraph.same_type_pairs. simpl.
      rewrite !Ht by (simpl; tauto). reflexivity.
    + unfold Tracker.connect_all, Tracker.connect_one. simpl.
      rewrite !Ht by (simpl; tauto).
      repeat (progress
                (simpl;
                 rewrite ?String.eqb_refl, ?E12, ?E13, ?E23, ?E21, ?E31, ?E32)).
      reflexivity.
Qed.

(** The three Barbican holes of the example give the directed clique on
    [X], [Y] and [Z]. *)
Lemma connection_graph_is_typed_clique_witness :
  ConnectionGraph.edge_count
    (Tracker.build_connection_graph 1000
       [Examples.barbican_X; Examples.barbican_Y; Examples.barbican_Z])
  = 6%nat.
Proof.
  destruct (connection_graph_is_typed_clique 1000
              [Examples.barbican_X; Examples.barbican_Y; Examples.barbican_Z])
    as (_ & _ & _ & H).
  apply (H Examples.barbican_X Examples.barbican_Y Examples.barbican_Z);
    try reflexivity; discriminate.
Defined.

Lemma active_wormholes_drop_none (now : Tracker.datetime)
    (scans : list Tracker.Scan) :
  Tracker.active_wormholes now
    (List.filter
       (fun s => negb (String.eqb (Tracker.holeType s) "None")) scans)
  = Tracker.active_wormholes now scans.
Proof.
  unfold Tracker.active_wormholes.
  induction scans as [|s scans IH]; simpl; [reflexivity|].
  unfold Tracker.keep_scan at 2.
  destruct (String.eqb (Tracker.holeType s) "None") eqn:E; simpl.
  - exact IH.
  - unfold Tracker.keep_scan at 1. rewrite E, IH. reflexivity.
Qed.

Lemma keep_scan_not_none (now : Tracker.datetime) (s : Tracker.Scan) :
  Tracker.keep_scan now s = true -> Tracker.holeType s <> "None".
Proof.
  unfold Tracker.keep_scan.
  destruct (String.eqb_spec (Tracker.holeType s) "None");
    [discriminate|auto].
Qed.

Lemma keep_scan_unparsed (now : Tracker.datetime) (s : Tracker.Scan) :
  Tracker.holeType s <> "None" -> Tracker.scannedAt s = None ->
  Tracker.keep_scan now s = true.
Proof.
  intros Hty Hat. unfold Tracker.keep_scan, Tracker.expired. rewrite Hat.
  destruct (String.eqb_spec (Tracker.holeType s) "None");
    [contradiction|reflexivity].
Qed.

(** C8. Scans with hole type [None] contribute nothing to the connection
    graph: the graph is the one built from the list without them, no
    [None] scan survives the filter, and both ends of every edge are holed
    scans.  A holed scan whose timestamp cannot be read is kept at every
    time: it survives the filter, its system is a key of the graph, and it
    is connected to every other surviving scan of its type. *)
Theorem none_dropped_unparsed_kept
    (now : Tracker.datetime) (scans : list Tracker.Scan) :
  Tracker.build_connection_graph now scans
  = Tracker.build_connection_graph now
      (List.filter
         (fun s => negb (String.eqb (Tracker.holeType s) "None")) scans)
  /\ (forall s, Tracker.holeType s = "None" ->
        ~ In s (Tracker.active_wormholes now scans))
  /\ (forall k l x b,
        OrderedDict.get k (Tracker.build_connection_graph now scans) = Some l ->
        In (x, b) l ->
        Tracker.holeType b <> "None"
        /\ exists a, In a scans /\ Tracker.system a = k
                     /\ Tracker.holeType a <> "None")
  /\ (forall s, In s scans -> Tracker.holeType s <> "None" ->
        Tracker.scannedAt s = None ->
        In s (Tracker.active_wormholes now scans)
        /\ In (Tracker.system s)
             (OrderedDict.keys (Tracker.build_connection_graph now scans))
        /\ forall i j b,
             Tracker.active_wormholes now scans !! i = Some s ->
             Tracker.active_wormholes now scans !! j = Some b ->
             i <> j -> Tracker.holeType s = Tracker.holeType b ->
             exists l,
               OrderedDict.get (Tracker.system s)
                 (Tracker.build_connection_graph now scans) = Some l
               /\ In (Tracker.system b, b) l).
Proof.
  split; [|split; [|split]].
  - unfold Tracker.build_connection_graph.
    rewrite active_wormholes_drop_none. reflexivity.
  - intros s Hty Hin. apply active_wormholes_In in Hin.
    destruct Hin as [_ Hk]. apply keep_scan_not_none in Hk. contradiction.
  - intros k l x b Hget Hin. unfold Tracker.build_connection_graph in Hget.
    destruct (connect_all_edge_inv _ _ _ _ _ Hget Hin)
      as (i & j & a & _ & Ha & Hb & Hk & _ & Ht).
    assert (Hia : In a (Tracker.active_wormholes now scans))
      by (apply list_elem_of_In, list_elem_of_lookup; eauto).
    assert (Hib : In b (Tracker.active_wormholes now scans))
      by (apply list_elem_of_In, list_elem_of_lookup; eauto).
    apply active_wormholes_In in Hia, Hib.
    destruct Hia as [Hia Hka]. destruct Hib as [_ Hkb].
    split; [eapply keep_scan_not_none; eassumption|].
    exists a. split; [exact Hia|]. split; [exact Hk|].
    eapply keep_scan_not_none; eassumption.
  - intros s Hin Hty Hat.
    assert (Hact : In s (Tracker.active_wormholes now scans)).
    { apply active_wormholes_In. split; [exact Hin|].
      apply keep_scan_unparsed; assumption. }
    split; [exact Hact|]. split.
    + unfold Tracker.build_connection_graph. apply connect_all_keys. eauto.
    + intros i j b Hi Hj Hij Ht. unfold Tracker.build_connection_graph.
      eapply connect_all_edge; eassumption.
Qed.

(** A hole whose timestamp is unreadable is still routed long after the
    others have expired. *)
Lemma none_dropped_unparsed_kept_witness :
  In Examples.barbican_Z
    (Tracker.active_wormholes (Tracker.hours 1000)
       [Examples.barbican_X; Examples.barbican_Y; Examples.barbican_Z])
  /\ ~ In Examples.barbican_X
        (Tracker.active_wormholes (Tracker.hours 1000)
           [Examples.barbican_X; Examples.barbican_Y; Examples.barbican_Z]).
Proof.
  destruct (none_dropped_unparsed_kept (Tracker.hours 1000)
              [Examples.barbican_X; Examples.barbican_Y; Examples.barbican_Z])
    as (_ & _ & _ & H).
  assert (Hin : In Examples.barbican_Z
                  [Examples.barbican_X; Examples.barbican_Y;
                   Examples.barbican_Z])
    by (right; right; left; reflexivity).
  assert (Hty : Tracker.holeType Examples.barbican_Z <> "None")
    by (simpl; discriminate).
  destruct (H Examples.barbican_Z Hin Hty eq_refl) as [Hkept _].
  split; [exact Hkept|].
  vm_compute. intros [E|[]]. discriminate.
Defined.

(** ** The static pathfinder *)

Lemma extract_min_Forall (P : Loader.entry -> Prop) (rest : list Loader.entry) :
  forall e m r,
    Loader.extract_min e rest = (m, r) ->
    P e -> Forall P rest -> P m /\ Forall P r.
Proof.
  induction rest as [|x xs IH]; intros e m r Hex He Hrest; simpl in Hex.
  - inversion Hex; subst. auto.
  - inversion Hrest as [|? ? Hx Hxs]; subst.
    destruct (Loader.entry_lt x e).
    + destruct (Loader.extract_min x xs) as [m' r'] eqn:E.
      inversion Hex; subst. destruct (IH _ _ _ E Hx Hxs). auto.
    + destruct (Loader.extract_min e xs) as [m' r'] eqn:E.
      inversion Hex; subst. destruct (IH _ _ _ E He Hxs). auto.
Qed.

Lemma heappop_Forall (P : Loader.entry -> Prop) (pq r : list Loader.entry)
    (m : Loader.entry) :
  Loader.heappop pq = Some (m, r) -> Forall P pq -> P m /\ Forall P r.
Proof.
  destruct pq as [|e rest]; simpl; [discriminate|].
  intros H HP. inversion H as [Hex]. inversion HP; subst.
  eapply extract_min_Forall; eassumption.
Qed.

Lemma explore_Forall (P : Loader.entry -> Prop) (step_cost cost : float)
    (path : list Z) (visited : gmap Z float) (ns : list Z) :
  (forall n, n ∈ ns -> P ((cost + step_cost)%float, n, (path ++ [n])%list)) ->
  forall pq, Forall P pq ->
    Forall P (Loader.explore step_cost cost path visited ns pq).
Proof.
  unfold Loader.explore. induction ns as [|n ns IH]; intros Hns pq Hpq.
  - exact Hpq.
  - simpl. apply IH.
    + intros n' Hn'. apply Hns. right. exact Hn'.
    + destruct (match visited !! n with Some _ => _ | None => _ end).
      * constructor; [|exact Hpq]. apply Hns. left.
      * exact Hpq.
Qed.

Section SearchInvariant.
Variables (self : Loader.EVESDELoader) (end_id max_jumps : Z)
  (use_jumpbridges : bool).
Variable P : Loader.entry -> Prop.
Hypothesis P_step :
  forall cost current_id path n step_cost,
    P (cost, current_id, path) ->
    len path <= max_jumps * 2 ->
    n ∈ Graph.neighbours self use_jumpbridges current_id ->
    P ((cost + step_cost)%float, n, (path ++ [n])%list).

(** A property of queue elements that every push preserves holds of the
    element on which the loop returns. *)
Lemma search_invariant (fuel : nat) :
  forall pq visited path,
    Forall P pq ->
    Loader.search fuel self end_id max_jumps use_jumpbridges pq visited
    = Return (Some path) ->
    exists cost, P (cost, end_id, path).
Proof.
  induction fuel as [|fuel IH]; intros pq visited path HP Hs; simpl in Hs;
    [discriminate|].
  destruct (Loader.heappop pq) as [[[[cost cur] p] pq']|] eqn:Hpop;
    [|discriminate].
  destruct (heappop_Forall P _ _ _ Hpop HP) as [Hm Hpq'].
  destruct (match visited !! cur with Some _ => _ | None => _ end).
  { eapply IH; eassumption. }
  destruct (Z.eqb_spec cur end_id) as [->|Hne].
  { inversion Hs; subst. eauto. }
  destruct (Z.ltb_spec (max_jumps * 2) (len p)) as [Hlong|Hshort].
  { eapply IH; eassumption. }
  eapply IH; [|exact Hs].
  assert (Hg : forall ns, Loader.system_jumps self !! cur = Some ns ->
               forall n, n ∈ ns ->
               n ∈ Graph.neighbours self use_jumpbridges cur).
  { intros ns E n Hn. unfold Graph.neighbours. rewrite E. simpl.
    apply elem_of_app. left. exact Hn. }
  assert (Hj : forall ns, use_jumpbridges = true ->
               Loader.jumpbridges self !! cur = Some ns ->
               forall n, n ∈ ns ->
               n ∈ Graph.neighbours self use_jumpbridges cur).
  { intros ns -> E n Hn. unfold Graph.neighbours. rewrite E. simpl.
    apply elem_of_app. right. exact Hn. }
  assert (Hgates : Forall P
            match Loader.system_jumps self !! cur with
            | Some ns => Loader.explore Loader.GATE_COST cost p
                           (<[cur := cost]> visited) ns pq'
            | None => pq'
            end).
  { destruct (Loader.system_jumps self !! cur) as [ns|] eqn:E; [|exact Hpq'].
    apply explore_Forall; [|exact Hpq'].
    intros n Hn. eapply P_step; eauto. }
  destruct use_jumpbridges; [|exact Hgates].
  destruct (Loader.jumpbridges self !! cur) as [ns|] eqn:E; [|exact Hgates].
  apply explore_Forall; [|exact Hgates].
  intros n Hn. eapply P_step; eauto.
Qed.

End SearchInvariant.

Lemma for_each_length {A B} (f : A -> outcome B) (l : list A) :
  forall ys, for_each f l = Return ys -> length ys = length l.
Proof.
  induction l as [|x l IH]; simpl; intros ys H.
  - inversion H. reflexivity.
  - destruct (f x) as [y| |]; simpl in H; try discriminate.
    destruct (for_each f l) as [ys'| |]; simpl in H; try discriminate.
    inversion H; subst. simpl. rewrite (IH ys' eq_refl). reflexivity.
Qed.

Lemma for_each_total {A B} (f : A -> outcome B) (l : list A) :
  (forall x, In x l -> exists y, f x = Return y) ->
  exists ys, for_each f l = Return ys.
Proof.
  induction l as [|x l IH]; simpl; intros H; [eauto|].
  destruct (H x (or_introl eq_refl)) as [y ->].
  destruct IH as [ys ->]; [intros; apply H; auto|]. simpl. eauto.
Qed.

(** The path returned by [find_path] has at most [2 * max_jumps] edges. *)
Lemma find_path_length (fuel : nat) (self : Loader.EVESDELoader)
    (start_system end_system : string) (max_jumps : Z)
    (use_jumpbridges : bool) (names : list string) :
  Loader.find_path fuel self start_system end_system max_jumps use_jumpbridges
  = Return (Some names) ->
  1 <= max_jumps <= 100 /\ 1 <= len names <= max_jumps * 2 + 1.
Proof.
  unfold Loader.find_path, SecurityValidator.validate_integer.
  destruct (SecurityValidator.validate_system_name start_system) as [s|];
    [|discriminate].
  destruct (SecurityValidator.validate_system_name end_system) as [e|];
    [|discriminate].
  destruct (Z.ltb_spec max_jumps 1); [discriminate|].
  destruct (Z.ltb_spec 100 max_jumps); [discriminate|].
  destruct (_ || _); [discriminate|].
  destruct (Loader.truthy_id (_ !! s)) as [start_id|]; [|discriminate].
  destruct (Loader.truthy_id (_ !! e)) as [end_id|]; [|discriminate].
  destruct (start_id =? end_id).
  { intros H1. inversion H1; subst. unfold len. simpl. lia. }
  destruct (Loader.search _ _ _ _ _ _ _) as [[path|]| |] eqn:Hs;
    simpl; try discriminate.
  destruct (for_each _ path) as [ns| |] eqn:Hn; simpl; try discriminate.
  intros H1. inversion H1; subst ns.
  apply for_each_length in Hn.
  destruct (search_invariant self end_id max_jumps use_jumpbridges
              (fun '(_, _, p) => 1 <= len p <= max_jumps * 2 + 1))
    with (fuel := fuel) (pq := [(0%float, start_id, [start_id])])
         (visited := (∅ : gmap Z float)) (path := path) as [c Hc].
  - intros cost cur p n sc Hp Hlen _. unfold len in *.
    rewrite length_app. simpl. lia.
  - constructor; [|constructor]. unfold len. simpl. lia.
  - exact Hs.
  - unfold len in *. rewrite Hn. lia.
Qed.

(** *** What the search returns is a route of the graph *)

Lemma is_walk_snoc (self : Loader.EVESDELoader) (use_jumpbridges : bool)
    (path : list Z) (a n : Z) :
  Graph.is_walk self use_jumpbridges path ->
  last path = Some a ->
  n ∈ Graph.neighbours self use_jumpbridges a ->
  Graph.is_walk self use_jumpbridges (path ++ [n])%list.
Proof.
  induction path as [|x [|y rest] IH]; intros Hw Hl Hn.
  - discriminate.
  - simpl in Hl. inversion Hl; subst. simpl. auto.
  - destruct Hw as [Hxy Hw]. split; [exact Hxy|].
    apply IH; [exact Hw| |exact Hn]. exact Hl.
Qed.

Lemma head_snoc {A} (path : list A) (x n : A) :
  head path = Some x -> head (path ++ [n])%list = Some x.
Proof. destruct path; [discriminate|auto]. Qed.

(** The path on which the loop returns starts where the search started,
    ends at the destination and follows gate or jumpbridge edges. *)
Lemma search_sound (fuel : nat) (self : Loader.EVESDELoader)
    (start_id end_id max_jumps : Z) (use_jumpbridges : bool)
    (path : list Z) :
  Loader.search fuel self end_id max_jumps use_jumpbridges
    [(0%float, start_id, [start_id])] ∅ = Return (Some path) ->
  Graph.walk_from_to self use_jumpbridges start_id end_id path.
Proof.
  intros Hs.
  destruct (search_invariant self end_id max_jumps use_jumpbridges
              (fun '(_, i, p) =>
                 Graph.walk_from_to self use_jumpbridges start_id i p))
    with (fuel := fuel) (pq := [(0%float, start_id, [start_id])])
         (visited := (∅ : gmap Z float)) (path := path) as [c Hc].
  - intros cost cur p n sc (Hh & Hl & Hw) _ Hn. repeat split.
    + apply head_snoc. exact Hh.
    + apply last_snoc.
    + eapply is_walk_snoc; eassumption.
  - constructor; [|constructor]. repeat split.
  - exact Hs.
  - exact Hc.
Qed.

(** *** The search loop terminates *)

Lemma search_fuel_mono (self : Loader.EVESDELoader) (end_id max_jumps : Z)
    (use_jumpbridges : bool) (fuel : nat) :
  forall pq visited r fuel',
    Loader.search fuel self end_id max_jumps use_jumpbridges pq visited
    = Return r ->
    (fuel <= fuel')%nat ->
    Loader.search fuel' self end_id max_jumps use_jumpbridges pq visited
    = Return r.
Proof.
  induction fuel as [|fuel IH]; intros pq visited r fuel' Hs Hle;
    [discriminate|].
  destruct fuel' as [|fuel']; [lia|]. simpl in *.
  destruct (Loader.heappop pq) as [[[[cost cur] p] pq']|]; [|exact Hs].
  destruct (match visited !! cur with Some _ => _ | None => _ end);
    [apply IH; [exact Hs|lia]|].
  destruct (cur =? end_id); [exact Hs|].
  destruct (max_jumps * 2 <? len p); apply IH; try exact Hs; lia.
Qed.

Lemma max_degree_spec (adj : gmap Z (list Z)) (k : Z) (ns : list Z) :
  adj !! k = Some ns -> (length ns <= Graph.max_degree adj)%nat.
Proof.
  intros H. unfold Graph.max_degree.
  assert (Hall : Forall (fun n => (n <= list_max
                    (map (fun kv => length (snd kv)) (map_to_list adj)))%nat)
                  (map (fun kv : Z * list Z => length (snd kv))
                     (map_to_list adj)))
    by (apply list_max_le; lia).
  rewrite List.Forall_forall in Hall. apply (Hall (length ns)).
  apply in_map_iff. exists (k, ns). split; [reflexivity|].
  apply list_elem_of_In, elem_of_map_to_list. exact H.
Qed.

Lemma weight_pos (self : Loader.EVESDELoader) (max_jumps : Z) (n : nat) :
  (1 <= Graph.weight self max_jumps n)%nat.
Proof.
  unfold Graph.weight.
  pose proof (Nat.pow_nonzero (S (Graph.degree_bound self))
                (Graph.limit max_jumps - n)). lia.
Qed.

Lemma weight_step (self : Loader.EVESDELoader) (max_jumps : Z) (n : nat) :
  Z.of_nat n <= max_jumps * 2 ->
  Graph.weight self max_jumps n
  = (S (Graph.degree_bound self) * Graph.weight self max_jumps (S n))%nat.
Proof.
  intros H. unfold Graph.weight, Graph.limit.
  replace (S (Z.to_nat (max_jumps * 2)) - n)%nat
    with (S (S (Z.to_nat (max_jumps * 2)) - S n))%nat by lia.
  apply Nat.pow_succ_r'.
Qed.

Lemma extract_min_weight (self : Loader.EVESDELoader) (max_jumps : Z)
    (rest : list Loader.entry) :
  forall e m r,
    Loader.extract_min e rest = (m, r) ->
    Graph.queue_weight self max_jumps (e :: rest)
    = (Graph.weight self max_jumps (length (snd m))
       + Graph.queue_weight self max_jumps r)%nat.
Proof.
  unfold Graph.queue_weight.
  induction rest as [|x xs IH]; intros e m r Hex; simpl in Hex.
  - inversion Hex; subst. reflexivity.
  - destruct (Loader.entry_lt x e).
    + destruct (Loader.extract_min x xs) as [m' r'] eqn:E.
      inversion Hex; subst. specialize (IH _ _ _ E). simpl in *. lia.
    + destruct (Loader.extract_min e xs) as [m' r'] eqn:E.
      inversion Hex; subst. specialize (IH _ _ _ E). simpl in *. lia.
Qed.

Lemma explore_weight (self : Loader.EVESDELoader) (max_jumps : Z)
    (step_cost cost : float) (path : list Z) (visited : gmap Z float)
    (ns : list Z) :
  forall pq,
    (Graph.queue_weight self max_jumps
       (Loader.explore step_cost cost path visited ns pq)
     <= Graph.queue_weight self max_jumps pq
        + length ns * Graph.weight self max_jumps (S (length path)))%nat.
Proof.
  unfold Loader.explore, Graph.queue_weight.
  induction ns as [|n ns IH]; intros pq; simpl; [lia|].
  etransitivity; [apply IH|].
  destruct (match visited !! n with Some _ => _ | None => _ end); simpl.
  - rewrite length_app. simpl. rewrite Nat.add_1_r. lia.
  - lia.
Qed.

(** With more fuel than the weight of the queue the loop does not run out
    of fuel. *)
Lemma search_terminates (self : Loader.EVESDELoader) (end_id max_jumps : Z)
    (use_jumpbridges : bool) (fuel : nat) :
  forall pq visited,
    (Graph.queue_weight self max_jumps pq < fuel)%nat ->
    exists r,
      Loader.search fuel self end_id max_jumps use_jumpbridges pq visited
      = Return r.
Proof.
  induction fuel as [|fuel IH]; intros pq visited Hfuel; [lia|].
  simpl. destruct pq as [|e rest]; [simpl; eauto|].
  cbn [Loader.heappop].
  destruct (Loader.extract_min e rest) as [[[cost cur] p] pq'] eqn:Hex.
  pose proof (extract_min_weight self max_jumps _ _ _ _ Hex) as Hw.
  cbn [snd] in Hw.
  pose proof (weight_pos self max_jumps (length p)) as Hpos.
  destruct (match visited !! cur with Some _ => _ | None => _ end);
    [apply IH; lia|].
  destruct (cur =? end_id); [eauto|].
  destruct (Z.ltb_spec (max_jumps * 2) (len p)) as [Hlong|Hshort];
    [apply IH; lia|].
  apply IH. unfold len in Hshort.
  rewrite (weight_step self max_jumps (length p) Hshort) in Hw.
  set (w := Graph.weight self max_jumps (S (length p))) in *.
  set (visited' := <[cur := cost]> visited).
  assert (Hg : exists g,
             (g <= Graph.max_degree (Loader.system_jumps self))%nat
             /\ (Graph.queue_weight self max_jumps
                   match Loader.system_jumps self !! cur with
                   | Some ns => Loader.explore Loader.GATE_COST cost p
                                  visited' ns pq'
                   | None => pq'
                   end
                 <= Graph.queue_weight self max_jumps pq' + g * w)%nat).
  { destruct (Loader.system_jumps self !! cur) as [ns|] eqn:E.
    - exists (length ns). split; [eapply max_degree_spec; exact E|].
      apply explore_weight.
    - exists 0%nat. split; lia. }
  destruct Hg as (g & Hg & Hgw).
  set (pq1 := match Loader.system_jumps self !! cur with
              | Some ns => _ | None => _ end) in *.
  assert (Hj : exists j,
             (j <= Graph.max_degree (Loader.jumpbridges self))%nat
             /\ (Graph.queue_weight self max_jumps
                   (if use_jumpbridges then
                      match Loader.jumpbridges self !! cur with
                      | Some ns => Loader.explore Loader.JUMPBRIDGE_COST cost
                                     p visited' ns pq1
                      | None => pq1
                      end
                    else pq1)
                 <= Graph.queue_weight self max_jumps pq1 + j * w)%nat).
  { destruct use_jumpbridges; [|exists 0%nat; split; lia].
    destruct (Loader.jumpbridges self !! cur) as [ns|] eqn:E.
    - exists (length ns). split; [eapply max_degree_spec; exact E|].
      apply explore_weight.
    - exists 0%nat. split; lia. }
  destruct Hj as (j & Hj & Hjw).
  assert (Hd : ((g + j) * w <= Graph.degree_bound self * w)%nat).
  { apply Nat.mul_le_mono_r. unfold Graph.degree_bound. lia. }
  pose proof (weight_pos self max_jumps (S (length p))) as Hwpos.
  fold w in Hwpos. lia.
Qed.

Lemma names_never_time_out (self : Loader.EVESDELoader) (path : list Z) :
  for_each (Loader.name_of self) path <> Timeout.
Proof.
  induction path as [|x path IH]; simpl; [discriminate|].
  assert (Hx : Loader.name_of self x <> Timeout).
  { unfold Loader.name_of.
    destruct (Loader.system_id_to_name self !! x); discriminate. }
  destruct (Loader.name_of self x); simpl; [|discriminate|contradiction].
  destruct (for_each (Loader.name_of self) path); simpl;
    [discriminate|discriminate|contradiction].
Qed.

(** [find_path] does not depend on the fuel once there is enough of it:
    the call returns or raises [KeyError]. *)
Lemma find_path_total (self : Loader.EVESDELoader)
    (start_system end_system : string) (max_jumps : Z)
    (use_jumpbridges : bool) :
  exists fuel,
    Loader.find_path fuel self start_system end_system max_jumps
      use_jumpbridges <> Timeout
    /\ forall fuel', (fuel <= fuel')%nat ->
         Loader.find_path fuel' self start_system end_system max_jumps
           use_jumpbridges
         = Loader.find_path fuel self start_system end_system max_jumps
             use_jumpbridges.
Proof.
  exists (S (S (Graph.weight self max_jumps 1))).
  unfold Loader.find_path, SecurityValidator.validate_integer.
  destruct (SecurityValidator.validate_system_name start_system) as [s|];
    [|split; [discriminate|reflexivity]].
  destruct (SecurityValidator.validate_system_name end_system) as [e|];
    [|split; [discriminate|reflexivity]].
  destruct (max_jumps <? 1); [split; [discriminate|reflexivity]|].
  destruct (100 <? max_jumps); [split; [discriminate|reflexivity]|].
  destruct (_ || _); [split; [discriminate|reflexivity]|].
  destruct (Loader.truthy_id (_ !! s)) as [start_id|];
    [|split; [discriminate|reflexivity]].
  destruct (Loader.truthy_id (_ !! e)) as [end_id|];
    [|split; [discriminate|reflexivity]].
  destruct (start_id =? end_id); [split; [discriminate|reflexivity]|].
  destruct (search_terminates self end_id max_jumps use_jumpbridges
              (S (S (Graph.weight self max_jumps 1)))
              [(0%float, start_id, [start_id])] ∅) as [r Hr].
  { unfold Graph.queue_weight. simpl. lia. }
  split.
  - rewrite Hr. simpl. destruct r as [path|]; [|discriminate].
    pose proof (names_never_time_out self path) as Hn.
    destruct (for_each _ path); simpl; [discriminate|discriminate|].
    contradiction.
  - intros fuel' Hle.
    rewrite (search_fuel_mono _ _ _ _ _ _ _ _ _ Hr Hle), Hr. reflexivity.
Qed.

(** *** The chain of gates *)

Lemma chain_jumps_lookup (n : nat) (i : Z) :
  Examples.chain_jumps n !! i
  = if (1 <=? i) && (i <=? Z.of_nat n) then Some [i + 1] else None.
Proof.
  induction n as [|n IH].
  - simpl. rewrite lookup_empty.
    destruct (Z.leb_spec 1 i), (Z.leb_spec i (Z.of_nat 0)); simpl;
      try reflexivity; lia.
  - cbn [Examples.chain_jumps].
    destruct (decide (Z.of_nat (S n) = i)) as [<-|Hne].
    + rewrite lookup_insert_eq.
      destruct (Z.leb_spec 1 (Z.of_nat (S n))),
               (Z.leb_spec (Z.of_nat (S n)) (Z.of_nat (S n)));
        simpl; try reflexivity; lia.
    + rewrite lookup_insert_ne, IH by exact Hne.
      destruct (Z.leb_spec 1 i), (Z.leb_spec i (Z.of_nat n)),
               (Z.leb_spec i (Z.of_nat (S n))); simpl; try reflexivity; lia.
Qed.

Lemma chain_id_to_name_lookup (last : Z) (k : nat) (i : Z) :
  1 <= i <= Z.of_nat k ->
  Examples.chain_id_to_name last k !! i = Some (Examples.chain_name last i).
Proof.
  induction k as [|k IH]; intros Hi; [lia|].
  cbn [Examples.chain_id_to_name].
  destruct (decide (Z.of_nat (S k) = i)) as [<-|Hne].
  - apply lookup_insert_eq.
  - rewrite lookup_insert_ne by exact Hne. apply IH. lia.
Qed.

Lemma chain_ids_snoc (k : nat) :
  (Examples.chain_ids k ++ [Z.of_nat k + 1])%list = Examples.chain_ids (S k).
Proof.
  unfold Examples.chain_ids. rewrite seq_S, map_app. simpl.
  do 2 f_equal. lia.
Qed.

Lemma chain_ids_length (k : nat) : length (Examples.chain_ids k) = k.
Proof. unfold Examples.chain_ids. rewrite length_map, length_seq. reflexivity. Qed.

(** The loop on the chain of [n] gates with budget [m]: started on the
    system [k] with the only queued path [1, ..., k], it walks to the end of
    the chain when [n <= 2 * m], and gives up on system [2 * m + 1]
    otherwise. *)
Lemma chain_search (n m : nat) (use_jumpbridges : bool) :
  forall (d k : nat) (cost : float) (visited : gmap Z float),
    (1 <= k)%nat -> (k + d = n + 1)%nat -> (k <= 2 * m + 1)%nat ->
    (forall j, Z.of_nat k <= j -> visited !! j = None) ->
    Loader.search (S (S d)) (Examples.chain_loader n) (Z.of_nat n + 1)
      (Z.of_nat m) use_jumpbridges
      [(cost, Z.of_nat k, Examples.chain_ids k)] visited
    = Return (if (n <=? 2 * m)%nat then Some (Examples.chain_ids (n + 1))
              else None).
Proof.
  induction d as [|d IH]; intros k cost visited Hk Hd Hm Hv.
  - assert (k = (n + 1)%nat) by lia. subst k.
    cbn [Loader.search Loader.heappop Loader.extract_min].
    rewrite Hv by lia.
    replace (Z.of_nat (n + 1) =? Z.of_nat n + 1) with true
      by (symmetry; apply Z.eqb_eq; lia).
    destruct (Nat.leb_spec n (2 * m)); [reflexivity|lia].
  - cbn [Loader.search Loader.heappop Loader.extract_min].
    rewrite Hv by lia.
    replace (Z.of_nat k =? Z.of_nat n + 1) with false
      by (symmetry; apply Z.eqb_neq; lia).
    unfold len. rewrite chain_ids_length.
    destruct (Z.ltb_spec (Z.of_nat m * 2) (Z.of_nat k)) as [Hlong|Hshort].
    + cbn [Loader.heappop].
      destruct (Nat.leb_spec n (2 * m)); [lia|reflexivity].
    + cbn [Examples.chain_loader Loader.system_jumps Loader.jumpbridges].
      rewrite chain_jumps_lookup.
      replace ((1 <=? Z.of_nat k) && (Z.of_nat k <=? Z.of_nat n)) with true
        by (symmetry; apply andb_true_iff; split; apply Z.leb_le; lia).
      rewrite lookup_empty.
      cbn [Loader.explore fold_left].
      rewrite lookup_insert_ne by lia. rewrite Hv by lia.
      unfold Loader.heappush.
      replace (if use_jumpbridges then _ else _)
        with [((cost + Loader.GATE_COST)%float, Z.of_nat k + 1,
               (Examples.chain_ids k ++ [Z.of_nat k + 1])%list)]
        by (destruct use_jumpbridges; reflexivity).
      rewrite chain_ids_snoc.
      replace (Z.of_nat k + 1) with (Z.of_nat (S k)) by lia.
      apply IH; try lia.
      intros j Hj. rewrite lookup_insert_ne by lia. apply Hv. lia.
Qed.

Lemma chain_names_total (n : nat) :
  exists names,
    for_each (Loader.name_of (Examples.chain_loader n))
      (Examples.chain_ids (n + 1)) = Return names.
Proof.
  apply for_each_total. intros x Hx. unfold Examples.chain_ids in Hx.
  apply in_map_iff in Hx. destruct Hx as (i & <- & Hi).
  apply in_seq in Hi. unfold Loader.name_of.
  cbn [Examples.chain_loader Loader.system_id_to_name].
  rewrite chain_id_to_name_lookup by lia. eauto.
Qed.

(** [find_path] on the chain, from its first to its last system. *)
Lemma chain_find_path (n m : nat) (use_jumpbridges : bool) :
  (1 <= n)%nat -> (1 <= m <= 100)%nat ->
  exists names,
    Loader.find_path (S (S n)) (Examples.chain_loader n) "S" "E"
      (Z.of_nat m) use_jumpbridges
    = Return (if (n <=? 2 * m)%nat then Some names else None)
    /\ length names = (n + 1)%nat.
Proof.
  intros Hn Hm. destruct (chain_names_total n) as [names Hnames].
  exists names. split; [|rewrite (for_each_length _ _ _ Hnames);
                          apply chain_ids_length].
  unfold Loader.find_path.
  change (SecurityValidator.validate_system_name "S") with (Some "S").
  change (SecurityValidator.validate_system_name "E") with (Some "E").
  unfold SecurityValidator.validate_integer.
  destruct (Z.ltb_spec (Z.of_nat m) 1); [lia|].
  destruct (Z.ltb_spec 100 (Z.of_nat m)); [lia|].
  cbn [String.eqb Ascii.eqb orb].
  assert (HS : Loader.system_name_to_id (Examples.chain_loader n) !! "S"
               = Some 1) by apply lookup_insert_eq.
  assert (HE : Loader.system_name_to_id (Examples.chain_loader n) !! "E"
               = Some (Z.of_nat n + 1)).
  { cbn [Examples.chain_loader Loader.system_name_to_id].
    rewrite lookup_insert_ne by discriminate. apply lookup_insert_eq. }
  assert (HT : Loader.truthy_id (Some (Z.of_nat n + 1))
               = Some (Z.of_nat n + 1)).
  { unfold Loader.truthy_id. destruct (Z.of_nat n + 1) eqn:E;
      [lia|reflexivity|reflexivity]. }
  rewrite HS, HE, HT.
  change (Loader.truthy_id (Some 1)) with (Some 1).
  cbv beta iota.
  replace (1 =? Z.of_nat n + 1) with false
    by (symmetry; apply Z.eqb_neq; lia).
  pose proof (chain_search n m use_jumpbridges n 1 0%float ∅) as Hs.
  change (Z.of_nat 1) with 1 in Hs.
  change (Examples.chain_ids 1) with [1] in Hs.
  rewrite Hs; try lia; [|intros; apply lookup_empty].
  destruct (n <=? 2 * m)%nat; simpl; [|reflexivity].
  rewrite Hnames. reflexivity.
Qed.

(** C5. Whatever [find_path] returns has at most [2 * max_jumps] edge
    traversals, and this allowance is reached: for every admissible
    [max_jumps], on the chain of [2 * max_jumps] gates the destination,
    which is [2 * max_jumps] traversals away and no fewer, is returned,
    while one more gate puts it out of reach.  The caller still passes
    [max_jumps] itself, which the validator confines to 1..100. *)
Theorem edge_allowance_is_twice_max_jumps :
  (forall fuel self start_system end_system max_jumps use_jumpbridges names,
     Loader.find_path fuel self start_system end_system max_jumps
       use_jumpbridges = Return (Some names) ->
     1 <= max_jumps <= 100 /\ Graph.edges names <= 2 * max_jumps)
  /\ (forall max_jumps use_jumpbridges,
        1 <= max_jumps <= 100 ->
        exists fuel names,
          Loader.find_path fuel
            (Examples.chain_loader (Z.to_nat (2 * max_jumps))) "S" "E"
            max_jumps use_jumpbridges = Return (Some names)
          /\ Graph.edges names = 2 * max_jumps)
  /\ (forall max_jumps use_jumpbridges,
        1 <= max_jumps <= 100 ->
        exists fuel,
          Loader.find_path fuel
            (Examples.chain_loader (Z.to_nat (2 * max_jumps + 1))) "S" "E"
            max_jumps use_jumpbridges = Return None).
Proof.
  split; [|split].
  - intros fuel self s e mj ujb names H.
    apply find_path_length in H. unfold Graph.edges. lia.
  - intros mj ujb Hmj.
    destruct (chain_find_path (Z.to_nat (2 * mj)) (Z.to_nat mj) ujb)
      as (names & Hfp & Hlen); try lia.
    rewrite Z2Nat.id in Hfp by lia.
    replace (Z.to_nat (2 * mj) <=? 2 * Z.to_nat mj)%nat with true in Hfp
      by (symmetry; apply Nat.leb_le; lia).
    eexists _, names. split; [exact Hfp|].
    unfold Graph.edges, len. rewrite Hlen. lia.
  - intros mj ujb Hmj.
    destruct (chain_find_path (Z.to_nat (2 * mj + 1)) (Z.to_nat mj) ujb)
      as (names & Hfp & Hlen); try lia.
    rewrite Z2Nat.id in Hfp by lia.
    replace (Z.to_nat (2 * mj + 1) <=? 2 * Z.to_nat mj)%nat with false in Hfp
      by (symmetry; apply Nat.leb_gt; lia).
    eexists. exact Hfp.
Qed.

Lemma edge_allowance_is_twice_max_jumps_witness :
  (exists fuel names,
     Loader.find_path fuel (Examples.chain_loader 4) "S" "E" 2 true
     = Return (Some names) /\ Graph.edges names = 4)
  /\ exists fuel,
       Loader.find_path fuel (Examples.chain_loader 5) "S" "E" 2 true
       = Return None.
Proof.
  destruct edge_allowance_is_twice_max_jumps as (_ & Hreach & Hmiss).
  split.
  - apply (Hreach 2 true). lia.
  - apply (Hmiss 2 true). lia.
Defined.

(** The four-gate chain with [max_jumps = 2], run. *)
Example chain_of_four_gates :
  Loader.find_path 10 (Examples.chain_loader 4) "S" "E" 2 true
  = Return (Some ["S"; "M"; "M"; "M"; "E"]).
Proof. vm_compute. reflexivity. Qed.

(** C1 (the code departs from it). With [max_jumps = 3] the search may
    follow paths of up to 6 edges.  In the first example universe the route
    [S - G - B - E] uses 3 gates, yet [find_path] answers [None]: the
    system [B] is first reached, more cheaply, over six jumpbridges; that
    path is at the length limit and is not extended, and the later, shorter
    arrival at [B] over the gates is discarded because [B] is already
    marked visited at a lower cost.  Without the jumpbridges the same call
    returns the three-gate route.  In the second universe, with
    [max_jumps = 2] (up to 4 edges), the same mechanism makes [find_path]
    return a route of 4 gates (cost 4.0) although [S - G - B - E] has
    3 gates (cost 3.0). *)
Theorem find_path_misses_route_within_bound :
  (Loader.find_path 100 Examples.bug_loader "S" "E" 3 true = Return None
   /\ Loader.find_path 100 Examples.bug_loader "S" "E" 3 false
      = Return (Some ["S"; "G"; "B"; "E"])
   /\ Graph.is_gate_walk Examples.bug_loader [1; 8; 7; 9]
   /\ Loader.system_name_to_id Examples.bug_loader !! "S" = Some 1
   /\ Loader.system_name_to_id Examples.bug_loader !! "E" = Some 9
   /\ Graph.edges [1; 8; 7; 9] = 3)
  /\ (Loader.find_path 100 Examples.detour_loader "S" "E" 2 true
      = Return (Some ["S"; "A1"; "A2"; "A3"; "E"])
      /\ Graph.is_gate_walk Examples.detour_loader [1; 8; 9; 10; 7]
      /\ Graph.is_gate_walk Examples.detour_loader [1; 6; 5; 7]
      /\ Loader.system_name_to_id Examples.detour_loader !! "S" = Some 1
      /\ Loader.system_name_to_id Examples.detour_loader !! "E" = Some 7
      /\ Graph.edges [1; 6; 5; 7] = 3
      /\ Graph.edges [1; 8; 9; 10; 7] = 4).
Proof.
  split.
  - split; [vm_compute; reflexivity|].
    split; [vm_compute; reflexivity|].
    split.
    + simpl. repeat split.
      * change ((8 : Z) ∈ [8]). set_solver.
      * change ((7 : Z) ∈ [1; 7]). set_solver.
      * change ((9 : Z) ∈ [8; 9]). set_solver.
    + repeat split; vm_compute; reflexivity.
  - split; [vm_compute; reflexivity|].
    split; [|split].
    + simpl. repeat split.
      * change ((8 : Z) ∈ [6; 8]). set_solver.
      * change ((9 : Z) ∈ [1; 9]). set_solver.
      * change ((10 : Z) ∈ [8; 10]). set_solver.
      * change ((7 : Z) ∈ [9; 7]). set_solver.
    + simpl. repeat split.
      * change ((6 : Z) ∈ [6; 8]). set_solver.
      * change ((5 : Z) ∈ [1; 5]). set_solver.
      * change ((7 : Z) ∈ [6; 7]). set_solver.
    + repeat split; vm_compute; reflexivity.
Qed.

(** ** The hybrid route composer *)

Lemma for_loop_invariant {A S} (P : S -> Prop) (body : S -> A -> outcome S)
    (l : list A) :
  (forall s x s', In x l -> P s -> body s x = Return s' -> P s') ->
  forall s s', P s -> for_loop body l s = Return s' -> P s'.
Proof.
  induction l as [|x l IH]; intros Hbody s s' Hs Hrun; simpl in Hrun.
  - inversion Hrun; subst. exact Hs.
  - destruct (body s x) as [s1| |] eqn:E; simpl in Hrun; try discriminate.
    apply (IH (fun s0 y s0' Hy => Hbody s0 y s0' (or_intror Hy)) s1 s');
      [|exact Hrun].
    eapply Hbody; [left; reflexivity|exact Hs|exact E].
Qed.

Lemma insert_by_score_Forall (P : Tracker.Route -> Prop) (r : Tracker.Route)
    (sorted : list Tracker.Route) :
  P r -> Forall P sorted -> Forall P (Tracker.insert_by_score r sorted).
Proof.
  intros Hr. induction 1 as [|x l Hx Hl IH]; simpl.
  - constructor; [exact Hr|constructor].
  - destruct (Tracker.score r <? Tracker.score x);
      repeat (constructor; try assumption).
Qed.

Lemma sort_by_score_Forall (P : Tracker.Route -> Prop)
    (routes : list Tracker.Route) :
  Forall P routes -> Forall P (Tracker.sort_by_score routes).
Proof.
  unfold Tracker.sort_by_score.
  assert (H : forall acc, Forall P acc -> Forall P routes ->
              Forall P (fold_left
                          (fun sorted r => Tracker.insert_by_score r sorted)
                          routes acc)).
  { induction routes as [|r routes IH]; intros acc Hacc Hrs; simpl.
    - exact Hacc.
    - inversion Hrs; subst. apply IH; [|assumption].
      apply insert_by_score_Forall; assumption. }
  apply H. constructor.
Qed.

Lemma Forall_snoc {A} (P : A -> Prop) (l : list A) (x : A) :
  Forall P l -> P x -> Forall P (l ++ [x])%list.
Proof.
  intros Hl Hx. apply Forall_app. split; [exact Hl|].
  constructor; [exact Hx|constructor].
Qed.

Section ComposerInvariant.
Variables (find_path : Tracker.pathfinder) (origin destination : string)
  (connections : Tracker.Connections) (max_gates_per_leg : Z).

Lemma single_hop_loop_ok (wormhole_systems : list string)
    (routes routes' : list Tracker.Route) :
  Forall Candidate.ok routes ->
  Tracker.single_hop_loop find_path origin destination connections
    max_gates_per_leg wormhole_systems routes = Return routes' ->
  Forall Candidate.ok routes'.
Proof.
  unfold Tracker.single_hop_loop. intros Hok.
  apply for_loop_invariant; [|exact Hok].
  intros rs entry_system rs' _ Hrs.
  destruct (find_path origin entry_system max_gates_per_leg)
    as [entry_path| |]; simpl; try discriminate.
  destruct (Tracker.truthy_path entry_path) as [ep|];
    [|intros E; inversion E; subst; exact Hrs].
  destruct (Tracker.subscript connections entry_system) as [exits| |];
    simpl; try discriminate.
  apply for_loop_invariant; [|exact Hrs].
  intros rs1 [exit_system wh_data] rs1' _ Hrs1.
  destruct (find_path exit_system destination max_gates_per_leg)
    as [exit_path| |]; simpl; try discriminate.
  destruct (Tracker.truthy_path exit_path) as [xp|];
    intros E; inversion E; subst; [|exact Hrs1].
  apply Forall_snoc; [exact Hrs1|].
  left. simpl. eauto.
Qed.

Lemma second_hop_loop_ok (entry_system : string) (entry_path : list string)
    (entry_gates : Z) (mid_system : string) (wh_data_1 : Tracker.Scan)
    (exits : list (string * Tracker.Scan))
    (routes routes' : list Tracker.Route) :
  Forall Candidate.ok routes ->
  Tracker.second_hop_loop find_path origin destination max_gates_per_leg
    entry_system entry_path entry_gates mid_system wh_data_1 exits routes
  = Return routes' ->
  Forall Candidate.ok routes'.
Proof.
  unfold Tracker.second_hop_loop. intros Hok.
  apply for_loop_invariant; [|exact Hok].
  intros rs [exit_system wh_data_2] rs' _ Hrs.
  destruct (String.eqb_spec exit_system entry_system) as [|Hexit];
    [intros E; inversion E; subst; exact Hrs|].
  destruct (String.eqb_spec (Tracker.holeType wh_data_1)
              (Tracker.holeType wh_data_2)) as [|Htype];
    [intros E; inversion E; subst; exact Hrs|].
  destruct (find_path exit_system destination max_gates_per_leg)
    as [exit_path| |]; simpl; try discriminate.
  destruct (Tracker.truthy_path exit_path) as [xp|];
    [|intros E; inversion E; subst; exact Hrs].
  destruct (find_path mid_system destination max_gates_per_leg)
    as [direct| |]; simpl; try discriminate.
  destruct (_ <? _); intros E; inversion E; subst; [exact Hrs|].
  apply Forall_snoc; [exact Hrs|].
  right. simpl. split; [reflexivity|].
  eexists _, _. simpl. repeat split; assumption.
Qed.

Lemma multi_hop_loop_ok (wormhole_systems : list string)
    (routes routes' : list Tracker.Route) :
  Forall Candidate.ok routes ->
  Tracker.multi_hop_loop find_path origin destination connections
    max_gates_per_leg wormhole_systems routes = Return routes' ->
  Forall Candidate.ok routes'.
Proof.
  unfold Tracker.multi_hop_loop. intros Hok.
  apply for_loop_invariant; [|exact Hok].
  intros rs entry_system rs' _ Hrs.
  destruct (find_path origin entry_system max_gates_per_leg)
    as [entry_path| |]; simpl; try discriminate.
  destruct (Tracker.truthy_path entry_path) as [ep|];
    [|intros E; inversion E; subst; exact Hrs].
  destruct (Tracker.subscript connections entry_system) as [mids| |];
    simpl; try discriminate.
  apply for_loop_invariant; [|exact Hrs].
  intros rs1 [mid_system wh_data_1] rs1' _ Hrs1.
  destruct (OrderedDict.mem mid_system connections); simpl;
    [|intros E; inversion E; subst; exact Hrs1].
  destruct (find_path mid_system mid_system 0) as [mid_path| |];
    simpl; try discriminate.
  destruct (Tracker.subscript connections mid_system) as [exits| |];
    simpl; try discriminate.
  apply second_hop_loop_ok. exact Hrs1.
Qed.

Lemma find_hybrid_routes_ok (routes : list Tracker.Route) :
  Tracker.find_hybrid_routes find_path origin destination connections
    max_gates_per_leg = Return routes ->
  Forall Candidate.ok routes.
Proof.
  unfold Tracker.find_hybrid_routes.
  destruct (Tracker.single_hop_loop _ _ _ _ _ _ _) as [r1| |] eqn:E1;
    simpl; try discriminate.
  destruct (Tracker.multi_hop_loop _ _ _ _ _ _ _) as [r2| |] eqn:E2;
    simpl; try discriminate.
  intros E; inversion E; subst. apply sort_by_score_Forall.
  eapply multi_hop_loop_ok; [|exact E2].
  eapply single_hop_loop_ok; [|exact E1]. constructor.
Qed.

End ComposerInvariant.

(** C6. Whatever pathfinder, origin, destination and connection graph the
    composer is run with, every two-hop candidate of its result chains two
    wormholes of different hole types, and the system [X] where it leaves
    the network differs from the system [E] where it entered. *)
Theorem two_hop_candidates_change_type
    (find_path : Tracker.pathfinder) (origin destination : string)
    (connections : Tracker.Connections) (max_gates_per_leg : Z)
    (routes : list Tracker.Route) :
  Tracker.find_hybrid_routes find_path origin destination connections
    max_gates_per_leg = Return routes ->
  forall r, In r routes ->
    (Tracker.wormhole_count r = 2 \/ length (Tracker.hops r) = 2%nat) ->
    exists h1 h2,
      Tracker.hops r = [h1; h2]
      /\ Tracker.holeType (Tracker.wormhole h1)
         <> Tracker.holeType (Tracker.wormhole h2)
      /\ Tracker.exit_system h2 <> Tracker.entry_system h1.
Proof.
  intros Hrun r Hr Htwo.
  apply find_hybrid_routes_ok in Hrun.
  rewrite Forall_forall in Hrun. specialize (Hrun r).
  destruct Hrun as [[Hc [h Hh]]|[_ (h1 & h2 & Hh & _ & Ht & Hx)]].
  - apply list_elem_of_In. exact Hr.
  - rewrite Hh in Htwo. simpl in Htwo. destruct Htwo; [lia|discriminate].
  - eauto.
Qed.

Lemma two_hop_candidates_change_type_witness :
  exists r h1 h2,
    Tracker.find_hybrid_routes Examples.hop_pathfinder "O" "D"
      (Tracker.build_connection_graph 0 Examples.hop_scans) 15
    = Return [r]
    /\ Tracker.hops r = [h1; h2]
    /\ Tracker.holeType (Tracker.wormhole h1) = "Barbican"
    /\ Tracker.holeType (Tracker.wormhole h2) = "Conflux"
    /\ Tracker.holeType (Tracker.wormhole h1)
       <> Tracker.holeType (Tracker.wormhole h2)
    /\ Tracker.exit_system h2 <> Tracker.entry_system h1.
Proof.
  destruct (Tracker.find_hybrid_routes Examples.hop_pathfinder "O" "D"
              (Tracker.build_connection_graph 0 Examples.hop_scans) 15)
    as [[|r [|]]| |] eqn:E; try (vm_compute in E; discriminate).
  destruct (two_hop_candidates_change_type _ _ _ _ _ _ E r)
    as (h1 & h2 & Hh & Ht & Hx).
  - left. reflexivity.
  - left. vm_compute in E. inversion E. reflexivity.
  - exists r, h1, h2. split; [reflexivity|]. split; [exact Hh|].
    vm_compute in E. inversion E; subst r. inversion Hh; subst h1 h2.
    repeat split; try reflexivity; assumption.
Defined.

(** C9. Two distinct surviving scans of the same hole type logged in the
    same system give that system an adjacency entry whose destination is
    the system itself; this happens for the two Barbican scans of the
    example, logged in [X], and the composer then emits a one-hop
    candidate that enters and leaves the wormhole network in [X]. *)
Theorem same_system_scans_give_self_loop :
  (forall now scans i j a b,
     Tracker.active_wormholes now scans !! i = Some a ->
     Tracker.active_wormholes now scans !! j = Some b ->
     i <> j -> Tracker.holeType a = Tracker.holeType b ->
     Tracker.system a = Tracker.system b ->
     exists l,
       OrderedDict.get (Tracker.system a)
         (Tracker.build_connection_graph now scans) = Some l
       /\ In (Tracker.system a, b) l)
  /\ Examples.loop_scan_1 <> Examples.loop_scan_2
  /\ Tracker.active_wormholes 0 [Examples.loop_scan_1; Examples.loop_scan_2]
     = [Examples.loop_scan_1; Examples.loop_scan_2]
  /\ Tracker.build_connection_graph 0
       [Examples.loop_scan_1; Examples.loop_scan_2]
     = [("X", [("X", Examples.loop_scan_2); ("X", Examples.loop_scan_1)])]
  /\ exists routes r h,
       Tracker.find_hybrid_routes Examples.loop_pathfinder "O" "D"
         (Tracker.build_connection_graph 0
            [Examples.loop_scan_1; Examples.loop_scan_2]) 15
       = Return routes
       /\ In r routes
       /\ Tracker.wormhole_count r = 1
       /\ Tracker.hops r = [h]
       /\ Tracker.entry_system h = "X"
       /\ Tracker.exit_system h = "X".
Proof.
  split; [|split; [|split; [|split]]].
  - intros now scans i j a b Ha Hb Hij Ht Hs.
    unfold Tracker.build_connection_graph.
    destruct (connect_all_edge _ i j a b Ha Hb Hij Ht) as (l & Hl & Hin).
    exists l. split; [exact Hl|]. rewrite Hs. exact Hin.
  - discriminate.
  - reflexivity.
  - reflexivity.
  - eexists _, _, _. split; [vm_compute; reflexivity|].
    split; [left; reflexivity|]. repeat split.
Qed.

(** * Further properties of the code *)

(** ** The static pathfinder, continued *)

Lemma for_each_names (self : Loader.EVESDELoader) (path : list Z) :
  forall names,
    for_each (Loader.name_of self) path = Return names ->
    Forall2 (fun i n => Loader.system_id_to_name self !! i = Some n)
      path names.
Proof.
  induction path as [|x path IH]; simpl; intros names H.
  - inversion H. constructor.
  - destruct (Loader.name_of self x) as [n| |] eqn:E; simpl in H;
      try discriminate.
    destruct (for_each (Loader.name_of self) path) as [ns| |];
      simpl in H; try discriminate.
    inversion H; subst. constructor; [|apply IH; reflexivity].
    unfold Loader.name_of in E.
    destruct (Loader.system_id_to_name self !! x); inversion E. reflexivity.
Qed.

Lemma truthy_id_Some (i : option Z) (k : Z) :
  Loader.truthy_id i = Some k <-> i = Some k /\ k <> 0.
Proof.
  unfold Loader.truthy_id. destruct i as [[|p|p]|].
  - split; [discriminate|]. intros [H H0]. inversion H; subst. congruence.
  - split; [|tauto]. intros H. inversion H; subst. split; [reflexivity|lia].
  - split; [|tauto]. intros H. inversion H; subst. split; [reflexivity|lia].
  - split; [discriminate|]. intros [H _]. discriminate.
Qed.

(** X1. What [find_path] returns is a route of the loaded graph.  Both
    names pass validation and resolve to non-zero system ids.  If the two
    ids are equal the answer is the stripped start name alone; otherwise
    the answer lists the names of a sequence of system ids that starts at
    the start id, ends at the end id and follows, at every step, a gate
    edge or (when [use_jumpbridges] is set) a jumpbridge edge. *)
Theorem find_path_returns_a_route (fuel : nat) (self : Loader.EVESDELoader)
    (start_system end_system : string) (max_jumps : Z)
    (use_jumpbridges : bool) (names : list string) :
  Loader.find_path fuel self start_system end_system max_jumps use_jumpbridges
  = Return (Some names) ->
  exists s e start_id end_id,
    SecurityValidator.validate_system_name start_system = Some s
    /\ SecurityValidator.validate_system_name end_system = Some e
    /\ Loader.system_name_to_id self !! s = Some start_id
    /\ Loader.system_name_to_id self !! e = Some end_id
    /\ start_id <> 0 /\ end_id <> 0
    /\ ((start_id = end_id /\ names = [s])
        \/ (start_id <> end_id
            /\ exists path,
                 Graph.walk_from_to self use_jumpbridges start_id end_id path
                 /\ Forall2
                      (fun i n => Loader.system_id_to_name self !! i = Some n)
                      path names)).
Proof.
  unfold Loader.find_path.
  destruct (SecurityValidator.validate_system_name start_system) as [s|];
    [|discriminate].
  destruct (SecurityValidator.validate_system_name end_system) as [e|];
    [|discriminate].
  destruct (SecurityValidator.validate_integer _ _ _) as [mj|];
    [|discriminate].
  destruct (_ || _); [discriminate|].
  destruct (Loader.truthy_id (_ !! s)) as [start_id|] eqn:Hs;
    [|discriminate].
  destruct (Loader.truthy_id (_ !! e)) as [end_id|] eqn:He;
    [|discriminate].
  apply truthy_id_Some in Hs, He. destruct Hs as [Hs Hs0], He as [He He0].
  intros H. exists s, e, start_id, end_id.
  repeat (split; [assumption || reflexivity|]).
  destruct (Z.eqb_spec start_id end_id) as [Heq|Hne].
  - left. inversion H. auto.
  - right. split; [exact Hne|].
    destruct (Loader.search _ _ _ _ _ _ _) as [[path|]| |] eqn:Hsearch;
      simpl in H; try discriminate.
    destruct (for_each _ path) as [ns| |] eqn:Hn; simpl in H;
      try discriminate.
    inversion H; subst ns. exists path. split.
    + eapply search_sound. exact Hsearch.
    + apply for_each_names. exact Hn.
Qed.

Lemma find_path_returns_a_route_witness :
  exists path,
    Graph.walk_from_to Examples.bug_loader false 1 9 path
    /\ Forall2
         (fun i n =>
            Loader.system_id_to_name Examples.bug_loader !! i = Some n)
         path ["S"; "G"; "B"; "E"].
Proof.
  destruct (find_path_returns_a_route 100 Examples.bug_loader "S" "E" 3
              false ["S"; "G"; "B"; "E"])
    as (s & e & a & b & Hs & He & Ha & Hb & _ & _ & H).
  - vm_compute. reflexivity.
  - vm_compute in Hs, He. inversion Hs; subst s. inversion He; subst e.
    vm_compute in Ha, Hb. inversion Ha; subst a. inversion Hb; subst b.
    destruct H as [[E _]|[_ H]]; [discriminate|exact H].
Defined.

(** X2. The search of [find_path] terminates on every graph and for every
    input: from some amount of fuel on, the modelled call returns a value
    or raises [KeyError], never runs out of fuel, and its outcome no longer
    depends on the fuel. *)
Theorem find_path_terminates (self : Loader.EVESDELoader)
    (start_system end_system : string) (max_jumps : Z)
    (use_jumpbridges : bool) :
  exists fuel,
    forall fuel', (fuel <= fuel')%nat ->
      Loader.find_path fuel' self start_system end_system max_jumps
        use_jumpbridges <> Timeout
      /\ Loader.find_path fuel' self start_system end_system max_jumps
           use_jumpbridges
         = Loader.find_path fuel self start_system end_system max_jumps
             use_jumpbridges.
Proof.
  destruct (find_path_total self start_system end_system max_jumps
              use_jumpbridges) as (fuel & Hne & Hstable).
  exists fuel. intros fuel' Hle. rewrite (Hstable fuel' Hle).
  split; [exact Hne|reflexivity].
Qed.

(** X3. If the destination cannot be reached from the start over the
    edges in use, [find_path] answers [None]: for valid names resolving to
    distinct non-zero ids and [max_jumps] within 1..100, when no sequence
    of edges leads from the start id to the end id the call returns [None]
    as soon as it has enough fuel. *)
Theorem find_path_unreachable (self : Loader.EVESDELoader)
    (start_system end_system s e : string) (start_id end_id max_jumps : Z)
    (use_jumpbridges : bool) :
  SecurityValidator.validate_system_name start_system = Some s ->
  SecurityValidator.validate_system_name end_system = Some e ->
  s <> "" -> e <> "" ->
  Loader.system_name_to_id self !! s = Some start_id ->
  Loader.system_name_to_id self !! e = Some end_id ->
  start_id <> 0 -> end_id <> 0 -> start_id <> end_id ->
  1 <= max_jumps <= 100 ->
  (forall path,
     ~ Graph.walk_from_to self use_jumpbridges start_id end_id path) ->
  exists fuel,
    forall fuel', (fuel <= fuel')%nat ->
      Loader.find_path fuel' self start_system end_system max_jumps
        use_jumpbridges = Return None.
Proof.
  intros Hs He Hs1 He1 Hsid Heid Hs0 He0 Hne Hmj Hnowalk.
  destruct (search_terminates self end_id max_jumps use_jumpbridges
              (S (S (Graph.weight self max_jumps 1)))
              [(0%float, start_id, [start_id])] ∅) as [r Hr].
  { unfold Graph.queue_weight. simpl. lia. }
  exists (S (S (Graph.weight self max_jumps 1))). intros fuel' Hle.
  pose proof (search_fuel_mono _ _ _ _ _ _ _ _ _ Hr Hle) as Hr'.
  destruct r as [path|].
  { exfalso. apply (Hnowalk path). eapply search_sound. exact Hr. }
  unfold Loader.find_path, SecurityValidator.validate_integer.
  rewrite Hs, He.
  destruct (Z.ltb_spec max_jumps 1); [lia|].
  destruct (Z.ltb_spec 100 max_jumps); [lia|].
  apply String.eqb_neq in Hs1, He1. rewrite Hs1, He1. simpl orb. cbv iota.
  rewrite Hsid, Heid.
  replace (Loader.truthy_id (Some start_id)) with (Some start_id)
    by (symmetry; apply truthy_id_Some; auto).
  replace (Loader.truthy_id (Some end_id)) with (Some end_id)
    by (symmetry; apply truthy_id_Some; auto).
  apply Z.eqb_neq in Hne. rewrite Hne, Hr'. reflexivity.
Qed.

Lemma hop_loader_walks_stay (path : list Z) :
  forall a b,
    a = 1 \/ a = 2 ->
    Graph.walk_from_to Examples.hop_loader true a b path ->
    b = 1 \/ b = 2.
Proof.
  assert (N1 : Graph.neighbours Examples.hop_loader true 1 = [2])
    by (vm_compute; reflexivity).
  assert (N2 : Graph.neighbours Examples.hop_loader true 2 = [1])
    by (vm_compute; reflexivity).
  induction path as [|x [|y rest] IH]; intros a b Ha (Hh & Hl & Hw).
  - discriminate.
  - simpl in Hh, Hl. inversion Hh; inversion Hl; subst. exact Ha.
  - simpl in Hh. inversion Hh; subst x. destruct Hw as [Hy Hw].
    apply (IH y b).
    + destruct Ha as [->| ->]; [rewrite N1 in Hy|rewrite N2 in Hy];
        apply list_elem_of_In in Hy; simpl in Hy; intuition lia.
    + repeat split; [exact Hl|exact Hw].
Qed.

Lemma find_path_unreachable_witness :
  exists fuel,
    forall fuel', (fuel <= fuel')%nat ->
      Loader.find_path fuel' Examples.hop_loader "O" "D" 15 true
      = Return None.
Proof.
  apply (find_path_unreachable Examples.hop_loader "O" "D" "O" "D" 1 5 15
           true); try reflexivity; try discriminate; try lia.
  intros path Hw.
  destruct (hop_loader_walks_stay path 1 5 (or_introl eq_refl) Hw);
    discriminate.
Defined.

(** X4. A route from a system to itself is the one-element path: when the
    name passes validation, is not blank, resolves to a non-zero id and
    [max_jumps] lies within 1..100, [find_path] returns the stripped name
    alone, whatever the graph and without entering the search loop. *)
Theorem find_path_same_system (fuel : nat) (self : Loader.EVESDELoader)
    (system s : string) (system_id max_jumps : Z) (use_jumpbridges : bool) :
  SecurityValidator.validate_system_name system = Some s ->
  s <> "" ->
  Loader.system_name_to_id self !! s = Some system_id ->
  system_id <> 0 ->
  1 <= max_jumps <= 100 ->
  Loader.find_path fuel self system system max_jumps use_jumpbridges
  = Return (Some [s]).
Proof.
  intros Hs Hs1 Hid H0 Hmj.
  unfold Loader.find_path, SecurityValidator.validate_integer. rewrite Hs.
  destruct (Z.ltb_spec max_jumps 1); [lia|].
  destruct (Z.ltb_spec 100 max_jumps); [lia|].
  apply String.eqb_neq in Hs1. rewrite Hs1. simpl orb. cbv iota.
  rewrite Hid.
  replace (Loader.truthy_id (Some system_id)) with (Some system_id)
    by (symmetry; apply truthy_id_Some; auto).
  rewrite Z.eqb_refl. reflexivity.
Qed.

Lemma find_path_same_system_witness :
  Loader.find_path 0 Examples.hop_loader " Y " " Y " 5 true
  = Return (Some ["Y"]).
Proof.
  apply (find_path_same_system 0 Examples.hop_loader " Y " "Y" 3 5 true);
    try reflexivity; try discriminate; lia.
Defined.

(** X5. [find_path] answers [None], without searching, when [max_jumps] is
    outside 1..100 (in particular for [max_jumps = 0], even from a system
    to itself), when a name fails validation or is blank after stripping,
    and when a name is unknown or resolves to the id 0, which Python
    treats as false. *)
Theorem find_path_rejects (fuel : nat) (self : Loader.EVESDELoader)
    (start_system end_system : string) (max_jumps : Z)
    (use_jumpbridges : bool) :
  max_jumps < 1 \/ 100 < max_jumps
  \/ (forall s, SecurityValidator.validate_system_name start_system = Some s
        -> s = "" \/ Loader.system_name_to_id self !! s = None
           \/ Loader.system_name_to_id self !! s = Some 0)
  \/ (forall e, SecurityValidator.validate_system_name end_system = Some e
        -> e = "" \/ Loader.system_name_to_id self !! e = None
           \/ Loader.system_name_to_id self !! e = Some 0) ->
  Loader.find_path fuel self start_system end_system max_jumps use_jumpbridges
  = Return None.
Proof.
  intros H. unfold Loader.find_path, SecurityValidator.validate_integer.
  destruct (SecurityValidator.validate_system_name start_system) as [s|];
    [|reflexivity].
  destruct (SecurityValidator.validate_system_name end_system) as [e|];
    [|reflexivity].
  destruct (Z.ltb_spec max_jumps 1); [reflexivity|].
  destruct (Z.ltb_spec 100 max_jumps); [reflexivity|].
  destruct (String.eqb_spec s "") as [->|Hs]; [reflexivity|].
  destruct (String.eqb_spec e "") as [->|He]; [reflexivity|].
  simpl orb. cbv iota.
  destruct H as [H|[H|[H|H]]]; try lia.
  - destruct (H s eq_refl) as [E|[E|E]]; [contradiction| |];
      rewrite E; reflexivity.
  - destruct (H e eq_refl) as [E|[E|E]]; [contradiction| |];
      rewrite E; simpl;
      destruct (Loader.truthy_id (Loader.system_name_to_id self !! s));
      reflexivity.
Qed.

Lemma find_path_rejects_witness :
  Loader.find_path 100 Examples.hop_loader "Y" "Y" 0 true = Return None
  /\ Loader.find_path 100 Examples.hop_loader "O" "X_1" 5 true = Return None.
Proof.
  split.
  - apply find_path_rejects. left. lia.
  - apply find_path_rejects. right. right. right.
    intros e He. vm_compute in He. discriminate.
Defined.

(** ** The connection graph, continued *)

Lemma od_keys_update {V} (k : string) (f : V -> V) (d : OrderedDict.t V) :
  OrderedDict.keys (OrderedDict.update k f d) = OrderedDict.keys d.
Proof.
  unfold OrderedDict.keys. induction d as [|[k0 v0] d IH]; simpl;
    [reflexivity|].
  destruct (String.eqb k k0); simpl; [reflexivity|]. rewrite IH. reflexivity.
Qed.

Lemma od_keys_setdefault {V} (k : string) (v : V) (d : OrderedDict.t V) :
  OrderedDict.keys (OrderedDict.setdefault k v d)
  = if OrderedDict.mem k d then OrderedDict.keys d
    else (OrderedDict.keys d ++ [k])%list.
Proof.
  unfold OrderedDict.keys, OrderedDict.mem.
  induction d as [|[k0 v0] d IH]; simpl; [reflexivity|].
  destruct (String.eqb k k0); simpl; [reflexivity|]. rewrite IH.
  destruct (OrderedDict.get k d); reflexivity.
Qed.

Lemma od_keys_setdefault_NoDup {V} (k : string) (v : V)
    (d : OrderedDict.t V) :
  List.NoDup (OrderedDict.keys d) ->
  List.NoDup (OrderedDict.keys (OrderedDict.setdefault k v d)).
Proof.
  intros Hnd. rewrite od_keys_setdefault.
  destruct (OrderedDict.mem k d) eqn:E; [exact Hnd|].
  apply List.NoDup_app; [exact Hnd| |].
  - constructor; [simpl; tauto|constructor].
  - intros x Hx [Hk|[]]. subst x.
    apply od_get_keys in Hx. apply od_mem_get in Hx. congruence.
Qed.

Lemma connect_from_keys_NoDup (active : list Tracker.Scan)
    (L : list (nat * Tracker.Scan)) :
  forall conn,
    List.NoDup (OrderedDict.keys conn) ->
    List.NoDup
      (OrderedDict.keys (ConnectionGraph.connect_from active L conn)).
Proof.
  induction L as [|[i a] L IH]; intros conn Hnd; [exact Hnd|].
  unfold ConnectionGraph.connect_from in *. simpl fold_left. apply IH.
  rewrite connect_one_spec, od_keys_update.
  apply od_keys_setdefault_NoDup. exact Hnd.
Qed.

(** X6. The keys of the connection graph are exactly the systems of the
    surviving scans, each listed once, whether or not the scan has a
    partner of its type; so the graph is the empty dictionary, which makes
    the caller fall back to the direct route, exactly when no scan
    survives. *)
Theorem connection_graph_keys
    (now : Tracker.datetime) (scans : list Tracker.Scan) :
  List.NoDup (OrderedDict.keys (Tracker.build_connection_graph now scans))
  /\ (forall k,
        In k (OrderedDict.keys (Tracker.build_connection_graph now scans))
        <-> exists a, In a (Tracker.active_wormholes now scans)
                      /\ Tracker.system a = k)
  /\ (Tracker.build_connection_graph now scans = []
      <-> Tracker.active_wormholes now scans = []).
Proof.
  unfold Tracker.build_connection_graph.
  generalize (Tracker.active_wormholes now scans) as active. intros active.
  split; [|split].
  - change (Tracker.connect_all active)
      with (ConnectionGraph.connect_from active (enumerate active) []).
    apply connect_from_keys_NoDup. constructor.
  - intros k. apply connect_all_keys.
  - split.
    + intros Hg. destruct active as [|a rest]; [reflexivity|]. exfalso.
      assert (Hk : In (Tracker.system a)
                     (OrderedDict.keys (Tracker.connect_all (a :: rest))))
        by (apply connect_all_keys; exists a; simpl; auto).
      rewrite Hg in Hk. exact Hk.
    + intros ->. reflexivity.
Qed.

(** ** The composer, continued *)

Lemma insert_by_score_sorted (r : Tracker.Route)
    (sorted : list Tracker.Route) :
  StronglySorted Candidate.score_le sorted ->
  StronglySorted Candidate.score_le (Tracker.insert_by_score r sorted).
Proof.
  induction 1 as [|x l Hl IH Hx]; simpl.
  - constructor; [constructor|constructor].
  - destruct (Z.ltb_spec (Tracker.score r) (Tracker.score x)) as [Hlt|Hge].
    + constructor; [constructor; assumption|].
      constructor; [unfold Candidate.score_le; lia|].
      eapply List.Forall_impl; [|exact Hx].
      unfold Candidate.score_le. intros; lia.
    + constructor; [exact IH|].
      rewrite List.Forall_forall. intros y Hy.
      assert (HF : Forall (Candidate.score_le x)
                     (Tracker.insert_by_score r l)).
      { apply insert_by_score_Forall; [exact Hge|exact Hx]. }
      rewrite List.Forall_forall in HF. apply HF. exact Hy.
Qed.

Lemma insert_by_score_perm (r : Tracker.Route) (sorted : list Tracker.Route) :
  Permutation (r :: sorted) (Tracker.insert_by_score r sorted).
Proof.
  induction sorted as [|x l IH]; simpl; [reflexivity|].
  destruct (Tracker.score r <? Tracker.score x); [reflexivity|].
  rewrite perm_swap. constructor. exact IH.
Qed.

Lemma sort_by_score_sorted_perm (routes : list Tracker.Route) :
  StronglySorted Candidate.score_le (Tracker.sort_by_score routes)
  /\ Permutation routes (Tracker.sort_by_score routes).
Proof.
  unfold Tracker.sort_by_score.
  assert (H : forall acc,
            StronglySorted Candidate.score_le acc ->
            StronglySorted Candidate.score_le
              (fold_left (fun sorted r => Tracker.insert_by_score r sorted)
                 routes acc)
            /\ Permutation (routes ++ acc)%list
                 (fold_left (fun sorted r => Tracker.insert_by_score r sorted)
                    routes acc)).
  { induction routes as [|r routes IH]; intros acc Hacc; simpl.
    - split; [exact Hacc|reflexivity].
    - destruct (IH (Tracker.insert_by_score r acc)) as [Hs Hp];
        [apply insert_by_score_sorted; exact Hacc|].
      split; [exact Hs|]. etransitivity; [|exact Hp].
      rewrite <- insert_by_score_perm.
      apply Permutation_middle. }
  destruct (H []) as [Hs Hp]; [constructor|].
  rewrite app_nil_r in Hp. split; assumption.
Qed.

(** X7. The candidates come back ordered by score, lowest first: every
    candidate of the result scores no more than each candidate after it,
    and the result holds exactly the candidates that the one-hop loop and
    then the two-hop loop produced, none lost and none added. *)
Theorem routes_sorted_by_score
    (find_path : Tracker.pathfinder) (origin destination : string)
    (connections : Tracker.Connections) (max_gates_per_leg : Z)
    (routes : list Tracker.Route) :
  Tracker.find_hybrid_routes find_path origin destination connections
    max_gates_per_leg = Return routes ->
  StronglySorted Candidate.score_le routes
  /\ exists one_hop both,
       Tracker.single_hop_loop find_path origin destination connections
         max_gates_per_leg (OrderedDict.keys connections) [] = Return one_hop
       /\ Tracker.multi_hop_loop find_path origin destination connections
            max_gates_per_leg (OrderedDict.keys connections) one_hop
          = Return both
       /\ Permutation both routes.
Proof.
  unfold Tracker.find_hybrid_routes.
  destruct (Tracker.single_hop_loop _ _ _ _ _ _ _) as [r1| |] eqn:E1;
    simpl; try discriminate.
  destruct (Tracker.multi_hop_loop _ _ _ _ _ _ _) as [r2| |] eqn:E2;
    simpl; try discriminate.
  intros E. inversion E; subst.
  destruct (sort_by_score_sorted_perm r2) as [Hs Hp].
  split; [exact Hs|]. exists r1, r2. auto.
Qed.

Lemma routes_sorted_by_score_witness :
  exists a b,
    Tracker.find_hybrid_routes Examples.loop_pathfinder "O" "D"
      (Tracker.build_connection_graph 0
         [Examples.loop_scan_1; Examples.loop_scan_2]) 15
    = Return [a; b]
    /\ Tracker.score a = -3 /\ Tracker.score b = 47.
Proof.
  destruct (Tracker.find_hybrid_routes Examples.loop_pathfinder "O" "D"
              (Tracker.build_connection_graph 0
                 [Examples.loop_scan_1; Examples.loop_scan_2]) 15)
    as [[|a [|b [|]]]| |] eqn:E; try (vm_compute in E; discriminate).
  destruct (routes_sorted_by_score _ _ _ _ _ _ E) as [Hs _].
  exists a, b. split; [reflexivity|].
  vm_compute in E. inversion E. split; reflexivity.
Defined.

Lemma truthy_path_Some (p : option (list string)) (q : list string) :
  Tracker.truthy_path p = Some q <-> p = Some q /\ q <> [].
Proof.
  unfold Tracker.truthy_path. destruct p as [[|x l]|].
  - split; [discriminate|]. intros [H H0]. inversion H; subst. congruence.
  - split; [|tauto]. intros H. inversion H; subst.
    split; [reflexivity|discriminate].
  - split; [discriminate|]. intros [H _]. discriminate.
Qed.

Lemma subscript_Return (connections : Tracker.Connections) (k : string)
    (l : list (string * Tracker.Scan)) :
  Tracker.subscript connections k = Return l
  <-> OrderedDict.get k connections = Some l.
Proof.
  unfold Tracker.subscript. destruct (OrderedDict.get k connections).
  - split; intros H; inversion H; reflexivity.
  - split; discriminate.
Qed.

Section ComposerLoops.
Variables (find_path : Tracker.pathfinder) (origin destination : string)
  (connections : Tracker.Connections) (max_gates_per_leg : Z).
Variable P : Tracker.Route -> Prop.

(** What is known when the one-hop loop appends a candidate. *)
Hypothesis P_one_hop :
  forall entry_system exits exit_system wh_data entry_path exit_path,
    OrderedDict.get entry_system connections = Some exits ->
    In (exit_system, wh_data) exits ->
    find_path origin entry_system max_gates_per_leg
    = Return (Some entry_path) ->
    entry_path <> [] ->
    find_path exit_system destination max_gates_per_leg
    = Return (Some exit_path) ->
    exit_path <> [] ->
    P (Candidate.one_hop origin destination entry_system exit_system wh_data
         entry_path exit_path).

(** What is known when the two-hop loop appends a candidate. *)
Hypothesis P_two_hop :
  forall entry_system mids mid_system wh_data_1 exits exit_system wh_data_2
         entry_path exit_path,
    OrderedDict.get entry_system connections = Some mids ->
    In (mid_system, wh_data_1) mids ->
    OrderedDict.get mid_system connections = Some exits ->
    In (exit_system, wh_data_2) exits ->
    exit_system <> entry_system ->
    Tracker.holeType wh_data_1 <> Tracker.holeType wh_data_2 ->
    find_path origin entry_system max_gates_per_leg
    = Return (Some entry_path) ->
    entry_path <> [] ->
    find_path exit_system destination max_gates_per_leg
    = Return (Some exit_path) ->
    exit_path <> [] ->
    P (Candidate.two_hop origin destination entry_system mid_system
         exit_system wh_data_1 wh_data_2 entry_path exit_path).

Lemma single_hop_loop_all (wormhole_systems : list string)
    (routes routes' : list Tracker.Route) :
  Forall P routes ->
  Tracker.single_hop_loop find_path origin destination connections
    max_gates_per_leg wormhole_systems routes = Return routes' ->
  Forall P routes'.
Proof.
  unfold Tracker.single_hop_loop. intros Hok.
  apply for_loop_invariant; [|exact Hok].
  intros rs entry_system rs' _ Hrs.
  destruct (find_path origin entry_system max_gates_per_leg)
    as [entry_path| |] eqn:Hentry; simpl; try discriminate.
  destruct (Tracker.truthy_path entry_path) as [ep|] eqn:Hep;
    [|intros E; inversion E; subst; exact Hrs].
  apply truthy_path_Some in Hep. destruct Hep as [-> Hep].
  destruct (Tracker.subscript connections entry_system) as [exits| |]
    eqn:Hexits; simpl; try discriminate.
  apply subscript_Return in Hexits.
  apply for_loop_invariant; [|exact Hrs].
  intros rs1 [exit_system wh_data] rs1' Hin Hrs1.
  destruct (find_path exit_system destination max_gates_per_leg)
    as [exit_path| |] eqn:Hexit; simpl; try discriminate.
  destruct (Tracker.truthy_path exit_path) as [xp|] eqn:Hxp;
    intros E; inversion E; subst; [|exact Hrs1].
  apply truthy_path_Some in Hxp. destruct Hxp as [-> Hxp].
  apply Forall_snoc; [exact Hrs1|].
  eapply P_one_hop; eassumption.
Qed.

Lemma multi_hop_loop_all (wormhole_systems : list string)
    (routes routes' : list Tracker.Route) :
  Forall P routes ->
  Tracker.multi_hop_loop find_path origin destination connections
    max_gates_per_leg wormhole_systems routes = Return routes' ->
  Forall P routes'.
Proof.
  unfold Tracker.multi_hop_loop. intros Hok.
  apply for_loop_invariant; [|exact Hok].
  intros rs entry_system rs' _ Hrs.
  destruct (find_path origin entry_system max_gates_per_leg)
    as [entry_path| |] eqn:Hentry; simpl; try discriminate.
  destruct (Tracker.truthy_path entry_path) as [ep|] eqn:Hep;
    [|intros E; inversion E; subst; exact Hrs].
  apply truthy_path_Some in Hep. destruct Hep as [-> Hep].
  destruct (Tracker.subscript connections entry_system) as [mids| |]
    eqn:Hmids; simpl; try discriminate.
  apply subscript_Return in Hmids.
  apply for_loop_invariant; [|exact Hrs].
  intros rs1 [mid_system wh_data_1] rs1' Hmid Hrs1.
  destruct (OrderedDict.mem mid_system connections); simpl;
    [|intros E; inversion E; subst; exact Hrs1].
  destruct (find_path mid_system mid_system 0) as [mid_path| |];
    simpl; try discriminate.
  destruct (Tracker.subscript connections mid_system) as [exits| |]
    eqn:Hexits; simpl; try discriminate.
  apply subscript_Return in Hexits.
  unfold Tracker.second_hop_loop.
  apply for_loop_invariant; [|exact Hrs1].
  intros rs2 [exit_system wh_data_2] rs2' Hexit Hrs2.
  destruct (String.eqb_spec exit_system entry_system) as [|Hne];
    [intros E; inversion E; subst; exact Hrs2|].
  destruct (String.eqb_spec (Tracker.holeType wh_data_1)
              (Tracker.holeType wh_data_2)) as [|Htype];
    [intros E; inversion E; subst; exact Hrs2|].
  destruct (find_path exit_system destination max_gates_per_leg)
    as [exit_path| |] eqn:Hxpath; simpl; try discriminate.
  destruct (Tracker.truthy_path exit_path) as [xp|] eqn:Hxp;
    [|intros E; inversion E; subst; exact Hrs2].
  apply truthy_path_Some in Hxp. destruct Hxp as [-> Hxp].
  destruct (find_path mid_system destination max_gates_per_leg)
    as [direct| |]; simpl; try discriminate.
  destruct (_ <? _); intros E; inversion E; subst; [exact Hrs2|].
  apply Forall_snoc; [exact Hrs2|].
  eapply P_two_hop; eassumption.
Qed.

Lemma find_hybrid_routes_all (routes : list Tracker.Route) :
  Tracker.find_hybrid_routes find_path origin destination connections
    max_gates_per_leg = Return routes ->
  Forall P routes.
Proof.
  unfold Tracker.find_hybrid_routes.
  destruct (Tracker.single_hop_loop _ _ _ _ _ _ _) as [r1| |] eqn:E1;
    simpl; try discriminate.
  destruct (Tracker.multi_hop_loop _ _ _ _ _ _ _) as [r2| |] eqn:E2;
    simpl; try discriminate.
  intros E; inversion E; subst. apply sort_by_score_Forall.
  eapply multi_hop_loop_all; [|exact E2].
  eapply single_hop_loop_all; [|exact E1]. constructor.
Qed.

End ComposerLoops.

(** X8. Every candidate the composer returns is backed by its inputs: it
    carries the origin and destination it was asked for; each of its hops
    is an entry of the connection graph's adjacency list for the system
    the hop leaves; its entry leg is the non-empty path the pathfinder
    returns from the origin to the first hop and its exit leg the one from
    the last hop's exit to the destination; its gate counts are the
    lengths of the legs minus one, its total their sum, and its wormhole
    count the number of hops. *)
Theorem candidates_are_backed
    (find_path : Tracker.pathfinder) (origin destination : string)
    (connections : Tracker.Connections) (max_gates_per_leg : Z)
    (routes : list Tracker.Route) :
  Tracker.find_hybrid_routes find_path origin destination connections
    max_gates_per_leg = Return routes ->
  forall r, In r routes ->
    Candidate.backed find_path origin destination connections
      max_gates_per_leg r
    /\ 0 <= Tracker.entry_gates r /\ 0 <= Tracker.exit_gates r.
Proof.
  intros Hrun.
  apply (find_hybrid_routes_all find_path origin destination connections
           max_gates_per_leg
           (fun r => Candidate.backed find_path origin destination
                       connections max_gates_per_leg r
                     /\ 0 <= Tracker.entry_gates r
                     /\ 0 <= Tracker.exit_gates r)) in Hrun.
  - intros r Hr. rewrite List.Forall_forall in Hrun. apply Hrun. exact Hr.
  - intros E exits X wh p1 p2 Hget Hin Hp1 Hn1 Hp2 Hn2.
    assert (1 <= len p1) by (destruct p1; [congruence|unfold len; simpl; lia]).
    assert (1 <= len p2) by (destruct p2; [congruence|unfold len; simpl; lia]).
    split; [|simpl; lia].
    unfold Candidate.backed, Candidate.one_hop. simpl.
    repeat split; auto.
    + constructor; [|constructor]. exists exits. auto.
    + eexists. split; [reflexivity|exact Hp1].
    + eexists. split; [reflexivity|exact Hp2].
  - intros E mids M wh1 exits X wh2 p1 p2 Hmids Hm Hexits Hx _ _
           Hp1 Hn1 Hp2 Hn2.
    assert (1 <= len p1) by (destruct p1; [congruence|unfold len; simpl; lia]).
    assert (1 <= len p2) by (destruct p2; [congruence|unfold len; simpl; lia]).
    split; [|simpl; lia].
    unfold Candidate.backed, Candidate.two_hop. simpl.
    repeat split; auto.
    + constructor; [exists mids; auto|].
      constructor; [exists exits; auto|constructor].
    + eexists. split; [reflexivity|exact Hp1].
    + eexists. split; [reflexivity|exact Hp2].
Qed.

Lemma candidates_are_backed_witness :
  exists r,
    Tracker.find_hybrid_routes Examples.hop_pathfinder "O" "D"
      (Tracker.build_connection_graph 0 Examples.hop_scans) 15
    = Return [r]
    /\ Candidate.backed Examples.hop_pathfinder "O" "D"
         (Tracker.build_connection_graph 0 Examples.hop_scans) 15 r.
Proof.
  destruct (Tracker.find_hybrid_routes Examples.hop_pathfinder "O" "D"
              (Tracker.build_connection_graph 0 Examples.hop_scans) 15)
    as [[|r [|]]| |] eqn:E; try (vm_compute in E; discriminate).
  exists r. split; [reflexivity|].
  apply (candidates_are_backed _ _ _ _ _ _ E r). left. reflexivity.
Defined.

Lemma for_loop_keeps {A R} (body : list R -> A -> outcome (list R))
    (l : list A) (r : R) :
  (forall s x s', body s x = Return s' -> In r s -> In r s') ->
  forall s s', for_loop body l s = Return s' -> In r s -> In r s'.
Proof.
  intros Hbody s s' Hrun Hr.
  apply (for_loop_invariant (fun s0 => In r s0) body l) with (s := s);
    [|exact Hr|exact Hrun].
  intros s0 x s0' _ H0 Hb. eapply Hbody; eassumption.
Qed.

Lemma for_loop_hits {A R} (body : list R -> A -> outcome (list R))
    (l : list A) (x0 : A) (r : R) :
  In x0 l ->
  (forall s x s', body s x = Return s' -> In r s -> In r s') ->
  (forall s s', body s x0 = Return s' -> In r s') ->
  forall s s', for_loop body l s = Return s' -> In r s'.
Proof.
  intros Hin Hkeep Hhit. induction l as [|x l IH]; [destruct Hin|].
  intros s s' Hrun. simpl in Hrun.
  destruct (body s x) as [s1| |] eqn:E; simpl in Hrun; try discriminate.
  destruct Hin as [->|Hin].
  - eapply for_loop_keeps; [exact Hkeep|exact Hrun|].
    eapply Hhit. exact E.
  - eapply IH; eassumption.
Qed.

Section ComposerKeeps.
Variables (find_path : Tracker.pathfinder) (origin destination : string)
  (connections : Tracker.Connections) (max_gates_per_leg : Z).
Variable r : Tracker.Route.

Lemma single_hop_exits_keep (entry_system : string)
    (entry_path : list string) (exits : list (string * Tracker.Scan))
    (x : string * Tracker.Scan) (s s' : list Tracker.Route) :
  (let '(exit_system, wh_data) := x in
   exit_path ← find_path exit_system destination max_gates_per_leg;
   match Tracker.truthy_path exit_path with
   | None => Return s
   | Some exit_path =>
       Return (s ++ [Candidate.one_hop origin destination entry_system
                       exit_system wh_data entry_path exit_path])%list
   end) = Return s' ->
  In r s -> In r s'.
Proof.
  destruct x as [exit_system wh_data].
  destruct (find_path exit_system destination max_gates_per_leg)
    as [exit_path| |]; simpl; try discriminate.
  destruct (Tracker.truthy_path exit_path); intros E Hr; inversion E; subst;
    [apply in_or_app; left|]; exact Hr.
Qed.

Lemma single_hop_loop_keeps (wormhole_systems : list string)
    (s s' : list Tracker.Route) :
  Tracker.single_hop_loop find_path origin destination connections
    max_gates_per_leg wormhole_systems s = Return s' ->
  In r s -> In r s'.
Proof.
  unfold Tracker.single_hop_loop. apply for_loop_keeps.
  intros s0 entry_system s0'.
  destruct (find_path origin entry_system max_gates_per_leg)
    as [entry_path| |]; simpl; try discriminate.
  destruct (Tracker.truthy_path entry_path) as [ep|];
    [|intros E Hr; inversion E; subst; exact Hr].
  destruct (Tracker.subscript connections entry_system) as [exits| |];
    simpl; try discriminate.
  apply for_loop_keeps. intros s1 x s1'.
  apply (single_hop_exits_keep entry_system ep exits x).
Qed.

Lemma multi_hop_loop_keeps (wormhole_systems : list string)
    (s s' : list Tracker.Route) :
  Tracker.multi_hop_loop find_path origin destination connections
    max_gates_per_leg wormhole_systems s = Return s' ->
  In r s -> In r s'.
Proof.
  unfold Tracker.multi_hop_loop. apply for_loop_keeps.
  intros s0 entry_system s0'.
  destruct (find_path origin entry_system max_gates_per_leg)
    as [entry_path| |]; simpl; try discriminate.
  destruct (Tracker.truthy_path entry_path) as [ep|];
    [|intros E Hr; inversion E; subst; exact Hr].
  destruct (Tracker.subscript connections entry_system) as [mids| |];
    simpl; try discriminate.
  apply for_loop_keeps. intros s1 [mid_system wh_data_1] s1'.
  destruct (OrderedDict.mem mid_system connections); simpl;
    [|intros E Hr; inversion E; subst; exact Hr].
  destruct (find_path mid_system mid_system 0) as [mid_path| |];
    simpl; try discriminate.
  destruct (Tracker.subscript connections mid_system) as [exits| |];
    simpl; try discriminate.
  unfold Tracker.second_hop_loop. apply for_loop_keeps.
  intros s2 [exit_system wh_data_2] s2'.
  destruct (String.eqb exit_system entry_system);
    [intros E Hr; inversion E; subst; exact Hr|].
  destruct (String.eqb (Tracker.holeType wh_data_1)
              (Tracker.holeType wh_data_2));
    [intros E Hr; inversion E; subst; exact Hr|].
  destruct (find_path exit_system destination max_gates_per_leg)
    as [exit_path| |]; simpl; try discriminate.
  destruct (Tracker.truthy_path exit_path) as [xp|];
    [|intros E Hr; inversion E; subst; exact Hr].
  destruct (find_path mid_system destination max_gates_per_leg)
    as [direct| |]; simpl; try discriminate.
  destruct (_ <? _); intros E Hr; inversion E; subst;
    [|apply in_or_app; left]; exact Hr.
Qed.

End ComposerKeeps.

(** X9. The one-hop enumeration misses no connection: for every system
    [E] that is a key of the connection graph and every entry [(X, wh)]
    of its adjacency list, if the pathfinder returns a non-empty path from
    the origin to [E] and one from [X] to the destination, then the result
    of the composer holds the one-hop candidate built from exactly these
    two legs and this wormhole, with its single-hop score. *)
Theorem one_hop_enumeration_complete
    (find_path : Tracker.pathfinder) (origin destination : string)
    (connections : Tracker.Connections) (max_gates_per_leg : Z)
    (routes : list Tracker.Route)
    (entry_system exit_system : string) (wh_data : Tracker.Scan)
    (exits : list (string * Tracker.Scan))
    (entry_path exit_path : list string) :
  Tracker.find_hybrid_routes find_path origin destination connections
    max_gates_per_leg = Return routes ->
  In entry_system (OrderedDict.keys connections) ->
  OrderedDict.get entry_system connections = Some exits ->
  In (exit_system, wh_data) exits ->
  find_path origin entry_system max_gates_per_leg
  = Return (Some entry_path) ->
  entry_path <> [] ->
  find_path exit_system destination max_gates_per_leg
  = Return (Some exit_path) ->
  exit_path <> [] ->
  In (Candidate.one_hop origin destination entry_system exit_system wh_data
        entry_path exit_path) routes.
Proof.
  intros Hrun Hkey Hget Hin Hp1 Hn1 Hp2 Hn2.
  unfold Tracker.find_hybrid_routes in Hrun.
  destruct (Tracker.single_hop_loop _ _ _ _ _ _ _) as [r1| |] eqn:E1;
    simpl in Hrun; try discriminate.
  destruct (Tracker.multi_hop_loop _ _ _ _ _ _ _) as [r2| |] eqn:E2;
    simpl in Hrun; try discriminate.
  inversion Hrun; subst routes.
  destruct (sort_by_score_sorted_perm r2) as [_ Hperm].
  eapply Permutation_in; [exact Hperm|].
  eapply multi_hop_loop_keeps; [exact E2|].
  revert E1. unfold Tracker.single_hop_loop.
  apply (for_loop_hits _ _ entry_system); [exact Hkey| |].
  - intros s0 E s0'.
    destruct (find_path origin E max_gates_per_leg)
      as [ep0| |]; simpl; try discriminate.
    destruct (Tracker.truthy_path ep0) as [ep|];
      [|intros H Hr; inversion H; subst; exact Hr].
    destruct (Tracker.subscript connections E) as [xs| |];
      simpl; try discriminate.
    apply for_loop_keeps. intros s1 x s1'.
    apply (single_hop_exits_keep find_path origin destination
             max_gates_per_leg _ E ep xs x).
  - destruct entry_path as [|e0 ep]; [congruence|].
    destruct exit_path as [|x0 xp]; [congruence|].
    intros s0 s0'. rewrite Hp1.
    apply subscript_Return in Hget.
    cbn [mbind outcome_bind Tracker.truthy_path]. rewrite Hget.
    cbn [mbind outcome_bind].
    apply (for_loop_hits _ _ (exit_system, wh_data)); [exact Hin| |].
    + intros s1 x s1'.
      apply (single_hop_exits_keep find_path origin destination
               max_gates_per_leg _ entry_system (e0 :: ep) exits x).
    + intros s1 s1'. rewrite Hp2.
      cbn [mbind outcome_bind Tracker.truthy_path].
      intros H. inversion H; subst. apply in_or_app. right. left.
      reflexivity.
Qed.

Lemma one_hop_enumeration_complete_witness :
  exists routes,
    Tracker.find_hybrid_routes Examples.loop_pathfinder "O" "D"
      (Tracker.build_connection_graph 0
         [Examples.loop_scan_1; Examples.loop_scan_2]) 15
    = Return routes
    /\ In (Candidate.one_hop "O" "D" "X" "X" Examples.loop_scan_2
             ["O"; "X"] ["X"; "D"]) routes.
Proof.
  destruct (Tracker.find_hybrid_routes Examples.loop_pathfinder "O" "D"
              (Tracker.build_connection_graph 0
                 [Examples.loop_scan_1; Examples.loop_scan_2]) 15)
    as [routes| |] eqn:E; try (vm_compute in E; discriminate).
  exists routes. split; [reflexivity|].
  apply (one_hop_enumeration_complete _ _ _ _ _ _ "X" "X"
           Examples.loop_scan_2
           [("X", Examples.loop_scan_2); ("X", Examples.loop_scan_1)]
           ["O"; "X"] ["X"; "D"] E).
  - left. reflexivity.
  - reflexivity.
  - left. reflexivity.
  - vm_compute. reflexivity.
  - discriminate.
  - vm_compute. reflexivity.
  - discriminate.
Defined.

(** ** Scoring, continued *)

Lemma hole_penalty_ge (score : Z) (wh : Tracker.Scan) :
  score <= Tracker.hole_penalty score wh.
Proof.
  unfold Tracker.hole_penalty.
  repeat match goal with
  | |- context [if ?b then _ else _] => destruct b
  end; lia.
Qed.

Lemma hole_penalty_critical (score : Z) (wh : Tracker.Scan) :
  Tracker.lifeStatus wh = "Critical"
  \/ str_contains "< 10%" (Tracker.massStatus wh) = true ->
  score + 45 <= Tracker.hole_penalty score wh.
Proof.
  unfold Tracker.hole_penalty. intros [H|H]; rewrite H; simpl.
  - repeat match goal with
    | |- context [if ?b then _ else _] => destruct b
    end; lia.
  - repeat match goal with
    | |- context [if ?b then _ else _] => destruct b
    end; lia.
Qed.

(** X10. With the same two legs, going through two wormholes never scores
    better than going through the first one alone: for a first hole whose
    mass status is one of the bands of the data model, the two-hop score
    is at least 5 above the one-hop score, whatever the second hole. *)
Theorem two_hop_scores_above_one_hop
    (entry_gates exit_gates : Z) (wh_data_1 wh_data_2 : Tracker.Scan) :
  In (Tracker.massStatus wh_data_1) Spec.MASS_STATUSES ->
  Tracker.calculate_route_score_single entry_gates exit_gates wh_data_1 + 5
  <= Tracker.calculate_route_score_multihop entry_gates exit_gates
       wh_data_1 wh_data_2.
Proof.
  intros Hm. rewrite single_score_refines by exact Hm.
  unfold Tracker.calculate_route_score_multihop.
  simpl fold_left. simpl forallb.
  rewrite (hole_penalty_refines _ wh_data_1) by exact Hm.
  rewrite (perfect_refines wh_data_1) by exact Hm.
  match goal with
  | |- context [Tracker.hole_penalty ?s wh_data_2] =>
      pose proof (hole_penalty_ge s wh_data_2) as H2;
      generalize dependent (Tracker.hole_penalty s wh_data_2)
  end.
  intros p2 Hp2.
  match goal with
  | |- context [Spec.perfect wh_data_1 && ?b] => generalize b
  end.
  intros b2. apply mass_status_cases in Hm.
  unfold Spec.single_hop_score, Spec.criticalPenalty, Spec.massPenalty,
    Spec.lengthPenalty, Spec.bonus, Spec.perHolePenalty, Spec.perfect,
    Tracker.BURN_TIME_PENALTY, Tracker.NPC_DANGER_PENALTY,
    Tracker.COMPLEXITY_PENALTY in *.
  destruct wh_data_1 as [i r s t life mass at_]; simpl in *.
  destruct Hm as [-> | [-> | [-> | ->]]]; case_life life; simpl in *;
    destruct b2; simpl; case_ltb; simpl; lia.
Qed.

Lemma two_hop_scores_above_one_hop_witness :
  Tracker.calculate_route_score_single 9 9 Examples.critical_conflux + 5
  <= Tracker.calculate_route_score_multihop 9 9 Examples.critical_conflux
       Examples.fresh_barbican.
Proof.
  apply two_hop_scores_above_one_hop. right. right. left. reflexivity.
Defined.

(** X11. The score bands announced in the scoring code hold for one-hop
    candidates with non-negative gate counts: a Critical hole or a mass
    status containing "< 10%" puts the candidate in the [WARNING] band; a
    Destabilizing hole or the mass status "50% > 10%" keeps it out of the
    [OK] band; more than 15 gates keep it out of the [OK] band; and a
    Fresh hole at "100% > 50%" with at most 15 gates is [OK]. *)
Theorem one_hop_score_bands
    (entry_gates exit_gates : Z) (wh_data : Tracker.Scan) :
  0 <= entry_gates -> 0 <= exit_gates ->
  (Tracker.lifeStatus wh_data = "Critical"
   \/ str_contains "< 10%" (Tracker.massStatus wh_data) = true ->
   Tracker.quality
     (Tracker.calculate_route_score_single entry_gates exit_gates wh_data)
   = "[WARNING]")
  /\ (Tracker.lifeStatus wh_data = "Destabilizing"
      \/ Tracker.massStatus wh_data = "50% > 10%"
      \/ 15 < entry_gates + exit_gates ->
      Tracker.quality
        (Tracker.calculate_route_score_single entry_gates exit_gates wh_data)
      <> "[OK]")
  /\ (Tracker.lifeStatus wh_data = "Fresh" ->
      Tracker.massStatus wh_data = "100% > 50%" ->
      entry_gates + exit_gates <= 15 ->
      Tracker.quality
        (Tracker.calculate_route_score_single entry_gates exit_gates wh_data)
      = "[OK]").
Proof.
  intros He Hx.
  assert (Hq : forall sc, 40 <= sc -> Tracker.quality sc = "[WARNING]").
  { intros sc H. unfold Tracker.quality.
    destruct (Z.ltb_spec sc 20); [lia|].
    destruct (Z.ltb_spec sc 40); [lia|reflexivity]. }
  assert (Hn : forall sc, 20 <= sc -> Tracker.quality sc <> "[OK]").
  { intros sc H. unfold Tracker.quality.
    destruct (Z.ltb_spec sc 20); [lia|].
    destruct (sc <? 40); discriminate. }
  assert (Ho : forall sc, sc < 20 -> Tracker.quality sc = "[OK]").
  { intros sc H. unfold Tracker.quality.
    destruct (Z.ltb_spec sc 20); [reflexivity|lia]. }
  unfold Tracker.calculate_route_score_single.
  destruct wh_data as [i r s t life mass at_]; simpl.
  split; [|split].
  - intros [->|Hm]; apply Hq.
    + simpl.
      repeat match goal with
      | |- context [if ?b then _ else _] => destruct b
      end; lia.
    + rewrite Hm.
      repeat match goal with
      | |- context [if ?b then _ else _] => destruct b
      end; lia.
  - intros [->|[->|Hlong]]; apply Hn.
    + simpl.
      repeat match goal with
      | |- context [if ?b then _ else _] => destruct b
      end; lia.
    + simpl. rewrite !andb_false_r.
      repeat match goal with
      | |- context [if ?b then _ else _] => destruct b
      end; lia.
    + destruct (Z.ltb_spec 15 (entry_gates + exit_gates)); [|lia].
      destruct (Z.ltb_spec (entry_gates + exit_gates) 10); [lia|].
      simpl.
      repeat match goal with
      | |- context [if ?b then _ else _] => destruct b
      end; lia.
  - intros -> -> Hshort. apply Ho. simpl.
    destruct (Z.ltb_spec 15 (entry_gates + exit_gates)); [lia|].
    destruct (Z.ltb_spec (entry_gates + exit_gates) 10); simpl; lia.
Qed.

Lemma one_hop_score_bands_witness :
  Tracker.quality
    (Tracker.calculate_route_score_single 0 0 Examples.critical_conflux)
  = "[WARNING]"
  /\ Tracker.quality
       (Tracker.calculate_route_score_single 7 8 Examples.fresh_barbican)
     = "[OK]".
Proof.
  destruct (one_hop_score_bands 0 0 Examples.critical_conflux)
    as (Hw & _ & _); try lia.
  destruct (one_hop_score_bands 7 8 Examples.fresh_barbican)
    as (_ & _ & Hok); try lia.
  split.
  - apply Hw. left. reflexivity.
  - apply Hok; [reflexivity|reflexivity|lia].
Defined.

(** X12. A two-hop candidate with non-negative gate counts is never in the
    [OK] band: its score is at least 25 above its gate count; and it is in
    the [WARNING] band as soon as one of its two holes is Critical or has
    a mass status containing "< 10%". *)
Theorem two_hop_score_bands
    (entry_gates exit_gates : Z) (wh_data_1 wh_data_2 : Tracker.Scan) :
  0 <= entry_gates -> 0 <= exit_gates ->
  entry_gates + exit_gates + 25
  <= Tracker.calculate_route_score_multihop entry_gates exit_gates
       wh_data_1 wh_data_2
  /\ Tracker.quality
       (Tracker.calculate_route_score_multihop entry_gates exit_gates
          wh_data_1 wh_data_2) <> "[OK]"
  /\ (Tracker.lifeStatus wh_data_1 = "Critical"
      \/ str_contains "< 10%" (Tracker.massStatus wh_data_1) = true
      \/ Tracker.lifeStatus wh_data_2 = "Critical"
      \/ str_contains "< 10%" (Tracker.massStatus wh_data_2) = true ->
      Tracker.quality
        (Tracker.calculate_route_score_multihop entry_gates exit_gates
           wh_data_1 wh_data_2) = "[WARNING]").
Proof.
  intros He Hx.
  unfold Tracker.calculate_route_score_multihop.
  simpl fold_left.
  unfold Tracker.BURN_TIME_PENALTY, Tracker.NPC_DANGER_PENALTY,
    Tracker.COMPLEXITY_PENALTY.
  set (s0 := 0 + (entry_gates + exit_gates) + (15 + 10 + 5)).
  pose proof (hole_penalty_ge s0 wh_data_1) as H1.
  pose proof (hole_penalty_ge (Tracker.hole_penalty s0 wh_data_1) wh_data_2)
    as H2.
  set (p := Tracker.hole_penalty (Tracker.hole_penalty s0 wh_data_1)
              wh_data_2) in *.
  assert (Hlow : entry_gates + exit_gates + 25
                 <= (if forallb
                          (fun wh =>
                             String.eqb (Tracker.lifeStatus wh) "Fresh"
                             && str_contains "100% > 50%"
                                  (Tracker.massStatus wh))
                          [wh_data_1; wh_data_2]
                     then p - 5 else p)).
  { destruct (forallb _ _); unfold s0 in *; lia. }
  split; [exact Hlow|]. split.
  - unfold Tracker.quality.
    match goal with |- context [?sc <? 20] =>
      destruct (Z.ltb_spec sc 20); [lia|destruct (sc <? 40); discriminate]
    end.
  - intros Hbad.
    assert (Hp : s0 + 45 <= p).
    { unfold p. destruct Hbad as [H|[H|[H|H]]].
      - pose proof (hole_penalty_critical s0 wh_data_1 (or_introl H)). lia.
      - pose proof (hole_penalty_critical s0 wh_data_1 (or_intror H)). lia.
      - pose proof (hole_penalty_critical (Tracker.hole_penalty s0 wh_data_1)
                      wh_data_2 (or_introl H)). lia.
      - pose proof (hole_penalty_critical (Tracker.hole_penalty s0 wh_data_1)
                      wh_data_2 (or_intror H)). lia. }
    unfold Tracker.quality.
    match goal with |- context [?sc <? 20] =>
      assert (40 <= sc) by (destruct (forallb _ _); unfold s0 in *; lia);
      destruct (Z.ltb_spec sc 20); [lia|];
      destruct (Z.ltb_spec sc 40); [lia|reflexivity]
    end.
Qed.

Lemma two_hop_score_bands_witness :
  Tracker.quality
    (Tracker.calculate_route_score_multihop 0 0 Examples.fresh_barbican
       Examples.fresh_barbican) <> "[OK]".
Proof.
  destruct (two_hop_score_bands 0 0 Examples.fresh_barbican
              Examples.fresh_barbican) as (_ & H & _); [lia|lia|exact H].
Defined.

(** X13. The number of jumpbridge hops counted in a path is never
    negative and never exceeds the number of hops of the path, so the
    "gates only" figure shown for a leg, its length minus one minus this
    count, is not negative; without a loader, and for paths of fewer than
    two systems, the count is 0. *)
Theorem jumpbridge_count_bounds
    (sde_loader : option Loader.EVESDELoader) (path : list string) :
  0 <= Tracker.count_jumpbridges_in_path sde_loader path
  /\ (path <> [] ->
      Tracker.count_jumpbridges_in_path sde_loader path <= len path - 1)
  /\ Tracker.count_jumpbridges_in_path None path = 0
  /\ (len path < 2 -> Tracker.count_jumpbridges_in_path sde_loader path = 0).
Proof.
  assert (H : forall loader p,
            0 <= Tracker.count_jumpbridge_hops loader p
            /\ (p <> [] ->
                Tracker.count_jumpbridge_hops loader p <= len p - 1)).
  { intros loader p. induction p as [|a [|b rest] IH].
    - simpl. split; [lia|congruence].
    - simpl. unfold len. simpl. split; lia.
    - destruct IH as [IH0 IH1]. specialize (IH1 ltac:(discriminate)).
      change (Tracker.count_jumpbridge_hops loader (a :: b :: rest))
        with ((if Tracker.hop_uses_jumpbridge loader a b then 1 else 0)
              + Tracker.count_jumpbridge_hops loader (b :: rest)).
      set (c := Tracker.count_jumpbridge_hops loader (b :: rest)) in *.
      unfold len in *. cbn [length] in *.
      destruct (Tracker.hop_uses_jumpbridge loader a b); split; lia. }
  unfold Tracker.count_jumpbridges_in_path.
  destruct sde_loader as [loader|].
  - destruct (Z.ltb_spec (len path) 2) as [Hshort|Hlong].
    + repeat split; try lia. intros Hne. destruct path; [congruence|].
      unfold len. simpl. lia.
    + destruct (H loader path) as [H0 H1]. repeat split; try lia; auto.
  - repeat split; try lia. intros Hne. destruct path; [congruence|].
    unfold len. simpl. lia.
Qed.

(** ** The stored scan list and its clean-up *)

Lemma filter_length_le {A} (f : A -> bool) (l : list A) :
  (length (List.filter f l) <= length l)%nat.
Proof.
  induction l as [|x l IH]; simpl; [lia|]. destruct (f x); simpl; lia.
Qed.

Lemma filter_same_length {A} (f : A -> bool) (l : list A) :
  length (List.filter f l) = length l -> List.filter f l = l.
Proof.
  induction l as [|x l IH]; simpl; [reflexivity|].
  pose proof (filter_length_le f l) as Hle.
  destruct (f x); simpl; intros H; [f_equal; apply IH; lia|lia].
Qed.

Lemma filter_filter_same {A} (f : A -> bool) (l : list A) :
  List.filter f (List.filter f l) = List.filter f l.
Proof.
  induction l as [|x l IH]; simpl; [reflexivity|].
  destruct (f x) eqn:E; simpl; [rewrite E, IH|]; auto.
Qed.

Lemma list_filter_sublist {A} (f : A -> bool) (l : list A) :
  sublist (List.filter f l) l.
Proof.
  induction l as [|x l IH]; simpl; [constructor|].
  destruct (f x); [apply sublist_skip|apply sublist_cons]; exact IH.
Qed.

Lemma cleanup_kept_holed (now : Tracker.datetime) (scan : Tracker.Scan) :
  Tracker.holeType scan <> "None" ->
  Cleanup.kept now scan = Tracker.keep_scan now scan.
Proof.
  intros H. unfold Cleanup.kept, Tracker.keep_scan.
  destruct (String.eqb_spec (Tracker.holeType scan) "None");
    [contradiction|reflexivity].
Qed.

Lemma cleanup_loop_spec (error_of : Tracker.Scan -> Tracker.stamp_error)
    (now : Tracker.datetime) (scans : list Tracker.Scan) :
  forall new_scans,
    Tracker.cleanup_loop error_of now scans new_scans
    = if existsb (Cleanup.raises error_of) scans then None
      else Some (new_scans ++ List.filter (Cleanup.kept now) scans)%list.
Proof.
  induction scans as [|scan rest IH]; intros new_scans; simpl.
  - rewrite app_nil_r. reflexivity.
  - unfold Cleanup.raises at 1, Cleanup.kept at 1, Tracker.expired.
    destruct (String.eqb (Tracker.holeType scan) "None"); cbn [negb andb orb].
    + rewrite IH, <- app_assoc. reflexivity.
    + destruct (Tracker.scannedAt scan) as [t|].
      * cbv zeta. rewrite Z.leb_antisym.
        destruct (_ <? _); cbn [negb]; rewrite IH, <- ?app_assoc;
          reflexivity.
      * destruct (error_of scan); cbn [negb orb]; [|reflexivity].
        rewrite IH, <- app_assoc. reflexivity.
Qed.

Lemma cleanup_returns (error_of : Tracker.Scan -> Tracker.stamp_error)
    (now : Tracker.datetime) (scans : list Tracker.Scan) :
  (forall s, In s scans -> Cleanup.raises error_of s = false) ->
  Tracker.cleanup_expired_wormholes error_of now scans
  = Some (List.filter (Cleanup.kept now) scans).
Proof.
  intros Hno. unfold Tracker.cleanup_expired_wormholes.
  rewrite cleanup_loop_spec.
  assert (E : existsb (Cleanup.raises error_of) scans = false).
  { apply not_true_iff_false. intros H. apply existsb_exists in H.
    destruct H as (s & Hin & Hs). rewrite (Hno s Hin) in Hs. discriminate. }
  rewrite E. cbn [mbind option_bind app]. f_equal. unfold len.
  pose proof (filter_length_le (Cleanup.kept now) scans).
  destruct (Z.ltb_spec
              (Z.of_nat (length (List.filter (Cleanup.kept now) scans)))
              (Z.of_nat (length scans))); [reflexivity|].
  symmetry. apply filter_same_length. lia.
Qed.

Lemma cleanup_raises (error_of : Tracker.Scan -> Tracker.stamp_error)
    (now : Tracker.datetime) (scans : list Tracker.Scan) (s : Tracker.Scan) :
  In s scans -> Cleanup.raises error_of s = true ->
  Tracker.cleanup_expired_wormholes error_of now scans = None.
Proof.
  intros Hin Hs. unfold Tracker.cleanup_expired_wormholes.
  rewrite cleanup_loop_spec.
  assert (E : existsb (Cleanup.raises error_of) scans = true)
    by (apply existsb_exists; eauto).
  rewrite E. reflexivity.
Qed.

Lemma active_after_cleanup (now : Tracker.datetime)
    (scans : list Tracker.Scan) :
  Tracker.active_wormholes now (List.filter (Cleanup.kept now) scans)
  = Tracker.active_wormholes now scans.
Proof.
  unfold Tracker.active_wormholes.
  induction scans as [|s scans IH]; simpl; [reflexivity|].
  destruct (Cleanup.kept now s) eqn:Ec; simpl; rewrite IH; [reflexivity|].
  destruct (String.eqb_spec (Tracker.holeType s) "None") as [E|E].
  - unfold Cleanup.kept in Ec.
    rewrite (proj2 (String.eqb_eq _ _) E) in Ec. discriminate.
  - rewrite <- (cleanup_kept_holed now s E), Ec. reflexivity.
Qed.

(** X14. Where the clean-up and the graph builder agree, and where they do
    not.  If no wormhole scan of the list has a stamp whose reading raises
    [TypeError], [cleanup_expired_wormholes] returns; it never removes a
    "No Hole" entry, keeps the remaining scans in their order, and removes
    exactly the wormhole scans that the graph builder drops at the same
    moment, so the active wormholes and the connection graph are the same
    before and after, and cleaning up again changes nothing.  If some
    wormhole scan has such a stamp, the clean-up raises and leaves the
    list as it is, while the graph builder, whose [except] is bare, keeps
    that scan. *)
Theorem cleanup_agrees_with_graph_builder
    (error_of : Tracker.Scan -> Tracker.stamp_error)
    (now : Tracker.datetime) (scans : list Tracker.Scan) :
  ((forall s, In s scans -> Cleanup.raises error_of s = false) ->
   exists new_scans,
     Tracker.cleanup_expired_wormholes error_of now scans = Some new_scans
     /\ (forall s, In s scans -> Tracker.holeType s = "None" ->
           In s new_scans)
     /\ sublist new_scans scans
     /\ (forall s, Tracker.holeType s <> "None" ->
           (In s new_scans <-> In s (Tracker.active_wormholes now scans)))
     /\ Tracker.active_wormholes now new_scans
        = Tracker.active_wormholes now scans
     /\ Tracker.build_connection_graph now new_scans
        = Tracker.build_connection_graph now scans
     /\ Tracker.cleanup_expired_wormholes error_of now new_scans
        = Some new_scans)
  /\ (forall s, In s scans ->
        Tracker.holeType s <> "None" ->
        Tracker.scannedAt s = None ->
        error_of s = Tracker.BadType ->
        Tracker.cleanup_expired_wormholes error_of now scans = None
        /\ In s (Tracker.active_wormholes now scans)).
Proof.
  split.
  - intros Hno. exists (List.filter (Cleanup.kept now) scans).
    split; [apply cleanup_returns; exact Hno|].
    split; [|split; [|split; [|split; [|split]]]].
    + intros s Hin Hty. apply filter_In. split; [exact Hin|].
      unfold Cleanup.kept. rewrite Hty. reflexivity.
    + apply list_filter_sublist.
    + intros s Hty. unfold Tracker.active_wormholes.
      rewrite !filter_In, (cleanup_kept_holed now s Hty). reflexivity.
    + apply active_after_cleanup.
    + unfold Tracker.build_connection_graph.
      rewrite active_after_cleanup. reflexivity.
    + rewrite cleanup_returns.
      * rewrite filter_filter_same. reflexivity.
      * intros s Hin. apply filter_In in Hin. apply Hno, Hin.
  - intros s Hin Hty Hat Herr. split.
    + apply (cleanup_raises error_of now scans s Hin).
      unfold Cleanup.raises. rewrite Hat, Herr.
      destruct (String.eqb_spec (Tracker.holeType s) "None");
        [contradiction|reflexivity].
    + apply active_wormholes_In. split; [exact Hin|].
      unfold Tracker.keep_scan, Tracker.expired. rewrite Hat.
      destruct (String.eqb_spec (Tracker.holeType s) "None");
        [contradiction|reflexivity].
Qed.

Lemma expired_count_from (now : Tracker.datetime)
    (scans : list Tracker.Scan) :
  forall n,
    fold_left
      (fun expired_count scan =>
         if Tracker.counts_as_expired now scan then expired_count + 1
         else expired_count)
      scans n
    = n + len scans - len (List.filter (Cleanup.kept now) scans).
Proof.
  unfold len. induction scans as [|s scans IH]; intros n; simpl; [lia|].
  rewrite IH.
  assert (E : Tracker.counts_as_expired now s = negb (Cleanup.kept now s)).
  { unfold Tracker.counts_as_expired, Cleanup.kept, Tracker.expired.
    destruct (String.eqb (Tracker.holeType s) "None"); [reflexivity|].
    destruct (Tracker.scannedAt s); [|reflexivity].
    cbn [orb]. rewrite negb_involutive. reflexivity. }
  rewrite E. destruct (Cleanup.kept now s); simpl; lia.
Qed.

Lemma expired_count_removed (now : Tracker.datetime)
    (scans : list Tracker.Scan) :
  Tracker.expired_count now scans
  = len scans - len (List.filter (Cleanup.kept now) scans).
Proof. unfold Tracker.expired_count. rewrite expired_count_from. lia. Qed.

Lemma kept_earlier (now later : Tracker.datetime) (scan : Tracker.Scan) :
  now <= later -> Cleanup.kept later scan = true ->
  Cleanup.kept now scan = true.
Proof.
  intros Hle. unfold Cleanup.kept, Tracker.expired.
  destruct (String.eqb (Tracker.holeType scan) "None"); [reflexivity|].
  destruct (Tracker.scannedAt scan) as [t|]; [|reflexivity].
  cbn [orb]. rewrite !negb_true_iff, !Z.ltb_ge. lia.
Qed.

Lemma kept_count_earlier (now later : Tracker.datetime)
    (scans : list Tracker.Scan) :
  now <= later ->
  (length (List.filter (Cleanup.kept later) scans)
   <= length (List.filter (Cleanup.kept now) scans))%nat.
Proof.
  intros Hle. induction scans as [|s scans IH]; simpl; [lia|].
  destruct (Cleanup.kept later s) eqn:E.
  - rewrite (kept_earlier now later s Hle E). simpl. lia.
  - destruct (Cleanup.kept now s); simpl; lia.
Qed.

(** X15. What the manual clean-up announces and what it removes.  The
    count is taken at [now], the clean-up runs at [later], after the
    question has been answered, and the closing message repeats the
    earlier count.  When the count is 0 nothing is changed and no removal
    is announced; the same holds when the answer is no.  When the answer
    is yes and the clean-up does not raise, the number of scans removed is
    the number that had expired at [later]: it is never below the number
    announced, equals it when no further scan expired in between (in
    particular when [later = now]), and otherwise exceeds it.  When the
    clean-up raises, nothing is announced and the list is unchanged. *)
Theorem announced_count_is_removed_count
    (error_of : Tracker.Scan -> Tracker.stamp_error)
    (now later : Tracker.datetime) (scans : list Tracker.Scan) :
  now <= later ->
  0 <= Tracker.expired_count now scans <= Tracker.expired_count later scans
  /\ (Tracker.expired_count now scans = 0 ->
      forall confirmed,
        Tracker.manual_cleanup_expired error_of now later confirmed scans
        = Some (scans, None))
  /\ Tracker.manual_cleanup_expired error_of now later false scans
     = Some (scans, None)
  /\ (0 < Tracker.expired_count now scans ->
      (forall s, In s scans -> Cleanup.raises error_of s = false) ->
      exists scans',
        Tracker.manual_cleanup_expired error_of now later true scans
        = Some (scans', Some (Tracker.expired_count now scans))
        /\ Tracker.cleanup_expired_wormholes error_of later scans
           = Some scans'
        /\ len scans - len scans' = Tracker.expired_count later scans
        /\ Tracker.expired_count now scans <= len scans - len scans')
  /\ (0 < Tracker.expired_count now scans ->
      forall s, In s scans -> Cleanup.raises error_of s = true ->
        Tracker.manual_cleanup_expired error_of now later true scans = None).
Proof.
  intros Hle.
  pose proof (expired_count_removed now scans) as Enow.
  pose proof (expired_count_removed later scans) as Elater.
  pose proof (filter_length_le (Cleanup.kept now) scans) as L1.
  pose proof (kept_count_earlier now later scans Hle) as L2.
  unfold len in Enow, Elater.
  split; [lia|]. unfold Tracker.manual_cleanup_expired. cbv zeta.
  split; [|split; [|split]].
  - intros H confirmed. rewrite H. reflexivity.
  - destruct (Tracker.expired_count now scans =? 0); reflexivity.
  - intros Hpos Hno.
    destruct (Z.eqb_spec (Tracker.expired_count now scans) 0); [lia|].
    rewrite (cleanup_returns error_of later scans Hno).
    cbn [mbind option_bind]. eexists. split; [reflexivity|].
    split; [reflexivity|]. unfold len. split; lia.
  - intros Hpos s Hin Hs.
    destruct (Z.eqb_spec (Tracker.expired_count now scans) 0); [lia|].
    rewrite (cleanup_raises error_of later scans s Hin Hs). reflexivity.
Qed.

Lemma announced_count_is_removed_count_witness :
  exists scans',
    Tracker.manual_cleanup_expired (fun _ => Tracker.BadFormat)
      (Tracker.hours 24 + 1) (Tracker.hours 24 + 2) true
      [Examples.scan 21 "X" "Vidette" "Fresh" "100% > 50%" (Some 0);
       Examples.scan 22 "Y" "Vidette" "Fresh" "100% > 50%" (Some 1);
       Examples.scan 23 "Z" "None" "N/A" "N/A" (Some 0)]
    = Some (scans', Some 1)
    /\ len [Examples.scan 21 "X" "Vidette" "Fresh" "100% > 50%" (Some 0);
            Examples.scan 22 "Y" "Vidette" "Fresh" "100% > 50%" (Some 1);
            Examples.scan 23 "Z" "None" "N/A" "N/A" (Some 0)]
       - len scans' = 2.
Proof.
  assert (Hle : Tracker.hours 24 + 1 <= Tracker.hours 24 + 2) by lia.
  destruct (announced_count_is_removed_count (fun _ => Tracker.BadFormat)
              (Tracker.hours 24 + 1) (Tracker.hours 24 + 2)
              [Examples.scan 21 "X" "Vidette" "Fresh" "100% > 50%" (Some 0);
               Examples.scan 22 "Y" "Vidette" "Fresh" "100% > 50%" (Some 1);
               Examples.scan 23 "Z" "None" "N/A" "N/A" (Some 0)] Hle)
    as (_ & _ & _ & H & _).
  destruct H as (scans' & H1 & _ & H3 & _).
  - vm_compute. reflexivity.
  - intros s [<-|[<-|[<-|[]]]]; reflexivity.
  - exists scans'. split; [exact H1|]. rewrite H3. reflexivity.
Defined.

Lemma regions_with_holes_from (now : Tracker.datetime)
    (scans : list Tracker.Scan) (r : string) :
  forall acc : gset string,
    r ∈ fold_left
          (fun regions scan =>
             if String.eqb (Tracker.holeType scan) "None" then regions
             else
               match Tracker.scannedAt scan with
               | None => {[Tracker.region scan]} ∪ regions
               | Some scanned_time =>
                   if now - scanned_time
                      <=? Tracker.timedelta_hours
                            (Tracker.lifetime_of (Tracker.lifeStatus scan))
                   then {[Tracker.region scan]} ∪ regions
                   else regions
               end)
          scans acc
    <-> r ∈ acc
        \/ exists s, In s scans /\ Tracker.keep_scan now s = true
                     /\ Tracker.region s = r.
Proof.
  induction scans as [|s scans IH]; intros acc; simpl.
  - split; [auto|]. intros [H|(s & [] & _)]. exact H.
  - rewrite IH.
    assert (Hks : Tracker.keep_scan now s
                  = if String.eqb (Tracker.holeType s) "None" then false
                    else match Tracker.scannedAt s with
                         | None => true
                         | Some t =>
                             now - t <=? Tracker.timedelta_hours
                               (Tracker.lifetime_of (Tracker.lifeStatus s))
                         end).
    { unfold Tracker.keep_scan, Tracker.expired.
      destruct (String.eqb (Tracker.holeType s) "None"); [reflexivity|].
      destruct (Tracker.scannedAt s); [|reflexivity].
      cbv zeta. rewrite Z.leb_antisym. reflexivity. }
    assert (Hsplit : forall (acc' : gset string),
              (r ∈ acc' <-> r ∈ acc
                            \/ (Tracker.keep_scan now s = true
                                /\ Tracker.region s = r)) ->
              (r ∈ acc'
               \/ (exists s0, In s0 scans /\ Tracker.keep_scan now s0 = true
                              /\ Tracker.region s0 = r))
              <-> (r ∈ acc
                   \/ exists s0, (s = s0 \/ In s0 scans)
                                 /\ Tracker.keep_scan now s0 = true
                                 /\ Tracker.region s0 = r)).
    { intros acc' Hacc. rewrite Hacc. split.
      - intros [[H|[Hk Hr]]|(s0 & Hin & Hk & Hr)]; [auto| |].
        + right. exists s. auto.
        + right. exists s0. auto.
      - intros [H|(s0 & [E|Hin] & Hk & Hr)]; [auto| |].
        + subst s0. left. right. auto.
        + right. exists s0. auto. }
    apply Hsplit. rewrite Hks.
    destruct (String.eqb (Tracker.holeType s) "None").
    { split; [auto|]. intros [H|[H _]]; [exact H|discriminate]. }
    destruct (Tracker.scannedAt s) as [t|].
    + destruct (now - t <=? _).
      * rewrite elem_of_union, elem_of_singleton. split.
        -- intros [->|H]; auto.
        -- intros [H|[_ H]]; auto.
      * split; [auto|]. intros [H|[H _]]; [exact H|discriminate].
    + rewrite elem_of_union, elem_of_singleton. split.
      * intros [->|H]; auto.
      * intros [H|[_ H]]; auto.
Qed.

(** X16. The destination dropdown marks a region exactly when one of its
    scans would be kept by the graph builder at the same moment: the
    marker and the routing agree on which wormholes are alive. *)
Theorem dropdown_marks_live_regions
    (now : Tracker.datetime) (scans : list Tracker.Scan) (r : string) :
  r ∈ Tracker.regions_with_holes now scans
  <-> exists s, In s (Tracker.active_wormholes now scans)
                /\ Tracker.region s = r.
Proof.
  unfold Tracker.regions_with_holes. rewrite regions_with_holes_from.
  split.
  - intros [H|(s & Hin & Hk & Hr)]; [set_solver|].
    exists s. split; [apply active_wormholes_In; auto|exact Hr].
  - intros (s & Hin & Hr). apply active_wormholes_In in Hin.
    right. exists s. tauto.
Qed.

(** ** Region-to-region routing *)

Lemma fold_left_appends {A B} (body : list B -> A -> list B)
    (f : A -> list B) (l : list A) :
  (forall acc x, body acc x = (acc ++ f x)%list) ->
  forall init, fold_left body l init = (init ++ flat_map f l)%list.
Proof.
  intros Hbody. induction l as [|x l IH]; intros init; simpl.
  - rewrite app_nil_r. reflexivity.
  - rewrite IH, Hbody, <- app_assoc. reflexivity.
Qed.

Section StableSort.
Context {A K : Type} (lt : K -> K -> bool) (key : A -> K).

Hypothesis lt_asym : forall a b, lt a b = true -> lt b a = false.
Hypothesis le_trans :
  forall a b c, lt b a = false -> lt c b = false -> lt c a = false.

Lemma insert_by_key_Forall (P : A -> Prop) (r : A) (sorted : list A) :
  P r -> Forall P sorted -> Forall P (Tracker.insert_by_key lt key r sorted).
Proof.
  intros Hr. induction 1 as [|x l Hx Hl IH]; simpl.
  - constructor; [exact Hr|constructor].
  - destruct (lt (key r) (key x)); repeat (constructor; try assumption).
Qed.

Lemma insert_by_key_sorted (r : A) (sorted : list A) :
  StronglySorted (Regions.key_le lt key) sorted ->
  StronglySorted (Regions.key_le lt key) (Tracker.insert_by_key lt key r sorted).
Proof.
  induction 1 as [|x l Hl IH Hx]; simpl.
  - constructor; [constructor|constructor].
  - destruct (lt (key r) (key x)) eqn:E.
    + constructor; [constructor; assumption|].
      constructor; [apply lt_asym; exact E|].
      eapply List.Forall_impl; [|exact Hx].
      intros y Hy. unfold Regions.key_le in *.
      eapply le_trans; [apply lt_asym; exact E|exact Hy].
    + constructor; [exact IH|].
      apply insert_by_key_Forall; [exact E|exact Hx].
Qed.

Lemma insert_by_key_perm (r : A) (sorted : list A) :
  Permutation (r :: sorted) (Tracker.insert_by_key lt key r sorted).
Proof.
  induction sorted as [|x l IH]; simpl; [reflexivity|].
  destruct (lt (key r) (key x)); [reflexivity|].
  rewrite perm_swap. constructor. exact IH.
Qed.

Lemma sort_by_key_sorted_perm (l : list A) :
  StronglySorted (Regions.key_le lt key) (Tracker.sort_by_key lt key l)
  /\ Permutation l (Tracker.sort_by_key lt key l).
Proof.
  unfold Tracker.sort_by_key.
  assert (H : forall acc,
            StronglySorted (Regions.key_le lt key) acc ->
            StronglySorted (Regions.key_le lt key)
              (fold_left (fun sorted r => Tracker.insert_by_key lt key r sorted)
                 l acc)
            /\ Permutation (l ++ acc)%list
                 (fold_left
                    (fun sorted r => Tracker.insert_by_key lt key r sorted)
                    l acc)).
  { induction l as [|r l IH]; intros acc Hacc; simpl.
    - split; [exact Hacc|reflexivity].
    - destruct (IH (Tracker.insert_by_key lt key r acc)) as [Hs Hp];
        [apply insert_by_key_sorted; exact Hacc|].
      split; [exact Hs|]. etransitivity; [|exact Hp].
      rewrite <- insert_by_key_perm. apply Permutation_middle. }
  destruct (H []) as [Hs Hp]; [constructor|].
  rewrite app_nil_r in Hp. split; assumption.
Qed.

End StableSort.

Lemma pair_lt_asym (a b : Z * Z) :
  Tracker.pair_lt a b = true -> Tracker.pair_lt b a = false.
Proof.
  unfold Tracker.pair_lt. destruct a as [a1 a2], b as [b1 b2]. simpl.
  destruct (Z.eqb_spec a1 b1), (Z.eqb_spec b1 a1); try lia;
    rewrite ?Z.ltb_lt, ?Z.ltb_ge; lia.
Qed.

Lemma pair_le_trans (a b c : Z * Z) :
  Tracker.pair_lt b a = false -> Tracker.pair_lt c b = false ->
  Tracker.pair_lt c a = false.
Proof.
  unfold Tracker.pair_lt. destruct a as [a1 a2], b as [b1 b2], c as [c1 c2].
  simpl.
  destruct (Z.eqb_spec b1 a1), (Z.eqb_spec c1 b1), (Z.eqb_spec c1 a1);
    rewrite ?Z.ltb_lt, ?Z.ltb_ge; lia.
Qed.

Lemma find_routes_unsorted (JOVE_SYSTEMS : OrderedDict.t (list string))
    (end_region : string) (connections : Tracker.Connections)
    (start_systems : list string) :
  fold_left
    (fun routes start_sys =>
       match OrderedDict.get start_sys connections with
       | None => routes
       | Some exits =>
           fold_left
             (fun routes '(neighbor, wh_data) =>
                match Tracker.neighbor_region JOVE_SYSTEMS neighbor with
                | Some reg =>
                    if String.eqb reg end_region
                    then (routes ++ [[start_sys; neighbor]])%list
                    else routes
                | None => routes
                end)
             exits routes
       end)
    start_systems []
  = Regions.candidates JOVE_SYSTEMS end_region connections start_systems.
Proof.
  unfold Regions.candidates.
  rewrite (fold_left_appends _
             (fun start_sys =>
                match OrderedDict.get start_sys connections with
                | None => []
                | Some exits =>
                    flat_map
                      (fun '(neighbor, _) =>
                         match Tracker.neighbor_region JOVE_SYSTEMS neighbor
                         with
                         | Some reg =>
                             if String.eqb reg end_region
                             then [[start_sys; neighbor]] else []
                         | None => []
                         end)
                      exits
                end)); [reflexivity|].
  intros acc start_sys.
  destruct (OrderedDict.get start_sys connections) as [exits|];
    [|rewrite app_nil_r; reflexivity].
  apply fold_left_appends. intros acc' [neighbor wh].
  destruct (Tracker.neighbor_region JOVE_SYSTEMS neighbor) as [reg|];
    [|rewrite app_nil_r; reflexivity].
  destruct (String.eqb reg end_region); [reflexivity|].
  rewrite app_nil_r. reflexivity.
Qed.

Lemma region_candidates_In (JOVE_SYSTEMS : OrderedDict.t (list string))
    (end_region : string) (connections : Tracker.Connections)
    (start_systems : list string) (route : list string) :
  In route
    (Regions.candidates JOVE_SYSTEMS end_region connections start_systems)
  <-> exists start_sys neighbor exits wh_data,
        route = [start_sys; neighbor]
        /\ In start_sys start_systems
        /\ OrderedDict.get start_sys connections = Some exits
        /\ In (neighbor, wh_data) exits
        /\ Tracker.neighbor_region JOVE_SYSTEMS neighbor = Some end_region.
Proof.
  unfold Regions.candidates. rewrite in_flat_map. split.
  - intros (start_sys & Hs & Hr).
    destruct (OrderedDict.get start_sys connections) as [exits|] eqn:E;
      [|destruct Hr].
    apply in_flat_map in Hr. destruct Hr as ([neighbor wh] & Hn & Hr).
    destruct (Tracker.neighbor_region JOVE_SYSTEMS neighbor) as [reg|] eqn:En;
      [|destruct Hr].
    destruct (String.eqb_spec reg end_region) as [->|]; [|destruct Hr].
    destruct Hr as [<-|[]]. exists start_sys, neighbor, exits, wh. auto.
  - intros (start_sys & neighbor & exits & wh & -> & Hs & Hget & Hn & Hreg).
    exists start_sys. split; [exact Hs|]. rewrite Hget.
    apply in_flat_map. exists (neighbor, wh). split; [exact Hn|].
    rewrite Hreg, String.eqb_refl. left. reflexivity.
Qed.

(** X17. Region-to-region routing returns one-wormhole routes only, and
    all of them: a route is in the result exactly when it is a pair
    [start, neighbour] where [start] is listed for the start region,
    [neighbour] is an entry of the adjacency list of [start] in the
    connection graph, the first region of the table that lists
    [neighbour] is the destination region, and the destination region
    lists at least one system.  In safest mode the routes come ordered by
    their number of Critical or Destabilizing holes, fewest first. *)
Theorem region_routes_are_single_hops
    (safest_mode : bool) (JOVE_SYSTEMS : OrderedDict.t (list string))
    (start_region end_region : string) (connections : Tracker.Connections) :
  (forall route,
     In route (Tracker.find_routes safest_mode JOVE_SYSTEMS start_region
                 end_region connections)
     <-> exists start_sys neighbor exits wh_data,
           route = [start_sys; neighbor]
           /\ In start_sys
                (default [] (OrderedDict.get start_region JOVE_SYSTEMS))
           /\ default [] (OrderedDict.get end_region JOVE_SYSTEMS) <> []
           /\ OrderedDict.get start_sys connections = Some exits
           /\ In (neighbor, wh_data) exits
           /\ Tracker.neighbor_region JOVE_SYSTEMS neighbor = Some end_region)
  /\ StronglySorted
       (fun a b => Tracker.count_risky_holes a connections
                   <= Tracker.count_risky_holes b connections)
       (Tracker.find_routes true JOVE_SYSTEMS start_region end_region
          connections).
Proof.
  unfold Tracker.find_routes.
  set (starts := default [] (OrderedDict.get start_region JOVE_SYSTEMS)).
  set (ends := default [] (OrderedDict.get end_region JOVE_SYSTEMS)).
  assert (Hcand : forall route,
            In route (Regions.candidates JOVE_SYSTEMS end_region connections
                        starts)
            <-> exists start_sys neighbor exits wh_data,
                  route = [start_sys; neighbor] /\ In start_sys starts
                  /\ OrderedDict.get start_sys connections = Some exits
                  /\ In (neighbor, wh_data) exits
                  /\ Tracker.neighbor_region JOVE_SYSTEMS neighbor
                     = Some end_region)
    by (intros; apply region_candidates_In).
  destruct starts as [|s0 starts'] eqn:Es.
  { split; [|constructor]. intros route. split; [intros []|].
    intros (a & b & c & d & _ & [] & _). }
  destruct ends as [|e0 ends'] eqn:Ee.
  { split; [|constructor]. intros route. split; [intros []|].
    intros (a & b & c & d & _ & _ & H & _). congruence. }
  rewrite find_routes_unsorted.
  set (cands := Regions.candidates JOVE_SYSTEMS end_region connections
                  (s0 :: starts')) in *.
  split.
  - intros route.
    assert (Hperm : Permutation cands
              (if safest_mode then
                 Tracker.sort_by_key Tracker.pair_lt
                   (fun r => (len r, Tracker.count_risky_holes r connections))
                   cands
               else Tracker.sort_by_key Z.ltb
                      (fun r : list string => len r) cands)).
    { destruct safest_mode.
      - apply sort_by_key_sorted_perm;
          [exact pair_lt_asym|exact pair_le_trans].
      - apply sort_by_key_sorted_perm.
        + intros a b H. apply Z.ltb_lt in H. apply Z.ltb_ge. lia.
        + intros a b c H1 H2. apply Z.ltb_ge in H1, H2. apply Z.ltb_ge.
          lia. }
    split.
    + intros Hin. apply Permutation_sym in Hperm.
      apply (Permutation_in _ Hperm) in Hin. apply Hcand in Hin.
      destruct Hin as (a & b & c & d & H1 & H2 & H3 & H4 & H5).
      exists a, b, c, d. repeat split; auto; discriminate.
    + intros (a & b & c & d & H1 & H2 & _ & H3 & H4 & H5).
      apply (Permutation_in _ Hperm). apply Hcand.
      exists a, b, c, d. auto.
  - destruct (sort_by_key_sorted_perm Tracker.pair_lt
                (fun r => (len r, Tracker.count_risky_holes r connections))
                pair_lt_asym pair_le_trans cands) as [Hs Hp].
    assert (Hlen : Forall (fun r => len r = 2)
                     (Tracker.sort_by_key Tracker.pair_lt
                        (fun r => (len r,
                                   Tracker.count_risky_holes r connections))
                        cands)).
    { rewrite List.Forall_forall. intros r Hr.
      apply Permutation_sym in Hp. apply (Permutation_in _ Hp) in Hr.
      apply Hcand in Hr. destruct Hr as (a & b & _ & _ & -> & _).
      reflexivity. }
    revert Hs Hlen.
    generalize (Tracker.sort_by_key Tracker.pair_lt
                  (fun r => (len r, Tracker.count_risky_holes r connections))
                  cands).
    intros l Hs. induction Hs as [|x l Hl IH Hx]; intros Hlen;
      [constructor|].
    inversion Hlen as [|? ? Hx2 Hl2]; subst.
    constructor; [apply IH; exact Hl2|].
    rewrite List.Forall_forall in *. intros y Hy.
    specialize (Hx y Hy). specialize (Hl2 y Hy).
    unfold Regions.key_le, Tracker.pair_lt in Hx. simpl in Hx.
    rewrite Hx2, Hl2 in Hx. simpl in Hx. apply Z.ltb_ge in Hx. exact Hx.
Qed.

(** ** Loading the jumpbridge network *)

Lemma mem_id_In (x : Z) (l : list Z) : Loader.mem_id x l = true <-> In x l.
Proof.
  unfold Loader.mem_id. rewrite existsb_exists. split.
  - intros (y & Hy & E). apply Z.eqb_eq in E. subst. exact Hy.
  - intros H. exists x. split; [exact H|apply Z.eqb_refl].
Qed.

Lemma ensure_key_edge (k : Z) (jbs : gmap Z (list Z)) (x y : Z) :
  Bridges.edge (Loader.ensure_key k jbs) x y <-> Bridges.edge jbs x y.
Proof.
  unfold Loader.ensure_key, Bridges.edge.
  destruct (jbs !! k) eqn:E; [reflexivity|].
  split; intros (l & Hl & Hy).
  - destruct (decide (k = x)) as [->|Hne].
    + rewrite lookup_insert_eq in Hl. inversion Hl; subst. destruct Hy.
    + rewrite lookup_insert_ne in Hl by exact Hne. exists l. auto.
  - destruct (decide (k = x)) as [->|Hne]; [congruence|].
    exists l. rewrite lookup_insert_ne by exact Hne. auto.
Qed.

Lemma ensure_key_present (k : Z) (jbs : gmap Z (list Z)) :
  is_Some (Loader.ensure_key k jbs !! k).
Proof.
  unfold Loader.ensure_key. destruct (jbs !! k) eqn:E.
  - rewrite E. eauto.
  - rewrite lookup_insert_eq. eauto.
Qed.

Lemma ensure_key_keeps (k j : Z) (jbs : gmap Z (list Z)) :
  is_Some (jbs !! j) -> is_Some (Loader.ensure_key k jbs !! j).
Proof.
  unfold Loader.ensure_key. destruct (jbs !! k) eqn:E; [auto|].
  intros H. destruct (decide (k = j)) as [->|Hne].
  - rewrite lookup_insert_eq. eauto.
  - rewrite lookup_insert_ne by exact Hne. exact H.
Qed.

Lemma ensure_key_same (k : Z) (jbs : gmap Z (list Z)) :
  is_Some (jbs !! k) -> Loader.ensure_key k jbs = jbs.
Proof.
  unfold Loader.ensure_key. intros [l E]. rewrite E. reflexivity.
Qed.

Lemma ensure_key_duplicate_free (k : Z) (jbs : gmap Z (list Z)) :
  Bridges.duplicate_free jbs ->
  Bridges.duplicate_free (Loader.ensure_key k jbs).
Proof.
  unfold Loader.ensure_key, Bridges.duplicate_free.
  destruct (jbs !! k) eqn:E; [auto|].
  intros H j l Hl. destruct (decide (k = j)) as [->|Hne].
  - rewrite lookup_insert_eq in Hl. inversion Hl. constructor.
  - rewrite lookup_insert_ne in Hl by exact Hne. eauto.
Qed.

Lemma append_new_spec (k v : Z) (jbs : gmap Z (list Z)) :
  is_Some (jbs !! k) ->
  exists jbs',
    Loader.append_new k v jbs = Return jbs'
    /\ (forall x y,
          Bridges.edge jbs' x y
          <-> Bridges.edge jbs x y \/ (x = k /\ y = v))
    /\ (forall j, is_Some (jbs !! j) -> is_Some (jbs' !! j))
    /\ (Bridges.edge jbs k v -> jbs' = jbs)
    /\ (Bridges.duplicate_free jbs -> Bridges.duplicate_free jbs').
Proof.
  intros [l E]. unfold Loader.append_new, Loader.getitem. rewrite E.
  cbn [mbind outcome_bind].
  destruct (Loader.mem_id v l) eqn:M.
  - apply mem_id_In in M. exists jbs. split; [reflexivity|].
    split; [|auto].
    intros x y. split; [auto|]. intros [H|[-> ->]]; [exact H|].
    exists l. auto.
  - assert (Hnot : ~ In v l).
    { intros H. apply mem_id_In in H. congruence. }
    eexists. split; [reflexivity|]. repeat split.
    + intros (l' & Hl' & Hy). destruct (decide (k = x)) as [->|Hne].
      * rewrite lookup_insert_eq in Hl'. inversion Hl'; subst.
        apply in_app_or in Hy. destruct Hy as [Hy|[<-|[]]].
        -- left. exists l. auto.
        -- right. auto.
      * rewrite lookup_insert_ne in Hl' by exact Hne. left. exists l'. auto.
    + intros [(l' & Hl' & Hy)|[-> ->]].
      * destruct (decide (k = x)) as [->|Hne].
        -- exists (l ++ [v])%list. rewrite lookup_insert_eq.
           split; [reflexivity|]. apply in_or_app. left. congruence.
        -- exists l'. rewrite lookup_insert_ne by exact Hne. auto.
      * exists (l ++ [v])%list. rewrite lookup_insert_eq.
        split; [reflexivity|]. apply in_or_app. right. left. reflexivity.
    + intros j Hj. destruct (decide (k = j)) as [->|Hne].
      * rewrite lookup_insert_eq. eauto.
      * rewrite lookup_insert_ne by exact Hne. exact Hj.
    + intros (l' & Hl' & Hy). exfalso. apply Hnot. congruence.
    + intros Hd j l' Hl'. destruct (decide (k = j)) as [->|Hne].
      * rewrite lookup_insert_eq in Hl'. inversion Hl'; subst.
        apply List.NoDup_app; repeat split.
        -- eapply Hd; exact E.
        -- constructor; [intros []|constructor].
        -- intros a Ha [<-|[]]. exact (Hnot Ha).
      * rewrite lookup_insert_ne in Hl' by exact Hne. eauto.
Qed.

Lemma add_jumpbridge_resolved (name_to_id : gmap string Z)
    (jbs : gmap Z (list Z)) (jb_count skipped : Z)
    (system1 system2 alliance : string) (a b : Z) :
  Loader.truthy_id (name_to_id !! system1) = Some a ->
  Loader.truthy_id (name_to_id !! system2) = Some b ->
  exists jbs',
    Loader.add_jumpbridge name_to_id (jbs, jb_count, skipped)
      (system1, system2, alliance)
    = Return (jbs', jb_count + 1, skipped)
    /\ (forall x y,
          Bridges.edge jbs' x y
          <-> Bridges.edge jbs x y \/ (x = a /\ y = b) \/ (x = b /\ y = a))
    /\ (Bridges.duplicate_free jbs -> Bridges.duplicate_free jbs')
    /\ (Bridges.edge jbs a b -> Bridges.edge jbs b a -> jbs' = jbs).
Proof.
  intros Ha Hb. unfold Loader.add_jumpbridge. rewrite Ha, Hb.
  set (j1 := Loader.ensure_key a jbs).
  set (j2 := Loader.ensure_key b j1).
  assert (Ka : is_Some (j2 !! a))
    by (apply ensure_key_keeps, ensure_key_present).
  assert (Kb : is_Some (j2 !! b)) by apply ensure_key_present.
  destruct (append_new_spec a b j2 Ka) as (j3 & E3 & Ed3 & Kp3 & Id3 & D3).
  destruct (append_new_spec b a j3 (Kp3 b Kb))
    as (j4 & E4 & Ed4 & Kp4 & Id4 & D4).
  exists j4. rewrite E3. cbn [mbind outcome_bind]. rewrite E4.
  cbn [mbind outcome_bind]. split; [reflexivity|].
  assert (E2 : forall x y, Bridges.edge j2 x y <-> Bridges.edge jbs x y).
  { intros x y. unfold j2, j1. rewrite !ensure_key_edge. reflexivity. }
  repeat split.
  - intros H. apply Ed4 in H. rewrite Ed3, E2 in H. tauto.
  - intros H. apply Ed4. rewrite Ed3, E2. tauto.
  - intros H. apply D4, D3. unfold j2, j1.
    apply ensure_key_duplicate_free, ensure_key_duplicate_free, H.
  - intros Hab Hba.
    assert (J1 : j1 = jbs).
    { apply ensure_key_same. destruct Hab as (l & -> & _). eauto. }
    assert (J2 : j2 = jbs).
    { unfold j2. rewrite J1. apply ensure_key_same.
      destruct Hba as (l & -> & _). eauto. }
    assert (J3 : j3 = jbs).
    { transitivity j2; [|exact J2]. apply Id3. rewrite J2. exact Hab. }
    transitivity j3; [|exact J3]. apply Id4. rewrite J3. exact Hba.
Qed.

Lemma add_jumpbridge_skipped (name_to_id : gmap string Z)
    (jbs : gmap Z (list Z)) (jb_count skipped : Z)
    (system1 system2 alliance : string) :
  Loader.truthy_id (name_to_id !! system1) = None
  \/ Loader.truthy_id (name_to_id !! system2) = None ->
  Loader.add_jumpbridge name_to_id (jbs, jb_count, skipped)
    (system1, system2, alliance)
  = Return (jbs, jb_count, skipped + 1).
Proof.
  unfold Loader.add_jumpbridge. intros [H|H]; rewrite H; [reflexivity|].
  destruct (Loader.truthy_id (name_to_id !! system1)); reflexivity.
Qed.

Lemma jumpbridge_loop (name_to_id : gmap string Z)
    (JUMPBRIDGES : list (string * string * string)) :
  forall (jbs : gmap Z (list Z)) (jb_count skipped : Z),
  exists jbs' jb_count' skipped',
    for_loop (Loader.add_jumpbridge name_to_id) JUMPBRIDGES
      (jbs, jb_count, skipped)
    = Return (jbs', jb_count', skipped')
    /\ (forall x y,
          Bridges.edge jbs' x y
          <-> Bridges.edge jbs x y
              \/ Bridges.resolved name_to_id JUMPBRIDGES x y
              \/ Bridges.resolved name_to_id JUMPBRIDGES y x)
    /\ (Bridges.duplicate_free jbs -> Bridges.duplicate_free jbs')
    /\ jb_count <= jb_count'
    /\ (jb_count < jb_count'
        <-> exists a b, Bridges.resolved name_to_id JUMPBRIDGES a b)
    /\ ((forall a b, Bridges.resolved name_to_id JUMPBRIDGES a b ->
           Bridges.edge jbs a b /\ Bridges.edge jbs b a) ->
        jbs' = jbs).
Proof.
  induction JUMPBRIDGES as [|[[system1 system2] alliance] rest IH];
    intros jbs jb_count skipped.
  - exists jbs, jb_count, skipped. split; [reflexivity|].
    assert (Hno : forall a b, ~ Bridges.resolved name_to_id [] a b)
      by (intros a b (s1 & s2 & al & [] & _)).
    repeat split; auto; try lia.
    + intros [H|[H|H]]; [exact H| |]; destruct (Hno _ _ H).
    + intros (a & b & H). destruct (Hno _ _ H).
  - cbn [for_loop].
    destruct (Loader.truthy_id (name_to_id !! system1)) as [a|] eqn:Ha;
      [destruct (Loader.truthy_id (name_to_id !! system2)) as [b|] eqn:Hb|].
    + destruct (add_jumpbridge_resolved name_to_id jbs jb_count skipped
                  system1 system2 alliance a b Ha Hb)
        as (j1 & E1 & Ed1 & D1 & Id1).
      destruct (IH j1 (jb_count + 1) skipped)
        as (j2 & c2 & s2 & E2 & Ed2 & D2 & Hle & Hlt & Id2).
      exists j2, c2, s2. rewrite E1. cbn [mbind outcome_bind].
      split; [exact E2|].
      assert (Hhead : Bridges.resolved name_to_id
                        ((system1, system2, alliance) :: rest) a b).
      { exists system1, system2, alliance. split; [left; reflexivity|auto]. }
      assert (Hres : forall x y,
                Bridges.resolved name_to_id
                  ((system1, system2, alliance) :: rest) x y
                <-> (x = a /\ y = b) \/ Bridges.resolved name_to_id rest x y).
      { intros x y. split.
        - intros (s1 & s2' & al & [Heq|Hin] & H1 & H2).
          + inversion Heq; subst. left. split; congruence.
          + right. exists s1, s2', al. auto.
        - intros [[-> ->]|(s1 & s2' & al & Hin & H1 & H2)];
            [exact Hhead|].
          exists s1, s2', al. split; [right; exact Hin|auto]. }
      repeat split.
      * intros H. apply Ed2 in H. rewrite Ed1 in H. rewrite !Hres. tauto.
      * intros H. apply Ed2. rewrite Ed1. rewrite !Hres in H. tauto.
      * auto.
      * lia.
      * intros _. eauto.
      * intros _. lia.
      * intros Hall. destruct (Hall a b Hhead) as [Hab Hba].
        assert (J1 : j1 = jbs) by (apply Id1; assumption).
        transitivity j1; [|exact J1]. apply Id2. intros x y Hxy.
        rewrite J1.
        apply Hall. apply Hres. right. exact Hxy.
    + rewrite add_jumpbridge_skipped by (right; exact Hb).
      cbn [mbind outcome_bind].
      destruct (IH jbs jb_count (skipped + 1))
        as (j2 & c2 & s2 & E2 & Ed2 & D2 & Hle & Hlt & Id2).
      exists j2, c2, s2. split; [exact E2|].
      assert (Hres : forall x y,
                Bridges.resolved name_to_id
                  ((system1, system2, alliance) :: rest) x y
                <-> Bridges.resolved name_to_id rest x y).
      { intros x y. split.
        - intros (s1 & s2' & al & [Heq|Hin] & H1 & H2).
          + inversion Heq; subst. congruence.
          + exists s1, s2', al. auto.
        - intros (s1 & s2' & al & Hin & H1 & H2).
          exists s1, s2', al. split; [right; exact Hin|auto]. }
      repeat split.
      * intros H. apply Ed2 in H. rewrite !Hres. exact H.
      * intros H. apply Ed2. rewrite !Hres in H. exact H.
      * exact D2.
      * exact Hle.
      * intros H. apply Hlt in H. destruct H as (x & y & H).
        exists x, y. apply Hres. exact H.
      * intros (x & y & H). apply Hlt. exists x, y. apply Hres. exact H.
      * intros Hall. apply Id2. intros x y Hxy. apply Hall. apply Hres.
        exact Hxy.
    + rewrite add_jumpbridge_skipped by (left; exact Ha).
      cbn [mbind outcome_bind].
      destruct (IH jbs jb_count (skipped + 1))
        as (j2 & c2 & s2 & E2 & Ed2 & D2 & Hle & Hlt & Id2).
      exists j2, c2, s2. split; [exact E2|].
      assert (Hres : forall x y,
                Bridges.resolved name_to_id
                  ((system1, system2, alliance) :: rest) x y
                <-> Bridges.resolved name_to_id rest x y).
      { intros x y. split.
        - intros (s1 & s2' & al & [Heq|Hin] & H1 & H2).
          + inversion Heq; subst. congruence.
          + exists s1, s2', al. auto.
        - intros (s1 & s2' & al & Hin & H1 & H2).
          exists s1, s2', al. split; [right; exact Hin|auto]. }
      repeat split.
      * intros H. apply Ed2 in H. rewrite !Hres. exact H.
      * intros H. apply Ed2. rewrite !Hres in H. exact H.
      * exact D2.
      * exact Hle.
      * intros H. apply Hlt in H. destruct H as (x & y & H).
        exists x, y. apply Hres. exact H.
      * intros (x & y & H). apply Hlt. exists x, y. apply Hres. exact H.
      * intros Hall. apply Id2. intros x y Hxy. apply Hall. apply Hres.
        exact Hxy.
Qed.

(** X18. [load_jumpbridges] never raises (the two subscripts it performs
    always find their key), leaves the name and gate tables alone, and
    links exactly the resolved rows, in both directions: after the call
    [b] is listed under [a] exactly when it was listed before or some row
    of the table, read in either direction, names two systems whose ids
    are known and non-zero and are [a] and [b].  The returned flag is True
    exactly when at least one row resolves; rows with an unknown name are
    skipped, and a failed import changes nothing and returns False. *)
Theorem load_jumpbridges_links_resolved_rows (self : Loader.EVESDELoader)
    (JUMPBRIDGES : list (string * string * string)) :
  Loader.load_jumpbridges self None = Return (self, false)
  /\ exists self' flag,
       Loader.load_jumpbridges self (Some JUMPBRIDGES) = Return (self', flag)
       /\ Loader.system_name_to_id self' = Loader.system_name_to_id self
       /\ Loader.system_id_to_name self' = Loader.system_id_to_name self
       /\ Loader.system_jumps self' = Loader.system_jumps self
       /\ (forall a b,
             Bridges.edge (Loader.jumpbridges self') a b
             <-> Bridges.edge (Loader.jumpbridges self) a b
                 \/ Bridges.resolved (Loader.system_name_to_id self)
                      JUMPBRIDGES a b
                 \/ Bridges.resolved (Loader.system_name_to_id self)
                      JUMPBRIDGES b a)
       /\ (flag = true
           <-> exists a b,
                 Bridges.resolved (Loader.system_name_to_id self)
                   JUMPBRIDGES a b).
Proof.
  split; [reflexivity|]. unfold Loader.load_jumpbridges.
  destruct (jumpbridge_loop (Loader.system_name_to_id self) JUMPBRIDGES
              (Loader.jumpbridges self) 0 0)
    as (jbs & c & s & E & Hedge & _ & _ & Hlt & _).
  rewrite E. cbn [mbind outcome_bind]. eexists _, _.
  split; [reflexivity|]. cbn [Loader.system_name_to_id
    Loader.system_id_to_name Loader.system_jumps Loader.jumpbridges].
  repeat split; [apply Hedge|apply Hedge| |].
  - intros H. apply Z.ltb_lt in H. apply Hlt. exact H.
  - intros H. apply Z.ltb_lt. apply Hlt. exact H.
Qed.

(** X19. Starting from a jumpbridge dict that is symmetric and whose
    adjacency lists name no system twice (in particular from the empty
    dict of a new loader), [load_jumpbridges] returns with a dict that is
    again symmetric and free of duplicates, also when the table repeats a
    row, lists it in both directions or links a system to itself. *)
Theorem load_jumpbridges_keeps_network_sound (self : Loader.EVESDELoader)
    (JUMPBRIDGES : list (string * string * string)) :
  Bridges.symmetric (Loader.jumpbridges self) ->
  Bridges.duplicate_free (Loader.jumpbridges self) ->
  exists self' flag,
    Loader.load_jumpbridges self (Some JUMPBRIDGES) = Return (self', flag)
    /\ Bridges.symmetric (Loader.jumpbridges self')
    /\ Bridges.duplicate_free (Loader.jumpbridges self').
Proof.
  intros Hsym Hdup. unfold Loader.load_jumpbridges.
  destruct (jumpbridge_loop (Loader.system_name_to_id self) JUMPBRIDGES
              (Loader.jumpbridges self) 0 0)
    as (jbs & c & s & E & Hedge & Hd & _ & _ & _).
  rewrite E. cbn [mbind outcome_bind]. eexists _, _.
  split; [reflexivity|]. cbn [Loader.jumpbridges]. split; [|auto].
  intros a b H. apply Hedge in H. apply Hedge.
  destruct H as [H|[H|H]]; [left; apply Hsym; exact H|auto|auto].
Qed.

Lemma load_jumpbridges_keeps_network_sound_witness :
  exists self' flag,
    Loader.load_jumpbridges
      (Loader.mkLoader (<["A" := 1]> (<["B" := 2]> ∅)) ∅ ∅ ∅)
      (Some [("A", "B", "x"); ("B", "A", "x"); ("A", "A", "x");
             ("A", "C", "x")])
    = Return (self', flag)
    /\ Bridges.symmetric (Loader.jumpbridges self')
    /\ Bridges.duplicate_free (Loader.jumpbridges self').
Proof.
  apply load_jumpbridges_keeps_network_sound.
  - intros a b (l & Hl & _). cbn [Loader.jumpbridges] in Hl.
    rewrite lookup_empty in Hl. discriminate.
  - intros k l Hl. cbn [Loader.jumpbridges] in Hl.
    rewrite lookup_empty in Hl. discriminate.
Defined.

(** X20. Loading the jumpbridge table a second time changes nothing: the
    second call returns the same flag and leaves the loader as the first
    call left it, so a reload does not duplicate links. *)
Theorem load_jumpbridges_idempotent (self : Loader.EVESDELoader)
    (JUMPBRIDGES : list (string * string * string)) :
  exists self' flag,
    Loader.load_jumpbridges self (Some JUMPBRIDGES) = Return (self', flag)
    /\ Loader.load_jumpbridges self' (Some JUMPBRIDGES)
       = Return (self', flag).
Proof.
  unfold Loader.load_jumpbridges.
  destruct (jumpbridge_loop (Loader.system_name_to_id self) JUMPBRIDGES
              (Loader.jumpbridges self) 0 0)
    as (jbs & c & s & E & Hedge & _ & _ & Hlt & _).
  rewrite E. cbn [mbind outcome_bind]. eexists _, _.
  split; [reflexivity|].
  cbn [Loader.system_name_to_id Loader.system_id_to_name
       Loader.system_jumps Loader.jumpbridges].
  destruct (jumpbridge_loop (Loader.system_name_to_id self) JUMPBRIDGES
              jbs 0 0)
    as (jbs2 & c2 & s2 & E2 & _ & _ & _ & Hlt2 & Hid).
  rewrite E2. cbn [mbind outcome_bind].
  assert (J : jbs2 = jbs).
  { apply Hid. intros a b H. split; apply Hedge; auto. }
  assert (F : (0 <? c2) = (0 <? c)).
  { destruct (0 <? c) eqn:Ec.
    - apply Z.ltb_lt. apply Hlt2. apply Hlt. apply Z.ltb_lt. exact Ec.
    - apply Z.ltb_ge. apply Z.ltb_ge in Ec.
      destruct (Z_lt_le_dec 0 c2) as [Hpos|Hle]; [|exact Hle].
      apply Hlt2 in Hpos. apply Hlt in Hpos. lia. }
  rewrite J, F. reflexivity.
Qed.

(** ** Validated names *)

Lemma lstrip_split (l : list ascii) :
  exists pre, l = (pre ++ SecurityValidator.lstrip l)%list.
Proof.
  induction l as [|c l [pre IH]]; [exists []; reflexivity|]. simpl.
  destruct (SecurityValidator.is_space c).
  - exists (c :: pre). simpl. f_equal. exact IH.
  - exists []. reflexivity.
Qed.

Lemma lstrip_head (l : list ascii) (c : ascii) (rest : list ascii) :
  SecurityValidator.lstrip l = c :: rest -> SecurityValidator.is_space c = false.
Proof.
  induction l as [|x l IH]; simpl; [discriminate|].
  destruct (SecurityValidator.is_space x) eqn:E; [exact IH|].
  intros H. inversion H; subst. exact E.
Qed.

Lemma lstrip_fixed (l : list ascii) :
  (forall c rest, l = c :: rest -> SecurityValidator.is_space c = false) ->
  SecurityValidator.lstrip l = l.
Proof.
  destruct l as [|c rest]; [reflexivity|]. intros H. simpl.
  rewrite (H c rest eq_refl). reflexivity.
Qed.

Lemma lstrip_forallb (P : ascii -> bool) (l : list ascii) :
  forallb P l = true -> forallb P (SecurityValidator.lstrip l) = true.
Proof.
  induction l as [|c l IH]; simpl; [auto|]. intros H.
  destruct (SecurityValidator.is_space c); [|exact H].
  apply andb_prop in H. apply IH, H.
Qed.

Lemma lstrip_length (l : list ascii) :
  (length (SecurityValidator.lstrip l) <= length l)%nat.
Proof.
  induction l as [|c l IH]; simpl; [lia|].
  destruct (SecurityValidator.is_space c); simpl; lia.
Qed.

Lemma forallb_rev {A} (P : A -> bool) (l : list A) :
  forallb P (rev l) = forallb P l.
Proof.
  induction l as [|x l IH]; [reflexivity|]. simpl.
  rewrite forallb_app, IH. simpl. rewrite andb_true_r. apply andb_comm.
Qed.

(** The characters of a stripped string: what is left has no white space
    at either end, and stripping it again changes nothing. *)
Lemma strip_chars (l : list ascii) :
  let r := rev (SecurityValidator.lstrip (rev (SecurityValidator.lstrip l))) in
  (forall c rest, r = c :: rest -> SecurityValidator.is_space c = false)
  /\ (forall c rest, rev r = c :: rest -> SecurityValidator.is_space c = false)
  /\ (length r <= length l)%nat
  /\ (forall P, forallb P l = true -> forallb P r = true).
Proof.
  set (l1 := SecurityValidator.lstrip l).
  set (l2 := SecurityValidator.lstrip (rev l1)). intros r.
  assert (Hrev : rev r = l2) by (unfold r; apply rev_involutive).
  repeat split.
  - intros c rest Hr.
    destruct (lstrip_split (rev l1)) as [pre Hpre]. fold l2 in Hpre.
    assert (Hl1 : l1 = (r ++ rev pre)%list).
    { rewrite <- (rev_involutive l1), Hpre, rev_app_distr. reflexivity. }
    rewrite Hr in Hl1. simpl in Hl1.
    apply (lstrip_head l c (rest ++ rev pre)%list). exact Hl1.
  - intros c rest Hr. rewrite Hrev in Hr.
    apply (lstrip_head (rev l1) c rest). exact Hr.
  - pose proof (lstrip_length (rev l1)) as H1.
    pose proof (lstrip_length l) as H2.
    subst r l2 l1. rewrite length_rev in *. lia.
  - intros P HP. unfold r. rewrite forallb_rev.
    apply lstrip_forallb. rewrite forallb_rev. apply lstrip_forallb, HP.
Qed.

Lemma strip_list (s : string) :
  list_ascii_of_string (SecurityValidator.strip s)
  = rev (SecurityValidator.lstrip
           (rev (SecurityValidator.lstrip (list_ascii_of_string s)))).
Proof.
  unfold SecurityValidator.strip.
  apply list_ascii_of_string_of_list_ascii.
Qed.

Lemma strip_strip (s : string) :
  SecurityValidator.strip (SecurityValidator.strip s)
  = SecurityValidator.strip s.
Proof.
  unfold SecurityValidator.strip at 1. rewrite strip_list.
  destruct (strip_chars (list_ascii_of_string s)) as (Hh & Ht & _).
  cbv zeta in Hh, Ht.
  set (r := rev (SecurityValidator.lstrip
                   (rev (SecurityValidator.lstrip (list_ascii_of_string s)))))
    in *.
  rewrite (lstrip_fixed r Hh), (lstrip_fixed (rev r) Ht), rev_involutive.
  reflexivity.
Qed.

Lemma string_length_list (s : string) :
  String.length s = length (list_ascii_of_string s).
Proof. induction s as [|c s IH]; simpl; congruence. Qed.

Lemma validate_system_name_Some (s r : string) :
  SecurityValidator.validate_system_name s = Some r
  <-> s <> ""
      /\ Z.of_nat (String.length s) <= SecurityValidator.MAX_SYSTEM_NAME_LENGTH
      /\ forallb SecurityValidator.name_char (list_ascii_of_string s) = true
      /\ r = SecurityValidator.strip s.
Proof.
  unfold SecurityValidator.validate_system_name.
  destruct (String.eqb_spec s "") as [->|Hne]; simpl.
  - split; [discriminate|]. intros (H & _). congruence.
  - destruct (Z.ltb_spec SecurityValidator.MAX_SYSTEM_NAME_LENGTH
                (Z.of_nat (String.length s))) as [Hlong|Hshort]; simpl.
    + split; [discriminate|]. intros (_ & H & _).
      unfold SecurityValidator.MAX_SYSTEM_NAME_LENGTH in *. lia.
    + destruct (forallb SecurityValidator.name_char (list_ascii_of_string s));
        simpl.
      * split; [intros H; inversion H; auto|].
        intros (_ & _ & _ & ->). reflexivity.
      * split; [discriminate|]. intros (_ & _ & H & _). discriminate.
Qed.

Lemma validated_name_again (s r : string) :
  SecurityValidator.validate_system_name s = Some r -> r <> "" ->
  SecurityValidator.validate_system_name r = Some r.
Proof.
  intros H Hr. apply validate_system_name_Some in H.
  destruct H as (Hne & Hlen & Hall & ->).
  destruct (strip_chars (list_ascii_of_string s)) as (_ & _ & Hl & Hp).
  cbv zeta in Hl, Hp. rewrite <- strip_list in Hl, Hp.
  rewrite <- !string_length_list in Hl.
  apply validate_system_name_Some. repeat split; [exact Hr| | |].
  - unfold SecurityValidator.MAX_SYSTEM_NAME_LENGTH in *. lia.
  - apply Hp, Hall.
  - symmetry. apply strip_strip.
Qed.

(** X21. A name accepted by [validate_system_name] comes back in canonical
    form: it consists of letters, digits, white space and hyphens only,
    is no longer than the input (itself at most 100 characters), has no
    white space at either end, and validating it again returns it
    unchanged, unless it is empty (an input of white space only), which a
    second validation rejects.  White space is what Python's [\s] and
    [str.strip()] take for it, the no-break space U+00A0 and the next-line
    character U+0085 included: such a character is accepted inside a name
    and stripped at its ends. *)
Theorem validated_names_are_canonical (system_name r : string) :
  SecurityValidator.validate_system_name system_name = Some r ->
  forallb SecurityValidator.name_char (list_ascii_of_string r) = true
  /\ (String.length r <= String.length system_name <= 100)%nat
  /\ (forall c rest, list_ascii_of_string r = c :: rest ->
        SecurityValidator.is_space c = false)
  /\ (forall c rest, rev (list_ascii_of_string r) = c :: rest ->
        SecurityValidator.is_space c = false)
  /\ (r <> "" -> SecurityValidator.validate_system_name r = Some r)
  /\ (r = "" -> SecurityValidator.validate_system_name r = None).
Proof.
  intros H. apply validate_system_name_Some in H.
  destruct H as (Hne & Hlen & Hall & ->).
  destruct (strip_chars (list_ascii_of_string system_name))
    as (Hh & Ht & Hl & Hp).
  cbv zeta in Hh, Ht, Hl, Hp. rewrite <- strip_list in Hh, Ht, Hl, Hp.
  rewrite <- !string_length_list in Hl.
  unfold SecurityValidator.MAX_SYSTEM_NAME_LENGTH in Hlen.
  repeat split; try assumption; try lia.
  - apply Hp, Hall.
  - intros Hr. apply validate_system_name_Some.
    repeat split; [exact Hr| | |].
    + unfold SecurityValidator.MAX_SYSTEM_NAME_LENGTH. lia.
    + apply Hp, Hall.
    + symmetry. apply strip_strip.
  - intros ->. reflexivity.
Qed.

Lemma validated_names_are_canonical_witness :
  forallb SecurityValidator.name_char
    (list_ascii_of_string (String "J" (String (ascii_of_nat 160) "ita")))
  = true
  /\ (String.length (String "J" (String (ascii_of_nat 160) "ita"))
      <= String.length
           (String (ascii_of_nat 133)
              (String "J" (String (ascii_of_nat 160) "ita  ")))
      <= 100)%nat
  /\ SecurityValidator.validate_system_name
       (String "J" (String (ascii_of_nat 160) "ita"))
     = Some (String "J" (String (ascii_of_nat 160) "ita")).
Proof.
  destruct (validated_names_are_canonical
              (String (ascii_of_nat 133)
                 (String "J" (String (ascii_of_nat 160) "ita  ")))
              (String "J" (String (ascii_of_nat 160) "ita")))
    as (H1 & H2 & _ & _ & H5 & _).
  - reflexivity.
  - split; [exact H1|]. split; [exact H2|]. apply H5. discriminate.
Defined.

(** ** Loading the systems file *)

Lemma validate_integer_Some (n lo hi : Z) :
  Loader.truthy_id
    (m ← Some n; SecurityValidator.validate_integer m (Some lo) (Some hi))
  = (if (lo <=? n) && (n <=? hi) && negb (n =? 0) then Some n else None).
Proof.
  cbn [mbind option_bind]. unfold SecurityValidator.validate_integer.
  destruct (Z.ltb_spec n lo), (Z.leb_spec lo n); try lia; simpl;
    [reflexivity|].
  destruct (Z.ltb_spec hi n), (Z.leb_spec n hi); try lia; simpl;
    [reflexivity|].
  destruct n; reflexivity.
Qed.

Lemma load_system_row_cases (self : Loader.EVESDELoader)
    (row : Loader.SystemRow) :
  (Loader.load_system_row self row = self
   /\ forall i n, ~ Names.accepted row i n)
  \/ exists i n,
       Names.accepted row i n
       /\ Loader.load_system_row self row
          = Loader.mkLoader
              (<[n := i]> (Loader.system_name_to_id self))
              (<[i := n]> (Loader.system_id_to_name self))
              (Loader.system_jumps self) (Loader.jumpbridges self).
Proof.
  unfold Loader.load_system_row, Names.accepted.
  destruct row as [oi oname og sec]; cbn [Loader.row_system_id
    Loader.row_system_name Loader.row_region_id Loader.row_has_security].
  destruct oi as [i|];
    [|left; split; [reflexivity|]; intros i' n' (H & _); discriminate].
  rewrite validate_integer_Some.
  destruct ((30000000 <=? i) && (i <=? 33000000) && negb (i =? 0)) eqn:Ei.
  2:{ left. split; [reflexivity|]. intros i' n' (Hi & Hr & _).
      inversion Hi; subst i'.
      destruct (Z.leb_spec 30000000 i), (Z.leb_spec i 33000000),
        (Z.eqb_spec i 0); simpl in Ei; try discriminate; lia. }
  destruct oname as [name|]; cbn [mbind option_bind];
    [|left; split; [reflexivity|];
      intros i' n' (_ & _ & (nm & H & _) & _); discriminate].
  destruct (SecurityValidator.validate_system_name name) as [n|] eqn:En.
  2:{ left. split; [reflexivity|].
      intros i' n' (_ & _ & (nm & H & Hv) & _). inversion H; subst nm.
      congruence. }
  destruct (String.eqb_spec n "") as [->|Hn].
  { left. split; [reflexivity|].
    intros i' n' (_ & _ & (nm & H & Hv) & Hne & _). inversion H; subst nm.
    congruence. }
  destruct og as [g|];
    [|left; split; [reflexivity|];
      intros i' n' (_ & _ & _ & _ & (g' & H & _) & _); discriminate].
  rewrite validate_integer_Some.
  destruct ((10000000 <=? g) && (g <=? 11000000) && negb (g =? 0)) eqn:Eg.
  2:{ left. split; [reflexivity|].
      intros i' n' (_ & _ & _ & _ & (g' & Hg & Hr) & _).
      inversion Hg; subst g'.
      destruct (Z.leb_spec 10000000 g), (Z.leb_spec g 11000000),
        (Z.eqb_spec g 0); simpl in Eg; try discriminate; lia. }
  destruct sec; cbn [negb].
  - right. exists i, n. split; [|reflexivity].
    apply andb_prop in Ei. destruct Ei as [Ei _].
    apply andb_prop in Ei. destruct Ei as [E1 E2].
    apply andb_prop in Eg. destruct Eg as [Eg _].
    apply andb_prop in Eg. destruct Eg as [G1 G2].
    apply Z.leb_le in E1, E2, G1, G2.
    split; [reflexivity|]. split; [lia|]. split; [eauto|].
    split; [exact Hn|]. split; [|reflexivity]. exists g. split; [reflexivity|lia].
  - left. split; [reflexivity|].
    intros i' n' (_ & _ & _ & _ & _ & H). discriminate.
Qed.

Lemma load_system_row_canonical (self : Loader.EVESDELoader)
    (row : Loader.SystemRow) :
  Names.canonical self -> Names.canonical (Loader.load_system_row self row).
Proof.
  intros Hc.
  destruct (load_system_row_cases self row)
    as [[-> _]|(i & n & (Hi & Hr & (name & _ & Hn) & Hne & _) & ->)];
    [exact Hc|].
  intros m j. cbn [Loader.system_name_to_id].
  destruct (decide (n = m)) as [<-|Hnm].
  - rewrite lookup_insert_eq. intros Hj. inversion Hj; subst j.
    repeat split; [|exact Hne|lia].
    apply validated_name_again with (1 := Hn). exact Hne.
  - rewrite lookup_insert_ne by exact Hnm. apply Hc.
Qed.

Lemma load_system_row_keeps (self : Loader.EVESDELoader)
    (row : Loader.SystemRow) :
  (forall n, is_Some (Loader.system_name_to_id self !! n) ->
     is_Some (Loader.system_name_to_id (Loader.load_system_row self row) !! n))
  /\ (forall i, is_Some (Loader.system_id_to_name self !! i) ->
        is_Some
          (Loader.system_id_to_name (Loader.load_system_row self row) !! i))
  /\ Loader.system_jumps (Loader.load_system_row self row)
     = Loader.system_jumps self
  /\ Loader.jumpbridges (Loader.load_system_row self row)
     = Loader.jumpbridges self.
Proof.
  destruct (load_system_row_cases self row)
    as [[-> _]|(i & n & _ & ->)]; [auto|].
  cbn [Loader.system_name_to_id Loader.system_id_to_name
       Loader.system_jumps Loader.jumpbridges].
  repeat split.
  - intros m Hm. destruct (decide (n = m)) as [<-|Hnm].
    + rewrite lookup_insert_eq. eauto.
    + rewrite lookup_insert_ne by exact Hnm. exact Hm.
  - intros j Hj. destruct (decide (i = j)) as [<-|Hij].
    + rewrite lookup_insert_eq. eauto.
    + rewrite lookup_insert_ne by exact Hij. exact Hj.
Qed.

Lemma load_systems_spec (reader : list Loader.SystemRow) :
  forall self : Loader.EVESDELoader,
  let self' := Loader._load_systems_processed self reader in
  (Names.canonical self -> Names.canonical self')
  /\ (forall n, is_Some (Loader.system_name_to_id self !! n) ->
        is_Some (Loader.system_name_to_id self' !! n))
  /\ (forall i, is_Some (Loader.system_id_to_name self !! i) ->
        is_Some (Loader.system_id_to_name self' !! i))
  /\ (forall row i n, In row reader -> Names.accepted row i n ->
        is_Some (Loader.system_name_to_id self' !! n)
        /\ is_Some (Loader.system_id_to_name self' !! i))
  /\ (forall n, is_Some (Loader.system_name_to_id self' !! n) ->
        is_Some (Loader.system_name_to_id self !! n)
        \/ exists row i, In row reader /\ Names.accepted row i n)
  /\ Loader.system_jumps self' = Loader.system_jumps self
  /\ Loader.jumpbridges self' = Loader.jumpbridges self.
Proof.
  unfold Loader._load_systems_processed.
  induction reader as [|row rest IH]; intros self; cbn [fold_left].
  - split; [auto|]. split; [auto|]. split; [auto|].
    split; [intros row i n []|]. split; [auto|]. split; reflexivity.
  - destruct (IH (Loader.load_system_row self row))
      as (Hc & Hn & Hi & Hacc & Hback & Hj & Hb).
    destruct (load_system_row_keeps self row) as (Kn & Ki & Kj & Kb).
    split; [|split; [|split; [|split; [|split; [|split]]]]].
    + intros H. apply Hc, load_system_row_canonical, H.
    + intros n H. apply Hn, Kn, H.
    + intros i H. apply Hi, Ki, H.
    + intros row0 i n [<-|Hin] Hrow; [|exact (Hacc row0 i n Hin Hrow)].
      destruct (load_system_row_cases self row)
        as [[_ Hno]|(i' & n' & Ha & E)]; [destruct (Hno i n Hrow)|].
      destruct Hrow as (Hid & _ & (nm & Hnm & Hv) & _).
      destruct Ha as (Hid' & _ & (nm' & Hnm' & Hv') & _).
      assert (nm' = nm) by congruence. subst nm'.
      assert (n' = n) by congruence. assert (i' = i) by congruence.
      subst n' i'. split.
      * apply Hn. rewrite E. cbn [Loader.system_name_to_id].
        rewrite lookup_insert_eq. eauto.
      * apply Hi. rewrite E. cbn [Loader.system_id_to_name].
        rewrite lookup_insert_eq. eauto.
    + intros n H. apply Hback in H.
      destruct H as [H|(r & i & Hin & Ha)];
        [|right; exists r, i; split; [right; exact Hin|exact Ha]].
      destruct (load_system_row_cases self row)
        as [[E _]|(i' & n' & Ha & E)]; rewrite E in H; [left; exact H|].
      cbn [Loader.system_name_to_id] in H.
      destruct (decide (n' = n)) as [<-|Hne].
      * right. exists row, i'. split; [left; reflexivity|exact Ha].
      * rewrite lookup_insert_ne in H by exact Hne. left. exact H.
    + rewrite Hj. exact Kj.
    + rewrite Hb. exact Kb.
Qed.

Lemma load_systems_no_security (self : Loader.EVESDELoader)
    (reader : list Loader.SystemRow) :
  (forall row, In row reader -> Loader.row_has_security row = false) ->
  Loader._load_systems_processed self reader = self.
Proof.
  unfold Loader._load_systems_processed.
  induction reader as [|row rest IH]; intros Hno; [reflexivity|].
  cbn [fold_left].
  destruct (load_system_row_cases self row)
    as [[E _]|(i & n & (_ & _ & _ & _ & _ & Hsec) & _)].
  - rewrite E. apply IH. intros r Hr. apply Hno. right. exact Hr.
  - rewrite (Hno row (or_introl eq_refl)) in Hsec. discriminate.
Qed.

(** X22. What [_load_systems_processed] stores can be found again.
    Starting from a loader whose stored names are canonical (in
    particular an empty one), after loading any rows: every stored name
    is a non-empty name that validation returns unchanged, with a
    non-zero id, so [find_path] from the name to itself answers with that
    name; every row that has its four columns and passes the three
    checks is present under its stripped name and under its id, also when
    later rows reuse the name or the id; no name is stored that was not
    there before or did not come from such a row; the gate and jumpbridge
    tables are not touched; and a file without the security column stores
    nothing, every row being skipped on the [KeyError]. *)
Theorem stored_names_can_be_found (self : Loader.EVESDELoader)
    (reader : list Loader.SystemRow) :
  Names.canonical self ->
  Names.canonical (Loader._load_systems_processed self reader)
  /\ (forall n fuel max_jumps use_jumpbridges,
        is_Some (Loader.system_name_to_id
                   (Loader._load_systems_processed self reader) !! n) ->
        1 <= max_jumps <= 100 ->
        Loader.find_path fuel (Loader._load_systems_processed self reader)
          n n max_jumps use_jumpbridges
        = Return (Some [n]))
  /\ (forall row i n, In row reader -> Names.accepted row i n ->
        is_Some (Loader.system_name_to_id
                   (Loader._load_systems_processed self reader) !! n)
        /\ is_Some (Loader.system_id_to_name
                      (Loader._load_systems_processed self reader) !! i))
  /\ (forall n,
        is_Some (Loader.system_name_to_id
                   (Loader._load_systems_processed self reader) !! n) ->
        is_Some (Loader.system_name_to_id self !! n)
        \/ exists row i, In row reader /\ Names.accepted row i n)
  /\ Loader.system_jumps (Loader._load_systems_processed self reader)
     = Loader.system_jumps self
  /\ Loader.jumpbridges (Loader._load_systems_processed self reader)
     = Loader.jumpbridges self
  /\ ((forall row, In row reader -> Loader.row_has_security row = false) ->
      Loader._load_systems_processed self reader = self).
Proof.
  intros Hcan.
  destruct (load_systems_spec reader self)
    as (Hc & _ & _ & Hacc & Hback & Hj & Hb).
  cbv zeta in Hc, Hacc, Hback, Hj, Hb.
  split; [auto|]. split; [|split; [exact Hacc|split; [exact Hback|
    split; [exact Hj|split; [exact Hb|apply load_systems_no_security]]]]].
  intros n fuel max_jumps use_jumpbridges [i Hi] Hmj.
  destruct (Hc Hcan n i Hi) as (Hv & Hne & Hi0).
  unfold Loader.find_path. rewrite Hv.
  unfold SecurityValidator.validate_integer.
  destruct (Z.ltb_spec max_jumps 1); [lia|].
  destruct (Z.ltb_spec 100 max_jumps); [lia|].
  destruct (String.eqb_spec n ""); [contradiction|]. cbn [orb].
  rewrite Hi.
  assert (HT : Loader.truthy_id (Some i) = Some i)
    by (destruct i; [contradiction|reflexivity|reflexivity]).
  rewrite HT, Z.eqb_refl. reflexivity.
Qed.

Lemma stored_names_can_be_found_witness :
  Loader.find_path 0
    (Loader._load_systems_processed (Loader.mkLoader ∅ ∅ ∅ ∅)
       [Loader.mkSystemRow (Some 30000142) (Some " Jita ") (Some 10000002)
          true;
        Loader.mkSystemRow None (Some "Amarr") (Some 10000043) true])
    "Jita" "Jita" 5 true
  = Return (Some ["Jita"]).
Proof.
  assert (Hempty : Names.canonical (Loader.mkLoader ∅ ∅ ∅ ∅)).
  { intros n i H. cbn [Loader.system_name_to_id] in H.
    rewrite lookup_empty in H. discriminate. }
  apply (stored_names_can_be_found _ _ Hempty); [|lia].
  vm_compute. eauto.
Defined.

(** ** Sanitizers *)

Lemma remove_dotdot_sublist (l : list ascii) :
  sublist (SecurityValidator.remove_dotdot l) l.
Proof.
  assert (H : forall n (l : list ascii), (length l <= n)%nat ->
            sublist (SecurityValidator.remove_dotdot l) l).
  { induction n as [|n IH]; intros [|c [|c' rest]] Hlen; simpl in *;
      try lia; try reflexivity.
    destruct (Ascii.eqb c "." && Ascii.eqb c' ".").
    - apply sublist_cons, sublist_cons, IH. lia.
    - apply sublist_skip. apply (IH (c' :: rest)). simpl. lia. }
  apply (H (length l)). lia.
Qed.

Lemma sublist_In {A} (l1 l2 : list A) (x : A) :
  sublist l1 l2 -> In x l1 -> In x l2.
Proof.
  induction 1 as [|y l1 l2 _ IH|y l1 l2 _ IH]; simpl; [auto| |];
    intros H; [destruct H as [H|H]; auto|auto].
Qed.

Lemma sanitize_filename_chars (filename : string) :
  let l :=
    List.filter (fun c => negb (SecurityValidator.forbidden_char c))
      (SecurityValidator.remove_dotdot
         (SecurityValidator.remove_char SecurityValidator.backslash
            (SecurityValidator.remove_char SecurityValidator.slash
               (list_ascii_of_string filename)))) in
  sublist l (list_ascii_of_string filename)
  /\ forall c, In c l -> Chars.unsafe_in_filename c = false.
Proof.
  intros l. split.
  - unfold l, SecurityValidator.remove_char.
    etransitivity; [apply list_filter_sublist|].
    etransitivity; [apply remove_dotdot_sublist|].
    etransitivity; apply list_filter_sublist.
  - intros c Hc. unfold l in Hc. apply filter_In in Hc.
    destruct Hc as [Hc Hf]. apply negb_true_iff in Hf.
    apply (sublist_In _ _ _ (remove_dotdot_sublist _)) in Hc.
    unfold SecurityValidator.remove_char in Hc.
    apply filter_In in Hc. destruct Hc as [Hc Hb].
    apply filter_In in Hc. destruct Hc as [_ Hs].
    apply negb_true_iff in Hb, Hs.
    unfold Chars.unsafe_in_filename. rewrite Hs, Hb, Hf. reflexivity.
Qed.

Lemma string_of_list_ascii_eq (l : list ascii) (s : string) :
  string_of_list_ascii l = s -> l = list_ascii_of_string s.
Proof.
  intros <-. symmetry. apply list_ascii_of_string_of_list_ascii.
Qed.

(** X23. Whatever [sanitize_filename] returns is a single, harmless path
    component: it is not empty, not [.] and not [..]; it contains no
    slash, no backslash, none of the characters the pattern forbids and no
    control character; and it is made of characters of the input in their
    order, so it is no longer than the input, itself at most 255
    characters.  Two adjacent dots can survive, though, when the
    character between them is removed by the later substitution. *)
Theorem sanitized_filename_is_one_component (filename r : string) :
  SecurityValidator.sanitize_filename filename = Some r ->
  r <> "" /\ r <> "." /\ r <> ".."
  /\ (forall c, In c (list_ascii_of_string r) ->
        Chars.unsafe_in_filename c = false)
  /\ sublist (list_ascii_of_string r) (list_ascii_of_string filename)
  /\ (String.length r <= String.length filename <= 255)%nat
  /\ SecurityValidator.sanitize_filename ".:.x" = Some "..x".
Proof.
  unfold SecurityValidator.sanitize_filename.
  destruct (String.eqb_spec filename ""); [discriminate|]. cbn [orb].
  destruct (Z.ltb_spec SecurityValidator.MAX_FILENAME_LENGTH
              (Z.of_nat (String.length filename))) as [|Hlen];
    [discriminate|].
  cbv zeta.
  destruct (sanitize_filename_chars filename) as [Hsub Hsafe].
  cbv zeta in Hsub, Hsafe.
  set (l := List.filter _ _) in *.
  destruct (String.eqb_spec (string_of_list_ascii l) "") as [|H0];
    [discriminate|].
  destruct (String.eqb_spec (string_of_list_ascii l) ".") as [|H1];
    [discriminate|].
  destruct (String.eqb_spec (string_of_list_ascii l) "..") as [|H2];
    [discriminate|].
  cbn [orb]. intros H. inversion H; subst r. clear H.
  rewrite list_ascii_of_string_of_list_ascii.
  split; [exact H0|]. split; [exact H1|]. split; [exact H2|].
  split; [exact Hsafe|]. split; [exact Hsub|]. split; [|reflexivity].
  rewrite !string_length_list, list_ascii_of_string_of_list_ascii.
  apply sublist_length in Hsub.
  unfold SecurityValidator.MAX_FILENAME_LENGTH in Hlen.
  rewrite string_length_list in Hlen. lia.
Qed.

Lemma sanitized_filename_is_one_component_witness :
  "datasystems.csv" <> "" /\ "datasystems.csv" <> "." /\ "datasystems.csv" <> ".."
  /\ (forall c, In c (list_ascii_of_string "datasystems.csv") ->
        Chars.unsafe_in_filename c = false)
  /\ sublist (list_ascii_of_string "datasystems.csv")
       (list_ascii_of_string "../data/systems?.csv")
  /\ (String.length "datasystems.csv"
      <= String.length "../data/systems?.csv" <= 255)%nat
  /\ SecurityValidator.sanitize_filename ".:.x" = Some "..x".
Proof.
  apply (sanitized_filename_is_one_component "../data/systems?.csv").
  reflexivity.
Defined.

Section SnowflakeFacts.
Variable decimal : Z -> bool.

Lemma leading_digits_app (ds tl : list Z) :
  forallb decimal ds = true ->
  (forall c tl', tl = c :: tl' -> decimal c = false) ->
  SecurityValidator.leading_digits decimal (ds ++ tl) = (ds, tl).
Proof.
  intros Hds Htl. induction ds as [|d ds IH]; simpl.
  - destruct tl as [|c tl']; [reflexivity|]. simpl.
    rewrite (Htl c tl' eq_refl). reflexivity.
  - simpl in Hds. apply andb_prop in Hds. destruct Hds as [Hd Hds].
    rewrite Hd, (IH Hds). reflexivity.
Qed.

Lemma leading_digits_spec (l : list Z) :
  let '(ds, tl) := SecurityValidator.leading_digits decimal l in
  l = (ds ++ tl)%list
  /\ forallb decimal ds = true
  /\ (forall c tl', tl = c :: tl' -> decimal c = false).
Proof.
  induction l as [|c l IH]; simpl.
  - split; [reflexivity|]. split; [reflexivity|]. intros c tl' H.
    discriminate.
  - destruct (decimal c) eqn:Ec.
    + destruct (SecurityValidator.leading_digits decimal l) as [ds tl].
      destruct IH as (-> & Hds & Htl). simpl. rewrite Ec, Hds. auto.
    + split; [reflexivity|]. split; [reflexivity|].
      intros c' tl' H. inversion H; subst. exact Ec.
Qed.

End SnowflakeFacts.

(** X24. [validate_discord_role_id] returns its argument unchanged or the
    empty string, and it returns the argument exactly when it consists of
    17 to 20 characters that [\d] matches, possibly followed by one
    newline.  So a role id that ends in a newline passes the check and is
    returned with the newline, and so does an id written with the decimal
    digits of another script, for example seventeen fullwidth digits:
    the result need not be made of the digits 0 to 9.  The class of [\d]
    is any set of code points without the newline. *)
Theorem role_id_is_digits_up_to_newline
    (decimal : Z -> bool) (role_id : list Z) :
  decimal SecurityValidator.newline = false ->
  (SecurityValidator.validate_discord_role_id decimal role_id = []
   \/ SecurityValidator.validate_discord_role_id decimal role_id = role_id)
  /\ (SecurityValidator.validate_discord_role_id decimal role_id <> []
      <-> exists ds,
            forallb decimal ds = true
            /\ (17 <= length ds <= 20)%nat
            /\ (role_id = ds
                \/ role_id = (ds ++ [SecurityValidator.newline])%list))
  /\ (forall c, decimal c = true ->
        SecurityValidator.validate_discord_role_id decimal (repeat c 17)
        = repeat c 17
        /\ SecurityValidator.validate_discord_role_id decimal
             (repeat c 17 ++ [SecurityValidator.newline])
           = (repeat c 17 ++ [SecurityValidator.newline])%list).
Proof.
  intros Hnl.
  assert (Hmain : forall role_id,
    (SecurityValidator.validate_discord_role_id decimal role_id = []
     \/ SecurityValidator.validate_discord_role_id decimal role_id = role_id)
    /\ (SecurityValidator.validate_discord_role_id decimal role_id <> []
        <-> exists ds,
              forallb decimal ds = true
              /\ (17 <= length ds <= 20)%nat
              /\ (role_id = ds
                  \/ role_id = (ds ++ [SecurityValidator.newline])%list))).
  { clear role_id. intros role_id.
    destruct role_id as [|c0 rest] eqn:Erole.
    { split; [auto|]. split; [intros H; exfalso; apply H; reflexivity|].
      intros (ds & _ & Hlen & [H|H]).
      - subst ds. simpl in Hlen. lia.
      - destruct ds; discriminate. }
    rewrite <- Erole.
    assert (Hne : role_id <> []) by (rewrite Erole; discriminate).
    assert (Hv : SecurityValidator.validate_discord_role_id decimal role_id
                 = if negb (SecurityValidator.is_snowflake decimal role_id)
                   then [] else role_id)
      by (rewrite Erole; reflexivity).
    rewrite Hv. clear Hv Erole c0 rest.
    unfold SecurityValidator.is_snowflake.
    pose proof (leading_digits_spec decimal role_id) as Hspec.
    destruct (SecurityValidator.leading_digits decimal role_id)
      as [ds tl] eqn:E.
    destruct Hspec as (Hl & Hds & Htl).
    assert (Hconv : forall ds',
              forallb decimal ds' = true ->
              role_id = ds'
              \/ role_id = (ds' ++ [SecurityValidator.newline])%list ->
              ds = ds' /\ (tl = [] \/ tl = [SecurityValidator.newline])).
    { intros ds' Hds' [H|H].
      - rewrite <- (app_nil_r ds') in H. rewrite H in E.
        rewrite leading_digits_app in E;
          [|exact Hds'|intros ? ? ?; discriminate].
        inversion E. auto.
      - rewrite H in E. rewrite leading_digits_app in E; [|exact Hds'|].
        + inversion E. auto.
        + intros c tl' Hc. inversion Hc. exact Hnl. }
    destruct ((17 <=? length ds)%nat && (length ds <=? 20)%nat) eqn:Hlen.
    - apply andb_prop in Hlen. destruct Hlen as [H1 H2].
      apply Nat.leb_le in H1, H2.
      destruct tl as [|c [|c' tl']]; cbn [andb negb].
      + split; [auto|]. split; [|intros _; exact Hne].
        intros _. exists ds. rewrite app_nil_r in Hl. auto.
      + destruct (Z.eqb_spec c SecurityValidator.newline) as [->|Hc];
          cbn [negb].
        * split; [auto|]. split; [|intros _; exact Hne].
          intros _. exists ds. auto.
        * split; [auto|]. split; [intros H; exfalso; apply H; reflexivity|].
          intros (ds' & Hds' & Hlen' & H).
          destruct (Hconv ds' Hds' H) as [_ [Ht|Ht]];
            [discriminate|congruence].
      + split; [auto|]. split; [intros H; exfalso; apply H; reflexivity|].
        intros (ds' & Hds' & Hlen' & H).
        destruct (Hconv ds' Hds' H) as [_ [Ht|Ht]]; discriminate.
    - cbn [andb negb]. split; [auto|].
      split; [intros H; exfalso; apply H; reflexivity|].
      intros (ds' & Hds' & Hlen' & H).
      destruct (Hconv ds' Hds' H) as [<- _].
      destruct (Nat.leb_spec 17 (length ds)), (Nat.leb_spec (length ds) 20);
        simpl in Hlen; try discriminate; lia. }
  split; [apply Hmain|]. split; [apply Hmain|].
  intros c Hc.
  assert (Hall : forallb decimal (repeat c 17) = true)
    by (simpl; rewrite Hc; reflexivity).
  split.
  - destruct (Hmain (repeat c 17)) as [[H|H] Hiff]; [|exact H].
    exfalso. revert H. apply Hiff. exists (repeat c 17).
    split; [exact Hall|]. split; [simpl; lia|auto].
  - destruct (Hmain (repeat c 17 ++ [SecurityValidator.newline])%list)
      as [[H|H] Hiff]; [|exact H].
    exfalso. revert H. apply Hiff. exists (repeat c 17).
    split; [exact Hall|]. split; [simpl; lia|auto].
Qed.

Lemma role_id_is_digits_up_to_newline_witness :
  SecurityValidator.validate_discord_role_id Chars.ascii_digit
    (repeat 49 17 ++ [SecurityValidator.newline])
  = (repeat 49 17 ++ [SecurityValidator.newline])%list.
Proof.
  assert (Hnl : Chars.ascii_digit SecurityValidator.newline = false)
    by reflexivity.
  destruct (role_id_is_digits_up_to_newline Chars.ascii_digit [] Hnl)
    as (_ & _ & H).
  apply (H 49). reflexivity.
Defined.

Lemma escape_char_app (c : ascii) (a b : list ascii) :
  SecurityValidator.escape_char c (a ++ b)
  = (SecurityValidator.escape_char c a
     ++ SecurityValidator.escape_char c b)%list.
Proof. unfold SecurityValidator.escape_char. apply flat_map_app. Qed.

Lemma escape_all_chars (l : list ascii) :
  SecurityValidator.escape_char ">"
    (SecurityValidator.escape_char "|"
       (SecurityValidator.escape_char "`"
          (SecurityValidator.escape_char "~"
             (SecurityValidator.escape_char "_"
                (SecurityValidator.escape_char "*" l)))))
  = flat_map
      (fun x => if Chars.markdown x then [SecurityValidator.backslash; x]
                else [x]) l.
Proof.
  induction l as [|x l IH]; [reflexivity|].
  change (x :: l) with ([x] ++ l)%list.
  rewrite !escape_char_app, IH, flat_map_app. f_equal.
  unfold Chars.markdown. cbn [flat_map app].
  unfold SecurityValidator.escape_char at 6. cbn [flat_map app].
  destruct (Ascii.eqb_spec x "*") as [->|H1]; [reflexivity|].
  unfold SecurityValidator.escape_char at 5. cbn [flat_map app].
  destruct (Ascii.eqb_spec x "_") as [->|H2]; [reflexivity|].
  unfold SecurityValidator.escape_char at 4. cbn [flat_map app].
  destruct (Ascii.eqb_spec x "~") as [->|H3]; [reflexivity|].
  unfold SecurityValidator.escape_char at 3. cbn [flat_map app].
  destruct (Ascii.eqb_spec x "`") as [->|H4]; [reflexivity|].
  unfold SecurityValidator.escape_char at 2. cbn [flat_map app].
  destruct (Ascii.eqb_spec x "|") as [->|H5]; [reflexivity|].
  unfold SecurityValidator.escape_char. cbn [flat_map app].
  destruct (Ascii.eqb_spec x ">") as [->|H6]; reflexivity.
Qed.

Lemma escaped_chars_follow_backslash (l pre post : list ascii) (c : ascii) :
  flat_map
    (fun x => if Chars.markdown x then [SecurityValidator.backslash; x]
              else [x]) l
  = (pre ++ c :: post)%list ->
  Chars.markdown c = true ->
  exists pre', pre = (pre' ++ [SecurityValidator.backslash])%list.
Proof.
  revert pre. induction l as [|x l IH]; intros pre H Hc; simpl in H.
  - destruct pre; discriminate.
  - destruct (Chars.markdown x) eqn:Ex; simpl in H.
    + destruct pre as [|p1 [|p2 pre2]]; simpl in H.
      * injection H as H1 _. rewrite <- H1 in Hc. discriminate.
      * injection H as H1 _. exists []. rewrite H1. reflexivity.
      * injection H as H1 H2 H3. destruct (IH pre2 H3 Hc) as [pre' ->].
        exists (p1 :: p2 :: pre'). reflexivity.
    + destruct pre as [|p1 pre2]; simpl in H.
      * injection H as H1 _. congruence.
      * injection H as H1 H2. destruct (IH pre2 H2 Hc) as [pre' ->].
        exists (p1 :: pre'). reflexivity.
Qed.

(** X25. [sanitize_discord_markdown] behaves as one pass over the text
    that puts a backslash before each of the six markdown characters and
    copies every other character: the six successive replacements do not
    interfere and nothing is escaped twice.  So in the result every
    markdown character stands directly after a backslash, and the result
    is longer than the text by the number of markdown characters in it. *)
Theorem markdown_is_escaped_once (text : string) :
  let escaped :=
    list_ascii_of_string (SecurityValidator.sanitize_discord_markdown text) in
  escaped
  = flat_map
      (fun x => if Chars.markdown x then [SecurityValidator.backslash; x]
                else [x])
      (list_ascii_of_string text)
  /\ (forall pre c post,
        escaped = (pre ++ c :: post)%list -> Chars.markdown c = true ->
        exists pre', pre = (pre' ++ [SecurityValidator.backslash])%list)
  /\ length escaped
     = (length (list_ascii_of_string text)
        + length (List.filter Chars.markdown (list_ascii_of_string text)))%nat.
Proof.
  intros escaped.
  assert (H : escaped
              = flat_map
                  (fun x => if Chars.markdown x
                            then [SecurityValidator.backslash; x] else [x])
                  (list_ascii_of_string text)).
  { unfold escaped, SecurityValidator.sanitize_discord_markdown.
    destruct (String.eqb_spec text "") as [->|_]; [reflexivity|].
    cbv zeta. rewrite list_ascii_of_string_of_list_ascii.
    apply escape_all_chars. }
  split; [exact H|]. split.
  - intros pre c post Hsplit. rewrite H in Hsplit.
    eapply escaped_chars_follow_backslash; exact Hsplit.
  - rewrite H. clear H escaped.
    induction (list_ascii_of_string text) as [|x l IH]; [reflexivity|].
    simpl. rewrite length_app, IH.
    destruct (Chars.markdown x); simpl; lia.
Qed.

(** ** Entering scans *)

Lemma parse_wormhole_info_statuses (text : string) :
  let '(_, life_status, mass_status) := Tracker.parse_wormhole_info text in
  (life_status = "Fresh" \/ life_status = "Destabilizing"
   \/ life_status = "Critical")
  /\ (mass_status = "100% > 50%" \/ mass_status = "50% > 10%"
      \/ mass_status = "< 10%").
Proof.
  unfold Tracker.parse_wormhole_info. cbv zeta. split.
  - repeat match goal with
           | |- context [if ?b then _ else _] => destruct b
           end; auto.
  - repeat match goal with
           | |- context [if ?b then _ else _] => destruct b
           end; auto.
Qed.

Lemma truthy_str_Some (s : string) :
  s <> "" -> Tracker.truthy_str (Some s) = Some s.
Proof. destruct s; [congruence|reflexivity]. Qed.

Lemma pasted_scan_kept (now later new_id : Z)
    (r s ty life mass : string) :
  ty <> "None" ->
  (life = "Fresh" \/ life = "Destabilizing" \/ life = "Critical") ->
  now <= later ->
  Tracker.keep_scan later
    (Tracker.mkScan new_id r s ty life mass
       (Some (Tracker.calculate_spawn_time now life None))) = true
  <-> (life = "Fresh" /\ later - now <= Tracker.hours 24)
      \/ (life = "Destabilizing" /\ later = now).
Proof.
  intros Hty Hlife Hle.
  rewrite (keep_scan_dated later (Tracker.calculate_spawn_time now life None))
    by (simpl; auto).
  cbn [Tracker.lifeStatus].
  destruct Hlife as [-> | [-> | ->]];
    unfold Tracker.calculate_spawn_time, Tracker.lifetime_of,
      Tracker.LIFETIME_HOURS; simpl String.eqb; cbv iota;
    rewrite ?timedelta_24h, ?timedelta_4h, ?timedelta_15min.
  - split; [auto|]. intros [[_ H]|[H _]]; [exact H|discriminate].
  - split.
    + intros H. right. split; [reflexivity|time_lia].
    + intros [[H _]|[_ H]]; [discriminate|time_lia].
  - split.
    + intros H. exfalso. time_lia.
    + intros [[H _]|[H _]]; discriminate.
Qed.

(** X26. What a pasted scan is worth to the routing.  When the form is
    filled in and the text of the paste box, stripped, is not empty,
    [add_scan_from_paste] puts one new scan in front of the list; its life
    status is Fresh, Destabilizing or Critical and its mass status is one
    of the three bands, whatever the pasted text.  Because the stored
    timestamp is the estimated spawn time, the connection-graph builder
    keeps this scan at a moment [later >= now] only in two cases: it was
    read as Fresh and no more than 24 hours have passed, or it was read as
    Destabilizing and no time at all has passed.  A scan read as Critical
    is never kept, and one read as Destabilizing is dropped from the first
    microsecond after it was entered.  With an empty text nothing is
    added. *)
Theorem pasted_scans_route_only_while_fresh
    (now later new_id : Z) (the_region the_system selected_type : string)
    (wh_info : string) (scans : list Tracker.Scan) :
  the_region <> "" -> the_system <> "" ->
  selected_type <> "" -> selected_type <> "None" ->
  wh_info <> "" ->
  now <= later ->
  (exists scan,
     Tracker.add_scan_from_paste now new_id (Some the_region)
       (Some the_system) (Some selected_type) wh_info scans
     = scan :: scans
     /\ Tracker.system scan = the_system
     /\ Tracker.holeType scan = selected_type
     /\ In (Tracker.lifeStatus scan) ["Fresh"; "Destabilizing"; "Critical"]
     /\ In (Tracker.massStatus scan) ["100% > 50%"; "50% > 10%"; "< 10%"]
     /\ (Tracker.keep_scan later scan = true
         <-> (Tracker.lifeStatus scan = "Fresh"
              /\ later - now <= Tracker.hours 24)
             \/ (Tracker.lifeStatus scan = "Destabilizing"
                 /\ later = now)))
  /\ Tracker.add_scan_from_paste now new_id (Some the_region)
       (Some the_system) (Some selected_type) "" scans
     = scans.
Proof.
  intros Hr Hs Hty Hnone Htext Hle. unfold Tracker.add_scan_from_paste.
  rewrite !truthy_str_Some by assumption.
  split; [|reflexivity].
  destruct (String.eqb_spec wh_info ""); [contradiction|].
  pose proof (parse_wormhole_info_statuses wh_info) as Hp.
  destruct (Tracker.parse_wormhole_info wh_info) as [[hole life] mass].
  destruct Hp as [Hlife Hmass]. eexists. split; [reflexivity|].
  cbn [Tracker.system Tracker.holeType Tracker.lifeStatus
       Tracker.massStatus].
  split; [reflexivity|]. split; [reflexivity|]. split.
  { destruct Hlife as [-> | [-> | ->]]; simpl; auto. }
  split.
  { destruct Hmass as [-> | [-> | ->]]; simpl; auto. }
  apply pasted_scan_kept; assumption.
Qed.

Lemma pasted_scans_route_only_while_fresh_witness :
  exists scan,
    Tracker.add_scan_from_paste 1000 7 (Some "Cache") (Some "C-6YHJ")
      (Some "Barbican")
      "Its stability is reduced, but not yet to a critical degree" []
    = [scan]
    /\ Tracker.lifeStatus scan = "Destabilizing"
    /\ Tracker.keep_scan 1000 scan = true
    /\ Tracker.keep_scan 1001 scan = false.
Proof.
  destruct (pasted_scans_route_only_while_fresh 1000 1000 7 "Cache" "C-6YHJ"
              "Barbican"
              "Its stability is reduced, but not yet to a critical degree" [])
    as [(scan & E & _ & _ & _ & _ & Hnow) _];
    try discriminate; try lia.
  destruct (pasted_scans_route_only_while_fresh 1000 1001 7 "Cache" "C-6YHJ"
              "Barbican"
              "Its stability is reduced, but not yet to a critical degree" [])
    as [(scan' & E' & _ & _ & _ & _ & Hlater) _];
    try discriminate; try lia.
  assert (scan' = scan) by congruence. subst scan'.
  assert (Hlife : Tracker.lifeStatus scan = "Destabilizing").
  { vm_compute in E. inversion E. reflexivity. }
  exists scan. split; [exact E|]. split; [exact Hlife|]. split.
  - apply Hnow. right. split; [exact Hlife|reflexivity].
  - apply not_true_iff_false. intros H. apply Hlater in H.
    destruct H as [[H _]|[_ H]]; [congruence|lia].
Defined.

Lemma filter_comm {A} (f g : A -> bool) (l : list A) :
  List.filter f (List.filter g l) = List.filter g (List.filter f l).
Proof.
  induction l as [|x l IH]; [reflexivity|]. simpl.
  destruct (f x) eqn:Ef, (g x) eqn:Eg; simpl; rewrite ?Ef, ?Eg, IH;
    reflexivity.
Qed.

Lemma filter_complement {A} (f : A -> bool) (l : list A) :
  List.filter f (List.filter (fun x => negb (f x)) l) = [].
Proof.
  induction l as [|x l IH]; [reflexivity|]. simpl.
  destruct (f x) eqn:E; simpl; [exact IH|]. rewrite E. exact IH.
Qed.

Lemma add_no_hole_scan_done (now new_id : Z) (the_region the_system : string)
    (scans : list Tracker.Scan) :
  the_region <> "" -> the_system <> "" ->
  Tracker.add_no_hole_scan now new_id (Some the_region) (Some the_system)
    true scans
  = Tracker.mkScan new_id the_region the_system "None" "N/A" "N/A" (Some now)
    :: List.filter
         (fun s => negb (String.eqb (Tracker.system s) the_system)) scans.
Proof.
  intros Hr Hs. unfold Tracker.add_no_hole_scan.
  rewrite !truthy_str_Some by assumption.
  destruct (List.filter _ scans); reflexivity.
Qed.

(** X27. Marking a system as having no hole takes it out of the routing.
    Once the form is filled in and the question, if asked, is answered
    with yes, the system has exactly one entry left in the list, the new
    "None" entry placed in front, and the other systems keep their scans
    in order.  At any moment the scans the graph builder keeps are those
    it kept before outside that system, so the system is no key of the
    connection graph and no adjacency list leads to it.  Answering no
    when the system has a wormhole logged leaves the list as it is. *)
Theorem no_hole_mark_clears_system
    (now later new_id : Z) (the_region the_system : string)
    (scans : list Tracker.Scan) :
  the_region <> "" -> the_system <> "" ->
  let scans' :=
    Tracker.add_no_hole_scan now new_id (Some the_region) (Some the_system)
      true scans in
  List.filter (fun s => String.eqb (Tracker.system s) the_system) scans'
  = [Tracker.mkScan new_id the_region the_system "None" "N/A" "N/A"
       (Some now)]
  /\ List.filter (fun s => negb (String.eqb (Tracker.system s) the_system))
       scans'
     = List.filter (fun s => negb (String.eqb (Tracker.system s) the_system))
         scans
  /\ Tracker.active_wormholes later scans'
     = List.filter (fun s => negb (String.eqb (Tracker.system s) the_system))
         (Tracker.active_wormholes later scans)
  /\ ~ In the_system
         (OrderedDict.keys (Tracker.build_connection_graph later scans'))
  /\ (forall k l x wh,
        OrderedDict.get k (Tracker.build_connection_graph later scans')
        = Some l ->
        In (x, wh) l -> x <> the_system)
  /\ (forall s, In s scans -> Tracker.system s = the_system ->
        Tracker.holeType s <> "None" ->
        Tracker.add_no_hole_scan now new_id (Some the_region)
          (Some the_system) false scans
        = scans).
Proof.
  intros Hr Hs scans'.
  set (other := fun s : Tracker.Scan =>
                  negb (String.eqb (Tracker.system s) the_system)).
  assert (E : scans'
              = Tracker.mkScan new_id the_region the_system "None" "N/A"
                  "N/A" (Some now) :: List.filter other scans)
    by (apply add_no_hole_scan_done; assumption).
  assert (Hact : Tracker.active_wormholes later scans'
                 = List.filter other (Tracker.active_wormholes later scans)).
  { rewrite E. unfold Tracker.active_wormholes. cbn [List.filter].
    change (Tracker.keep_scan later
              (Tracker.mkScan new_id the_region the_system "None" "N/A"
                 "N/A" (Some now))) with false.
    cbv iota. apply filter_comm. }
  assert (Hout : forall s, In s (Tracker.active_wormholes later scans') ->
                   Tracker.system s <> the_system).
  { intros s Hin. rewrite Hact in Hin. apply filter_In in Hin.
    destruct Hin as [_ Ho]. unfold other in Ho.
    apply negb_true_iff in Ho. intros Hsys. rewrite Hsys in Ho.
    rewrite String.eqb_refl in Ho. discriminate. }
  split; [|split; [|split; [exact Hact|split; [|split]]]].
  - rewrite E. cbn [List.filter Tracker.system].
    rewrite String.eqb_refl. f_equal. apply filter_complement.
  - rewrite E. cbn [List.filter]. fold other.
    assert (Ho : other (Tracker.mkScan new_id the_region the_system "None"
                          "N/A" "N/A" (Some now)) = false).
    { unfold other. cbn [Tracker.system]. rewrite String.eqb_refl.
      reflexivity. }
    rewrite Ho. apply filter_filter_same.
  - unfold Tracker.build_connection_graph. rewrite connect_all_keys.
    intros (a & Hin & Hsys). exact (Hout a Hin Hsys).
  - intros k l x wh Hget Hin. unfold Tracker.build_connection_graph in Hget.
    destruct (connect_all_edge_inv _ k x l wh Hget Hin)
      as (i & j & a & _ & _ & Hj & _ & Hx & _).
    rewrite <- Hx. apply Hout. apply list_elem_of_In.
    apply list_elem_of_lookup. eauto.
  - clear E Hact Hout. clear scans'.
    intros s Hin Hsys Hty. unfold Tracker.add_no_hole_scan.
    rewrite !truthy_str_Some by assumption.
    destruct (List.filter _ scans) as [|h t] eqn:Ef; [|reflexivity].
    exfalso.
    assert (Hs' : In s []); [|destruct Hs'].
    rewrite <- Ef. apply filter_In. split; [exact Hin|].
    rewrite Hsys, String.eqb_refl.
    destruct (String.eqb_spec (Tracker.holeType s) "None");
      [contradiction|reflexivity].
Qed.

Lemma no_hole_mark_clears_system_witness :
  ~ In "Y"
      (OrderedDict.keys
         (Tracker.build_connection_graph 10
            (Tracker.add_no_hole_scan 5 1 (Some "Region") (Some "Y") true
               [Examples.barbican_X; Examples.barbican_Y;
                Examples.barbican_Z]))).
Proof.
  assert (H1 : "Region" <> "") by discriminate.
  assert (H2 : "Y" <> "") by discriminate.
  pose proof (no_hole_mark_clears_system 5 10 1 "Region" "Y"
                [Examples.barbican_X; Examples.barbican_Y;
                 Examples.barbican_Z] H1 H2) as H.
  cbv zeta in H. exact (proj1 (proj2 (proj2 (proj2 H)))).
Defined.

(** ** Direct neighbours are always found *)

Lemma extract_min_In (rest : list Loader.entry) :
  forall e m r x,
    Loader.extract_min e rest = (m, r) ->
    In x (e :: rest) -> x = m \/ In x r.
Proof.
  induction rest as [|y ys IH]; intros e m r x Hex Hin; simpl in Hex.
  - inversion Hex; subst. destruct Hin as [Hx|[]]. auto.
  - destruct (Loader.entry_lt y e).
    + destruct (Loader.extract_min y ys) as [m' r'] eqn:E.
      inversion Hex; subst.
      destruct Hin as [Hx|Hin]; [right; left; exact Hx|].
      destruct (IH _ _ _ x E Hin) as [Hm|H]; [auto|right; right; exact H].
    + destruct (Loader.extract_min e ys) as [m' r'] eqn:E.
      inversion Hex; subst.
      destruct Hin as [Hx|[Hx|Hin]].
      * destruct (IH _ _ _ x E (or_introl Hx)) as [Hm|H];
          [auto|right; right; exact H].
      * right. left. exact Hx.
      * destruct (IH _ _ _ x E (or_intror Hin)) as [Hm|H];
          [auto|right; right; exact H].
Qed.

Lemma explore_In (step_cost cost : float) (path : list Z)
    (visited : gmap Z float) (ns : list Z) :
  forall pq x, In x pq ->
    In x (Loader.explore step_cost cost path visited ns pq).
Proof.
  unfold Loader.explore. induction ns as [|n ns IH]; intros pq x Hin;
    [exact Hin|].
  simpl. apply IH.
  destruct (match visited !! n with Some _ => _ | None => _ end);
    [right; exact Hin|exact Hin].
Qed.

Lemma explore_pushes (step_cost cost : float) (path : list Z)
    (visited : gmap Z float) (ns : list Z) (n : Z) :
  In n ns -> visited !! n = None ->
  forall pq,
    exists c p,
      In (c, n, p) (Loader.explore step_cost cost path visited ns pq).
Proof.
  intros Hin Hv. induction ns as [|k ns IH]; [destruct Hin|].
  intros pq. destruct Hin as [->|Hin].
  - exists (cost + step_cost)%float, (path ++ [n])%list.
    unfold Loader.explore. simpl. rewrite Hv.
    apply (explore_In step_cost cost path visited ns). left. reflexivity.
  - unfold Loader.explore. simpl. apply (IH Hin).
Qed.

Lemma search_finds_queued (self : Loader.EVESDELoader)
    (end_id max_jumps : Z) (use_jumpbridges : bool) (fuel : nat) :
  forall pq visited,
    (exists c p, In (c, end_id, p) pq) ->
    visited !! end_id = None ->
    Loader.search fuel self end_id max_jumps use_jumpbridges pq visited
    <> Return None.
Proof.
  induction fuel as [|fuel IH]; intros pq visited (c & p & Hin) Hv;
    [discriminate|].
  simpl. destruct pq as [|e rest]; [destruct Hin|]. cbn [Loader.heappop].
  destruct (Loader.extract_min e rest) as [[[cost cur] path] pq'] eqn:Hex.
  pose proof (extract_min_In rest e _ _ _ Hex Hin) as Hcase.
  destruct (Z.eqb_spec cur end_id) as [->|Hne].
  - rewrite Hv. discriminate.
  - assert (Hrest : In (c, end_id, p) pq').
    { destruct Hcase as [E|H]; [inversion E; congruence|exact H]. }
    assert (Hv' : <[cur := cost]> visited !! end_id = None)
      by (rewrite lookup_insert_ne by exact Hne; exact Hv).
    destruct (match visited !! cur with Some _ => _ | None => _ end);
      [apply IH; eauto|].
    destruct (max_jumps * 2 <? len path); [apply IH; eauto|].
    apply IH; [|exact Hv']. exists c, p.
    destruct use_jumpbridges;
      destruct (Loader.jumpbridges self !! cur);
      destruct (Loader.system_jumps self !! cur);
      repeat apply explore_In; exact Hrest.
Qed.

Lemma search_finds_neighbour (self : Loader.EVESDELoader)
    (start_id end_id max_jumps : Z) (use_jumpbridges : bool) (fuel : nat) :
  start_id <> end_id -> 1 <= max_jumps ->
  In end_id (Graph.neighbours self use_jumpbridges start_id) ->
  Loader.search fuel self end_id max_jumps use_jumpbridges
    [(0%float, start_id, [start_id])] ∅
  <> Return None.
Proof.
  intros Hne Hmj Hnb. destruct fuel as [|fuel]; [discriminate|].
  cbn [Loader.search Loader.heappop Loader.extract_min].
  rewrite lookup_empty.
  destruct (Z.eqb_spec start_id end_id); [contradiction|].
  destruct (Z.ltb_spec (max_jumps * 2) (len [start_id])) as [Hlong|_];
    [unfold len in Hlong; simpl in Hlong; lia|].
  assert (Hv : <[start_id := 0%float]> (∅ : gmap Z float) !! end_id = None).
  { rewrite lookup_insert_ne by exact Hne. apply lookup_empty. }
  apply search_finds_queued; [|exact Hv].
  unfold Graph.neighbours in Hnb. apply in_app_or in Hnb.
  destruct Hnb as [Hg|Hb].
  - destruct (Loader.system_jumps self !! start_id) as [ns|];
      [|destruct Hg]. simpl in Hg.
    destruct (explore_pushes Loader.GATE_COST 0%float [start_id] _ ns end_id
                Hg Hv []) as (c & p & Hin).
    exists c, p.
    destruct use_jumpbridges; [|exact Hin].
    destruct (Loader.jumpbridges self !! start_id); [|exact Hin].
    apply explore_In. exact Hin.
  - destruct use_jumpbridges; [|destruct Hb].
    destruct (Loader.jumpbridges self !! start_id) as [ns|]; [|destruct Hb].
    simpl in Hb. apply explore_pushes; assumption.
Qed.

Lemma find_path_neighbour (self : Loader.EVESDELoader)
    (start_system end_system s e : string) (start_id end_id max_jumps : Z)
    (use_jumpbridges : bool) (fuel : nat) :
  SecurityValidator.validate_system_name start_system = Some s ->
  SecurityValidator.validate_system_name end_system = Some e ->
  s <> "" -> e <> "" ->
  Loader.system_name_to_id self !! s = Some start_id ->
  Loader.system_name_to_id self !! e = Some end_id ->
  start_id <> 0 -> end_id <> 0 ->
  1 <= max_jumps <= 100 ->
  In end_id (Graph.neighbours self use_jumpbridges start_id) ->
  Loader.find_path fuel self start_system end_system max_jumps
    use_jumpbridges <> Timeout ->
  (exists names,
     Loader.find_path fuel self start_system end_system max_jumps
       use_jumpbridges = Return (Some names))
  \/ Loader.find_path fuel self start_system end_system max_jumps
       use_jumpbridges = KeyError.
Proof.
  intros Hs He Hs1 He1 Hsid Heid Hs0 He0 Hmj Hnb.
  unfold Loader.find_path. rewrite Hs, He.
  unfold SecurityValidator.validate_integer.
  destruct (Z.ltb_spec max_jumps 1); [lia|].
  destruct (Z.ltb_spec 100 max_jumps); [lia|].
  destruct (String.eqb_spec s ""); [contradiction|].
  destruct (String.eqb_spec e ""); [contradiction|]. cbn [orb].
  rewrite Hsid, Heid.
  assert (HS : Loader.truthy_id (Some start_id) = Some start_id)
    by (apply truthy_id_Some; auto).
  assert (HE : Loader.truthy_id (Some end_id) = Some end_id)
    by (apply truthy_id_Some; auto).
  rewrite HS, HE.
  destruct (Z.eqb_spec start_id end_id) as [Heq|Hne]; [eauto|].
  pose proof (search_finds_neighbour self start_id end_id max_jumps
                use_jumpbridges fuel Hne (proj1 Hmj) Hnb) as Hfound.
  destruct (Loader.search fuel self end_id max_jumps use_jumpbridges
              [(0%float, start_id, [start_id])] ∅) as [[path|]| |];
    cbn [mbind outcome_bind]; intros Htime.
  - destruct (for_each (Loader.name_of self) path) as [names| |];
      cbn [mbind outcome_bind] in *; [eauto|auto|contradiction].
  - contradiction.
  - auto.
  - contradiction.
Qed.

(** X28. A direct neighbour is always found.  When the destination is one
    edge away from the start (a gate, or a jumpbridge when jumpbridges are
    in use), [find_path] never answers [None], whatever else the graph
    holds: with enough fuel the call returns a path, or raises [KeyError]
    because a system on the path it found has no name. *)
Theorem neighbours_are_always_found (self : Loader.EVESDELoader)
    (start_system end_system s e : string) (start_id end_id max_jumps : Z)
    (use_jumpbridges : bool) :
  SecurityValidator.validate_system_name start_system = Some s ->
  SecurityValidator.validate_system_name end_system = Some e ->
  s <> "" -> e <> "" ->
  Loader.system_name_to_id self !! s = Some start_id ->
  Loader.system_name_to_id self !! e = Some end_id ->
  start_id <> 0 -> end_id <> 0 ->
  1 <= max_jumps <= 100 ->
  In end_id (Graph.neighbours self use_jumpbridges start_id) ->
  exists fuel,
    forall fuel', (fuel <= fuel')%nat ->
      (exists names,
         Loader.find_path fuel' self start_system end_system max_jumps
           use_jumpbridges = Return (Some names))
      \/ Loader.find_path fuel' self start_system end_system max_jumps
           use_jumpbridges = KeyError.
Proof.
  intros Hs He Hs1 He1 Hsid Heid Hs0 He0 Hmj Hnb.
  destruct (find_path_total self start_system end_system max_jumps
              use_jumpbridges) as (fuel & Htime & Hstable).
  exists fuel. intros fuel' Hle.
  eapply find_path_neighbour; try eassumption.
  rewrite (Hstable fuel' Hle). exact Htime.
Qed.

Lemma neighbours_are_always_found_witness :
  exists fuel,
    forall fuel', (fuel <= fuel')%nat ->
      (exists names,
         Loader.find_path fuel' Examples.bug_loader "B" "E" 3 true
         = Return (Some names))
      \/ Loader.find_path fuel' Examples.bug_loader "B" "E" 3 true = KeyError.
Proof.
  apply (neighbours_are_always_found Examples.bug_loader "B" "E" "B" "E" 7 9);
    try reflexivity; try discriminate; try lia.
  vm_compute. auto.
Defined.

Lemma bridge_is_neighbour (jbs : gmap Z (list Z)) (gates : gmap Z (list Z))
    (n2i : gmap string Z) (i2n : gmap Z string) (a b : Z) :
  Bridges.edge jbs a b ->
  In b (Graph.neighbours (Loader.mkLoader n2i i2n gates jbs) true a).
Proof.
  intros (l & Hl & Hb). unfold Graph.neighbours.
  cbn [Loader.system_jumps Loader.jumpbridges]. rewrite Hl.
  apply in_or_app. right. exact Hb.
Qed.

(** X29. Jumpbridges that are loaded are usable.  On a loader whose
    stored names are canonical, every row of the table whose two systems
    are known makes [load_jumpbridges] return True, and afterwards
    [find_path] with jumpbridges in use finds a route between the two
    systems in either direction: it never answers [None] for them (it
    returns a path, or raises [KeyError] when a system on the path has no
    name). *)
Theorem loaded_jumpbridges_are_usable (self : Loader.EVESDELoader)
    (JUMPBRIDGES : list (string * string * string))
    (system1 system2 alliance : string) (a b max_jumps : Z) :
  Names.canonical self ->
  In (system1, system2, alliance) JUMPBRIDGES ->
  Loader.system_name_to_id self !! system1 = Some a ->
  Loader.system_name_to_id self !! system2 = Some b ->
  1 <= max_jumps <= 100 ->
  exists self',
    Loader.load_jumpbridges self (Some JUMPBRIDGES) = Return (self', true)
    /\ exists fuel,
         forall fuel', (fuel <= fuel')%nat ->
           ((exists names,
               Loader.find_path fuel' self' system1 system2 max_jumps true
               = Return (Some names))
            \/ Loader.find_path fuel' self' system1 system2 max_jumps true
               = KeyError)
           /\ ((exists names,
                  Loader.find_path fuel' self' system2 system1 max_jumps true
                  = Return (Some names))
               \/ Loader.find_path fuel' self' system2 system1 max_jumps true
                  = KeyError).
Proof.
  intros Hcan Hrow Ha Hb Hmj.
  destruct (Hcan system1 a Ha) as (Hv1 & Hn1 & Ha0).
  destruct (Hcan system2 b Hb) as (Hv2 & Hn2 & Hb0).
  assert (Hres : Bridges.resolved (Loader.system_name_to_id self)
                   JUMPBRIDGES a b).
  { exists system1, system2, alliance. split; [exact Hrow|].
    split; apply truthy_id_Some; auto. }
  unfold Loader.load_jumpbridges.
  destruct (jumpbridge_loop (Loader.system_name_to_id self) JUMPBRIDGES
              (Loader.jumpbridges self) 0 0)
    as (jbs & c & sk & E & Hedge & _ & _ & Hlt & _).
  rewrite E. cbn [mbind outcome_bind].
  assert (Hc : (0 <? c) = true) by (apply Z.ltb_lt, Hlt; eauto).
  rewrite Hc. eexists. split; [reflexivity|].
  set (self' := Loader.mkLoader _ _ _ jbs).
  destruct (find_path_total self' system1 system2 max_jumps true)
    as (f1 & T1 & S1).
  destruct (find_path_total self' system2 system1 max_jumps true)
    as (f2 & T2 & S2).
  exists (Nat.max f1 f2). intros fuel' Hle. split.
  - eapply (find_path_neighbour self' system1 system2 system1 system2 a b);
      try eassumption.
    + apply bridge_is_neighbour. apply Hedge. auto.
    + rewrite (S1 fuel') by lia. exact T1.
  - eapply (find_path_neighbour self' system2 system1 system2 system1 b a);
      try eassumption.
    + apply bridge_is_neighbour. apply Hedge. auto.
    + rewrite (S2 fuel') by lia. exact T2.
Qed.

Lemma loaded_jumpbridges_are_usable_witness :
  exists self',
    Loader.load_jumpbridges
      (Loader.mkLoader (<["C-6YHJ" := 30000001]> (<["P7-45V" := 30000002]> ∅))
         ∅ ∅ ∅)
      (Some [("C-6YHJ", "P7-45V", "FNT")])
    = Return (self', true)
    /\ exists fuel,
         forall fuel', (fuel <= fuel')%nat ->
           ((exists names,
               Loader.find_path fuel' self' "C-6YHJ" "P7-45V" 15 true
               = Return (Some names))
            \/ Loader.find_path fuel' self' "C-6YHJ" "P7-45V" 15 true
               = KeyError)
           /\ ((exists names,
                  Loader.find_path fuel' self' "P7-45V" "C-6YHJ" 15 true
                  = Return (Some names))
               \/ Loader.find_path fuel' self' "P7-45V" "C-6YHJ" 15 true
                  = KeyError).
Proof.
  apply (loaded_jumpbridges_are_usable _ _ "C-6YHJ" "P7-45V" "FNT"
           30000001 30000002).
  - intros n i H. cbn [Loader.system_name_to_id] in H.
    destruct (decide ("C-6YHJ" = n)) as [<-|N1].
    + rewrite lookup_insert_eq in H. inversion H.
      split; [reflexivity|]. split; [discriminate|lia].
    + rewrite lookup_insert_ne in H by exact N1.
      destruct (decide ("P7-45V" = n)) as [<-|N2].
      * rewrite lookup_insert_eq in H. inversion H.
        split; [reflexivity|]. split; [discriminate|lia].
      * rewrite lookup_insert_ne in H by exact N2.
        rewrite lookup_empty in H. discriminate.
  - left. reflexivity.
  - reflexivity.
  - reflexivity.
  - lia.
Defined.

(** ** Marking a connection *)








